(** * pupx3: the song-request queue engine

    A shallow embedding of the request-queue engine of the chat bot (the
    bot's entry point and [lib/google.ts]) and the properties its
    specification states about it, followed by further properties of the
    code.

    Conventions.
    - JavaScript strings are modelled as [string] (or [list ascii] where the
      code walks them); case mapping, trimming and the regular expressions are
      the ASCII restriction of the JavaScript ones.
    - Promises are modelled by their outcome: a call either returns a value or
      throws; [await] sequences them.  One handler runs at a time.
    - Calls on remote collaborators (YouTube Data API, catalog client, chat
      transport, tenant store) are recorded in call logs, so that the absence
      of a call is a statement about the log.
    - The tenant store and [chatClient.say] are taken to answer; the calls of
      the music platform and of the chat client's [join] and [part] may
      throw.  The query for the active tenants, at startup and in a tick, is
      given with its outcome where its rejection matters ([main],
      [reconcile]).
    - [console.log] and [console.error] are left out. *)

From Stdlib Require Import Ascii String List Bool Arith Lia QArith Lqa Permutation.
From stdpp Require Import base option strings pretty gmap list.

Import ListNotations.
Local Open Scope string_scope.
Local Open Scope list_scope.
Local Open Scope nat_scope.

(** ** JavaScript string primitives (ASCII) *)

Module JS.

Definition chars (s : string) : list ascii := list_ascii_of_string s.
Definition str (l : list ascii) : string := string_of_list_ascii l.

Definition in_range (lo hi : nat) (c : ascii) : bool :=
  (lo <=? nat_of_ascii c) && (nat_of_ascii c <=? hi).

Definition is_upper (c : ascii) : bool := in_range 65 90 c.
Definition is_lower (c : ascii) : bool := in_range 97 122 c.
Definition is_digit (c : ascii) : bool := in_range 48 57 c.

Definition lower_char (c : ascii) : ascii :=
  if is_upper c then ascii_of_nat (nat_of_ascii c + 32) else c.

Definition upper_char (c : ascii) : ascii :=
  if is_lower c then ascii_of_nat (nat_of_ascii c - 32) else c.

(** [String.prototype.toLowerCase]. *)
Definition toLowerCase (s : string) : string := str (map lower_char (chars s)).

(** White space as [trim] and [\s] see it: TAB, LF, VT, FF, CR, SPACE. *)
Definition is_space (c : ascii) : bool :=
  in_range 9 13 c || (nat_of_ascii c =? 32).

Fixpoint trimStart_chars (l : list ascii) : list ascii :=
  match l with
  | c :: l' => if is_space c then trimStart_chars l' else l
  | [] => []
  end.

Definition trim_chars (l : list ascii) : list ascii :=
  rev (trimStart_chars (rev (trimStart_chars l))).

(** [String.prototype.trim]. *)
Definition trim (s : string) : string := str (trim_chars (chars s)).

Fixpoint prefix_chars (p l : list ascii) : bool :=
  match p, l with
  | [], _ => true
  | c :: p', d :: l' => Ascii.eqb c d && prefix_chars p' l'
  | _ :: _, [] => false
  end.

(** [String.prototype.startsWith]. *)
Definition startsWith (s p : string) : bool := prefix_chars (chars p) (chars s).

(** [String.prototype.slice(n)] with a non-negative [n]. *)
Definition slice (n : nat) (s : string) : string := str (skipn n (chars s)).

Fixpoint remove_first_char (c : ascii) (l : list ascii) : list ascii :=
  match l with
  | [] => []
  | d :: l' => if Ascii.eqb c d then l' else d :: remove_first_char c l'
  end.

(** [s.replace(c, '')] for a one-character pattern: the first occurrence
    only. *)
Definition replace_first (c : ascii) (s : string) : string :=
  str (remove_first_char c (chars s)).

(** [Array.prototype.join]. *)
Fixpoint join (sep : string) (l : list string) : string :=
  match l with
  | [] => ""
  | [x] => x
  | x :: l' => x +:+ sep +:+ join sep l'
  end.

(** Truthiness of a string: the empty string is falsy. *)
Definition truthy (s : string) : bool := negb (String.eqb s "").

(** Truthiness of a value that may be [undefined]/[null]. *)
Definition truthy_opt (o : option string) : bool :=
  match o with Some s => truthy s | None => false end.

End JS.

(** ** Regular expressions, as [RegExp] matches them

    A backtracking matcher in continuation-passing style: alternatives are
    tried left to right, [?] and [*] are greedy, and the first successful
    path decides the capture, as in ECMAScript.  All three patterns of the
    bot carry the [i] flag, so literal characters are compared after
    canonicalisation (upper-casing). *)

Module Regex.

Inductive regex : Type :=
| REps                              (* the empty pattern *)
| RChar (c : ascii)                 (* a literal character *)
| RSet (p : ascii -> bool)          (* a character class, or [.] *)
| RStarSet (p : ascii -> bool)      (* a greedy star over a class: [.*] *)
| RSeq (r1 r2 : regex)
| RAlt (r1 r2 : regex)
| ROpt (r : regex)                  (* greedy [(?: r )?] *)
| RRep (n : nat) (r : regex)        (* [r{n}] *)
| RGroup (r : regex)                (* the capture group, number 1 *)
| REnd.                             (* [$] without the [m] flag *)

Definition capture := option (list ascii).

Definition canon (c : ascii) : ascii := JS.upper_char c.

Section Matcher.
Context {X : Type}.

Fixpoint star (p : ascii -> bool) (s : list ascii)
         (k : list ascii -> option X) : option X :=
  match s with
  | c :: s' =>
      if p c then
        match star p s' k with
        | Some x => Some x
        | None => k s
        end
      else k s
  | [] => k []
  end.

Fixpoint rmatch (r : regex) (s : list ascii) (cap : capture)
         (k : list ascii -> capture -> option X) {struct r} : option X :=
  match r with
  | REps => k s cap
  | RChar c =>
      match s with
      | x :: s' => if Ascii.eqb (canon c) (canon x) then k s' cap else None
      | [] => None
      end
  | RSet p =>
      match s with
      | x :: s' => if p x then k s' cap else None
      | [] => None
      end
  | RStarSet p => star p s (fun s' => k s' cap)
  | RSeq r1 r2 => rmatch r1 s cap (fun s' cap' => rmatch r2 s' cap' k)
  | RAlt r1 r2 =>
      match rmatch r1 s cap k with
      | Some x => Some x
      | None => rmatch r2 s cap k
      end
  | ROpt r1 =>
      match rmatch r1 s cap k with
      | Some x => Some x
      | None => k s cap
      end
  | RRep n r1 =>
      (fix rep (n : nat) (s : list ascii) (cap : capture)
           (k : list ascii -> capture -> option X) : option X :=
         match n with
         | O => k s cap
         | S n' => rmatch r1 s cap (fun s' cap' => rep n' s' cap' k)
         end) n s cap k
  | RGroup r1 =>
      rmatch r1 s cap
        (fun s' _ => k s' (Some (firstn (length s - length s') s)))
  | REnd =>
      match s with
      | [] => k [] cap
      | _ :: _ => None
      end
  end.
End Matcher.

(** [text.match(re)] for a pattern without the [g] flag: the leftmost
    start position that admits a match; the result is the capture. *)
Fixpoint exec (r : regex) (s : list ascii) : option capture :=
  match rmatch r s None (fun _ cap => Some cap) with
  | Some cap => Some cap
  | None =>
      match s with
      | [] => None
      | _ :: s' => exec r s'
      end
  end.

(** A literal string. *)
Fixpoint lit_chars (l : list ascii) : regex :=
  match l with
  | [] => REps
  | c :: l' => RSeq (RChar c) (lit_chars l')
  end.

Definition lit (s : string) : regex := lit_chars (JS.chars s).

Definition is_line_terminator (c : ascii) : bool :=
  (nat_of_ascii c =? 10) || (nat_of_ascii c =? 13).

(** The class of [.]. *)
Definition dot (c : ascii) : bool := negb (is_line_terminator c).

End Regex.

(** ** URL patterns of the bot *)

Import Regex.

(** [[a-zA-Z0-9_-]] *)
Definition token_char (c : ascii) : bool :=
  JS.is_lower c || JS.is_upper c || JS.is_digit c
  || Ascii.eqb c "_" || Ascii.eqb c "-".

(** [(?:https?:\/\/)?] *)
Definition scheme_opt : regex :=
  ROpt (RSeq (lit "http") (RSeq (ROpt (RChar "s")) (lit "://"))).

(** [(?:www\.)?] *)
Definition www_opt : regex := ROpt (lit "www.").

(** [(?:.*&)?v=([a-zA-Z0-9_-]{11})] *)
Definition v_param : regex :=
  RSeq (ROpt (RSeq (RStarSet dot) (RChar "&")))
       (RSeq (lit "v=") (RGroup (RRep 11 (RSet token_char)))).

Definition YT_WATCH_RE : regex :=
  RSeq scheme_opt (RSeq www_opt (RSeq (lit "youtube.com/watch?") v_param)).

Definition YT_SHORT_RE : regex :=
  RSeq scheme_opt
    (RSeq www_opt
       (RSeq (lit "youtu.be/")
          (RSeq (RGroup (RRep 11 (RSet token_char)))
                (RAlt (RChar "?") REnd)))).

Definition YT_MUSIC_RE : regex :=
  RSeq scheme_opt (RSeq (lit "music.youtube.com/watch?") v_param).

(** [text.match(re)?.[1]]: [None] when there is no match (or the group did
    not take part). *)
Definition match_group1 (re : regex) (text : string) : option string :=
  match exec re (JS.chars text) with
  | Some (Some g) => Some (JS.str g)
  | _ => None
  end.

(** [a || b] on values that may be undefined. *)
Definition or_else (a b : option string) : option string :=
  if JS.truthy_opt a then a else b.

Definition extractYouTubeVideoId (text : string) : option string :=
  or_else (match_group1 YT_WATCH_RE text)
    (or_else (match_group1 YT_SHORT_RE text)
       (or_else (match_group1 YT_MUSIC_RE text) None)).


(** ** Outcomes of asynchronous calls

    An awaited promise either yields a value or rejects with an [Error],
    which is modelled by its message. *)

Inductive result (A : Type) : Type :=
| Ok (a : A)
| Throw (msg : string).
Arguments Ok {A} a.
Arguments Throw {A} msg.

(** State-passing computations that may throw. *)
Definition M (St A : Type) : Type := St -> result A * St.

Definition ret {St A} (a : A) : M St A := fun s => (Ok a, s).

Definition throw {St A} (msg : string) : M St A := fun s => (Throw msg, s).

Definition bind {St A B} (c : M St A) (k : A -> M St B) : M St B :=
  fun s =>
    match c s with
    | (Ok a, s') => k a s'
    | (Throw e, s') => (Throw e, s')
    end.

(** [try { c } catch (e) { h e }] *)
Definition try_catch {St A} (c : M St A) (h : string -> M St A) : M St A :=
  fun s =>
    match c s with
    | (Ok a, s') => (Ok a, s')
    | (Throw e, s') => h e s'
    end.

Notation "'let*' x ':=' c 'in' k" := (bind c (fun x => k))
  (at level 10, x pattern, c at level 100, k at level 200).

(** ** The playlist client and match resolver ([lib/google.ts]) *)

(** *** Payloads of the remote APIs *)

(** An element of a search result's [artists] array: a bare string, or an
    object that may carry a [name]. *)
Inductive ArtistEntry : Type :=
| ArtistString (s : string)
| ArtistObject (name : option string).

(** The [artist] field of a search result. *)
Inductive ArtistField : Type :=
| FieldString (s : string)
| FieldObject (name : option string).

(** A catalog search result, with the fields the client reads.  [artists] is
    absent or an array. *)
Record SearchResult : Type := {
  sr_type : option string;
  sr_title : option string;
  sr_name : option string;
  sr_artists : option (list ArtistEntry);
  sr_artist : option ArtistField;
  sr_videoId : string;
  sr_duration : option string
}.

Record SongPick : Type := {
  title : string;
  artists : list string;
  videoId : string;
  duration : option string
}.

(** A playlist resource ([id], [snippet.title]). *)
Record Playlist : Type := {
  pl_id : option string;
  pl_title : option string
}.

(** A playlist item resource. *)
Record PlaylistItem : Type := {
  it_id : option string;
  it_title : option string;
  it_videoOwnerChannelTitle : option string;
  it_channelTitle : option string;
  it_videoId : option string
}.

(** *** The remote collaborators

    [S] is the state of the remote systems.  Reads are functions of the
    state; mutations return the new state.  The credential (the refresh token
    the client was built with) selects the account.  The paged playlist
    listing is given as the sequence of responses met by following the
    continuation tokens from the first page: a page carries a continuation
    token exactly when a further response follows it. *)
Class YouTubeApi (S : Type) : Type := {
  getAccessToken : string -> S -> result unit;
  ytmusic_initialize : option string -> S -> result unit;
  ytmusic_search : string -> S -> result (list SearchResult);
  playlists_list : string -> S -> list (result (list Playlist));
  playlists_insert : string -> string -> string -> string -> S ->
                     result (option string) * S;
  playlistItems_list : string -> string -> nat -> S ->
                       result (list PlaylistItem);
  playlistItems_insert : string -> string -> string -> S -> result unit * S;
  playlistItems_delete : string -> string -> S -> result unit * S
}.

(** The similarity metric imported from the string-similarity package. *)
Class StringSimilarity : Type := compareTwoStrings : string -> string -> Q.

(** Calls issued on the remote collaborators. *)
Inductive Call : Type :=
| CGetAccessToken (cred : string)
| CYtmInitialize (cookies : option string)
| CYtmSearch (query : string)
| CPlaylistsList (cred : string) (page : nat)
| CPlaylistsInsert (cred title description privacy : string)
| CItemsList (cred playlistId : string) (maxResults : nat)
| CItemsInsert (cred playlistId videoId : string)
| CItemsDelete (cred id : string).

(** The remote state together with the log of the calls made so far. *)
Record Net (S : Type) : Type := mkNet {
  remote : S;
  calls : list Call
}.
Arguments mkNet {S} remote calls.
Arguments remote {S} n.
Arguments calls {S} n.

Definition call_read {S A} (c : Call) (f : S -> result A) : M (Net S) A :=
  fun n => (f (remote n), mkNet (remote n) (calls n ++ [c])).

Definition call_write {S A} (c : Call) (f : S -> result A * S) : M (Net S) A :=
  fun n => let '(r, s') := f (remote n) in (r, mkNet s' (calls n ++ [c])).

(** *** The client *)

Record GoogleConfig : Type := {
  clientId : string;
  clientSecret : string;
  refreshToken : string;
  redirectUrl : option string;
  ytmCookies : option string;
  requestsPlaylistName : option string
}.

(** An instance of the class [Google]: the credential of its OAuth client,
    the cookies handed to the catalog client, the playlist display name. *)
Record Google : Type := {
  g_refreshToken : string;
  g_cookies : option string;
  g_requestsPlaylistName : string
}.

(** The constructor: [requestsPlaylistName] defaults to ["Requests"], cookies
    are kept only when truthy. *)
Definition new_Google (cfg : GoogleConfig) : Google :=
  {| g_refreshToken := refreshToken cfg;
     g_cookies := if JS.truthy_opt (ytmCookies cfg) then ytmCookies cfg else None;
     g_requestsPlaylistName :=
       match requestsPlaylistName cfg with
       | Some n => n
       | None => "Requests"
       end |}.

(** The answer of [nowPlaying]. *)
Record NowPlaying : Type := {
  np_title : string;
  np_channel : string;
  np_url : option string
}.

Section GoogleClient.
Context {S : Type} {api : YouTubeApi S} {sim : StringSimilarity}.

Definition ensureGoogleAccess (g : Google) : M (Net S) unit :=
  try_catch
    (call_read (CGetAccessToken (g_refreshToken g))
               (getAccessToken (g_refreshToken g)))
    (fun _ =>
       throw "Google authentication failed. Check your GOOGLE_REFRESH_TOKEN.").

(** [initialize]: warm up the catalog client, then probe the access token;
    an error is logged and rethrown. *)
Definition initialize (g : Google) : M (Net S) unit :=
  try_catch
    (let* _ :=
       call_read (CYtmInitialize (g_cookies g))
                 (ytmusic_initialize (g_cookies g)) in
     ensureGoogleAccess g)
    (fun e => throw e).

(** **** searchBestMatch *)

(** [(r.type || "").toLowerCase() === "song"] *)
Definition is_song (r : SearchResult) : bool :=
  String.eqb
    (JS.toLowerCase
       (if JS.truthy_opt (sr_type r) then default "" (sr_type r) else ""))
    "song".

(** [a.name || a], as [join] prints it. *)
Definition entry_text (a : ArtistEntry) : string :=
  match a with
  | ArtistString s => s
  | ArtistObject n =>
      if JS.truthy_opt n then default "" n else "[object Object]"
  end.

(** [(s.artists || []).map((a) => a.name || a).join(" ")] *)
Definition artistNames (s : SearchResult) : string :=
  JS.join " " (map entry_text (default [] (sr_artists s))).

(** [`${s.title ?? s.name ?? ""} ${artistNames}`.toLowerCase()] *)
Definition hay (s : SearchResult) : string :=
  JS.toLowerCase
    (match sr_title s with
     | Some t => t
     | None => default "" (sr_name s)
     end +:+ " " +:+ artistNames s).

Definition score (query : string) (s : SearchResult) : Q :=
  compareTwoStrings (JS.toLowerCase query) (hay s).

(** [Array.prototype.sort] with a comparator: a stable sort; [x] goes
    before [y] unless the comparator is positive on [(x, y)]. *)
Fixpoint insert_by {A} (cmp : A -> A -> Q) (x : A) (l : list A) : list A :=
  match l with
  | [] => [x]
  | y :: l' => if Qle_bool (cmp x y) 0 then x :: l else y :: insert_by cmp x l'
  end.

Definition sort_by {A} (cmp : A -> A -> Q) (l : list A) : list A :=
  foldr (insert_by cmp) [] l.

(** [songs.map(...).sort((a, b) => b.score - a.score)] *)
Definition ranked (query : string) (songs : list SearchResult)
  : list (SearchResult * Q) :=
  sort_by (fun a b => Qminus (snd b) (snd a))
          (map (fun s => (s, score query s)) songs).

(** [top.title || top.name || "Unknown Song"] *)
Definition pick_title (top : SearchResult) : string :=
  if JS.truthy_opt (sr_title top) then default "" (sr_title top)
  else if JS.truthy_opt (sr_name top) then default "" (sr_name top)
  else "Unknown Song".

(** The three shapes of artist data, before the fallback. *)
Definition extract_artists (top : SearchResult) : list string :=
  match sr_artists top with
  | Some entries =>
      List.filter JS.truthy
        (map (fun a =>
                match a with
                | ArtistString s => s
                | ArtistObject n =>
                    if JS.truthy_opt n then default "" n else "Unknown Artist"
                end) entries)
  | None =>
      match sr_artist top with
      | Some (FieldObject n) =>
          if JS.truthy_opt n then [default "" n] else []
      | Some (FieldString s) => if JS.truthy s then [s] else []
      | None => []
      end
  end.

Definition pick_artists (top : SearchResult) : list string :=
  match extract_artists top with
  | [] => ["Unknown Artist"]
  | l => l
  end.

Definition toSongPick (top : SearchResult) : SongPick :=
  {| title := pick_title top;
     artists := pick_artists top;
     videoId := sr_videoId top;
     duration := sr_duration top |}.

(** The body of [searchBestMatch] after the search returned.  Reading
    [ranked[0].s] on an empty array would be a [TypeError]. *)
Definition pickBest (query : string) (results : list SearchResult)
  : result (option SongPick) :=
  let songs := List.filter is_song results in
  match songs with
  | [] => Ok None
  | _ :: _ =>
      match ranked query songs with
      | (top, _) :: _ => Ok (Some (toSongPick top))
      | [] => Throw "TypeError: Cannot read properties of undefined"
      end
  end.

Definition searchBestMatch (g : Google) (query : string)
  : M (Net S) (option SongPick) :=
  try_catch
    (let* results := call_read (CYtmSearch query) (ytmusic_search query) in
     fun n => (pickBest query results, n))
    (fun e => throw e).

(** **** ensurePlaylist *)

(** [pl.snippet?.title?.trim().toLowerCase() === name.trim().toLowerCase()] *)
Definition title_matches (name : string) (pl : Playlist) : bool :=
  match pl_title pl with
  | Some t =>
      String.eqb (JS.toLowerCase (JS.trim t)) (JS.toLowerCase (JS.trim name))
  | None => false
  end.

(** The [for] loop over one page: at the first title match, [foundId]
    takes that playlist's id (possibly undefined) and the loop breaks. *)
Fixpoint scan_page (name : string) (items : list Playlist) : option string :=
  match items with
  | [] => None
  | pl :: rest => if title_matches name pl then pl_id pl else scan_page name rest
  end.

(** The [do ... while (!foundId && pageToken)] loop from page [i] on;
    [pages] are the responses still ahead. *)
Fixpoint scan_pages (cred name : string) (i : nat)
         (pages : list (result (list Playlist))) : M (Net S) (option string) :=
  match pages with
  | [] => ret None
  | p :: rest =>
      let* items := call_read (CPlaylistsList cred i) (fun _ => p) in
      let foundId := scan_page name items in
      if JS.truthy_opt foundId then ret foundId
      else scan_pages cred name (Datatypes.S i) rest
  end.

(** The first request is always made; a listing without pages answers it
    with no items and no token. *)
Definition first_pages (pages : list (result (list Playlist)))
  : list (result (list Playlist)) :=
  match pages with
  | [] => [Ok []]
  | _ :: _ => pages
  end.

(** The search of [ensurePlaylist]. *)
Definition find_playlist (g : Google) (name : string)
  : M (Net S) (option string) :=
  fun n =>
    scan_pages (g_refreshToken g) name 0
      (first_pages (playlists_list (g_refreshToken g) (remote n))) n.

Definition ensurePlaylist (g : Google) (name : string) : M (Net S) string :=
  try_catch
    (let* _ := ensureGoogleAccess g in
     let* foundId := find_playlist g name in
     match foundId with
     | Some id => ret id
     | None =>
         let description := "Auto-created by song request bot" in
         let* newId :=
           call_write
             (CPlaylistsInsert (g_refreshToken g) name description "unlisted")
             (playlists_insert (g_refreshToken g) name description "unlisted") in
         if JS.truthy_opt newId then ret (default "" newId)
         else throw "Failed to create playlist"
     end)
    (fun e => throw e).

(** **** addToPlaylist *)

Fixpoint includes_chars (sub l : list ascii) : bool :=
  JS.prefix_chars sub l
  || match l with
     | [] => false
     | _ :: l' => includes_chars sub l'
     end.

(** [String.prototype.includes] *)
Definition includes (s sub : string) : bool :=
  includes_chars (JS.chars sub) (JS.chars s).

Definition addToPlaylist (g : Google) (playlistId videoId : string)
  : M (Net S) unit :=
  try_catch
    (let* _ := ensureGoogleAccess g in
     call_write (CItemsInsert (g_refreshToken g) playlistId videoId)
                (playlistItems_insert (g_refreshToken g) playlistId videoId))
    (fun e =>
       if includes e "videoNotFound"
       then throw "Video not found or unavailable"
       else if includes e "playlistItemsNotAccessible"
       then throw "Cannot access playlist. Check permissions."
       else throw e).

(** **** skipFirst *)

Definition skipFirst (g : Google) (playlistId : string) : M (Net S) bool :=
  try_catch
    (let* _ := ensureGoogleAccess g in
     let* items :=
       call_read (CItemsList (g_refreshToken g) playlistId 1)
                 (playlistItems_list (g_refreshToken g) playlistId 1) in
     match items with
     | first :: _ =>
         if JS.truthy_opt (it_id first) then
           let id := default "" (it_id first) in
           let* _ :=
             call_write (CItemsDelete (g_refreshToken g) id)
                        (playlistItems_delete (g_refreshToken g) id) in
           ret true
         else ret false
     | [] => ret false
     end)
    (fun e => throw e).

(** **** nowPlaying *)

Definition nowPlaying (g : Google) (playlistId : string)
  : M (Net S) (option NowPlaying) :=
  try_catch
    (let* _ := ensureGoogleAccess g in
     let* items :=
       call_read (CItemsList (g_refreshToken g) playlistId 1)
                 (playlistItems_list (g_refreshToken g) playlistId 1) in
     match items with
     | it :: _ =>
         ret (Some
                {| np_title := default "Unknown" (it_title it);
                   np_channel :=
                     if JS.truthy_opt (it_videoOwnerChannelTitle it)
                     then default "" (it_videoOwnerChannelTitle it)
                     else if JS.truthy_opt (it_channelTitle it)
                     then default "" (it_channelTitle it)
                     else "Unknown";
                   np_url :=
                     if JS.truthy_opt (it_videoId it)
                     then Some ("https://youtu.be/" +:+ default "" (it_videoId it))
                     else None |})
     | [] => ret None
     end)
    (fun e => throw e).

End GoogleClient.

(** *** clearPlaylist

    The paged listing of a playlist's items, one request at a time: the
    answer to a request with a page token is a page of items and, when more
    follow, the token of the next page. *)
Class YouTubeItemPages (S : Type) : Type :=
  playlistItems_page :
    string -> string -> nat -> option string -> S ->
    result (list PlaylistItem * option string).

Section ClearPlaylist.
Context {S : Type} {api : YouTubeApi S} {paging : YouTubeItemPages S}.

(** [(page.data.items ?? []).map((i) => i.id!).filter(Boolean)] *)
Fixpoint kept_ids (items : list PlaylistItem) : list string :=
  match items with
  | [] => []
  | i :: rest =>
      if JS.truthy_opt (it_id i) then default "" (it_id i) :: kept_ids rest
      else kept_ids rest
  end.

(** [for (const id of ids) { await this.youtube.playlistItems.delete({ id }) }] *)
Fixpoint delete_each (cred : string) (ids : list string) : M (Net S) unit :=
  match ids with
  | [] => ret tt
  | id :: rest =>
      let* _ := call_write (CItemsDelete cred id) (playlistItems_delete cred id) in
      delete_each cred rest
  end.

(** The [do ... while (pageToken)] loop of [clearPlaylist].  The remote
    decides how many pages there are, so the loop is given [fuel] turns; it
    answers [Some tt] when it ended and [None] when the fuel ran out while a
    page token was still at hand. *)
Fixpoint clear_pages (fuel : nat) (cred playlistId : string)
         (pageToken : option string) : M (Net S) (option unit) :=
  match fuel with
  | O => ret None
  | Datatypes.S fuel' =>
      let* page :=
        call_read (CItemsList cred playlistId 50)
                  (playlistItems_page cred playlistId 50 pageToken) in
      let* _ := delete_each cred (kept_ids (fst page)) in
      if JS.truthy_opt (snd page) then clear_pages fuel' cred playlistId (snd page)
      else ret (Some tt)
  end.

Definition clearPlaylist (fuel : nat) (g : Google) (playlistId : string)
  : M (Net S) (option unit) :=
  try_catch
    (let* _ := ensureGoogleAccess g in
     clear_pages fuel (g_refreshToken g) playlistId None)
    (fun e => throw e).

End ClearPlaylist.

(** ** The bot *)

(** *** The tenant store

    A row of the [user] table, with the columns the bot reads. *)
Record User : Type := {
  u_id : string;
  twitchUserId : string;
  twitchUsername : string;
  twitchAccessToken : string;
  twitchRefreshToken : string;
  googleRefreshToken : option string;
  playlistName : string;
  youtubePlaylistId : option string;
  isActive : bool
}.

Definition set_youtubePlaylistId (pid : string) (u : User) : User :=
  {| u_id := u_id u;
     twitchUserId := twitchUserId u;
     twitchUsername := twitchUsername u;
     twitchAccessToken := twitchAccessToken u;
     twitchRefreshToken := twitchRefreshToken u;
     googleRefreshToken := googleRefreshToken u;
     playlistName := playlistName u;
     youtubePlaylistId := Some pid;
     isActive := isActive u |}.

(** Queries sent to the store. *)
Inductive DbCall : Type :=
| DbFindUnique (id : string)
| DbFindFirst (username : string)
| DbFindManyActive
| DbUpdatePlaylistId (id playlistId : string).

(** A chat message as the transport delivers it. *)
Record ChatMessage : Type := {
  channel : string;
  user : string;
  text : string;
  isMod : bool;
  isBroadcaster : bool
}.

(** The state the message handler works on: the remote music platform with
    its call log, the tenant store with its query log, the session cache
    ([googleInstances]) and the replies sent with [chatClient.say]. *)
Record World (S : Type) : Type := mkWorld {
  net : Net S;
  db : list User;
  dblog : list DbCall;
  googleInstances : gmap string Google;
  said : list (string * string)
}.
Arguments mkWorld {S} net db dblog googleInstances said.
Arguments net {S} w.
Arguments db {S} w.
Arguments dblog {S} w.
Arguments googleInstances {S} w.
Arguments said {S} w.

Section Bot.
Context {S : Type} {api : YouTubeApi S} {sim : StringSimilarity}.
(** [process.env.GOOGLE_APP_CLIENT_ID], [process.env.GOOGLE_APP_CLIENT_SECRET] *)
Variables GOOGLE_APP_CLIENT_ID GOOGLE_APP_CLIENT_SECRET : string.

(** A method of the client, run on the world's remote state. *)
Definition lift {A} (c : M (Net S) A) : M (World S) A :=
  fun w =>
    let '(r, n') := c (net w) in
    (r, mkWorld n' (db w) (dblog w) (googleInstances w) (said w)).

Definition log_db (q : DbCall) : M (World S) unit :=
  fun w =>
    (Ok tt, mkWorld (net w) (db w) (dblog w ++ [q]) (googleInstances w) (said w)).

(** [prisma.user.findUnique({ where: { id } })] *)
Definition findUnique (id : string) : M (World S) (option User) :=
  let* _ := log_db (DbFindUnique id) in
  fun w => (Ok (List.find (fun u => String.eqb (u_id u) id) (db w)), w).

(** [prisma.user.findFirst({ where: { twitchUsername } })] *)
Definition findFirst (username : string) : M (World S) (option User) :=
  let* _ := log_db (DbFindFirst username) in
  fun w =>
    (Ok (List.find (fun u => String.eqb (twitchUsername u) username) (db w)), w).

Fixpoint update_row (id pid : string) (rows : list User) : option (list User) :=
  match rows with
  | [] => None
  | u :: rest =>
      if String.eqb (u_id u) id then Some (set_youtubePlaylistId pid u :: rest)
      else option_map (cons u) (update_row id pid rest)
  end.

(** [prisma.user.update({ where: { id }, data: { youtubePlaylistId } })]:
    rejects when no row has the id. *)
Definition updatePlaylistId (id pid : string) : M (World S) unit :=
  let* _ := log_db (DbUpdatePlaylistId id pid) in
  fun w =>
    match update_row id pid (db w) with
    | Some rows =>
        (Ok tt, mkWorld (net w) rows (dblog w) (googleInstances w) (said w))
    | None => (Throw "Record to update not found.", w)
    end.

(** [chatClient.say(channel, text)] *)
Definition say (ch msg : string) : M (World S) unit :=
  fun w =>
    (Ok tt,
     mkWorld (net w) (db w) (dblog w) (googleInstances w) (said w ++ [(ch, msg)])).

(** [googleInstances.set(userId, google)] *)
Definition cache_set (userId : string) (g : Google) : M (World S) unit :=
  fun w =>
    (Ok tt,
     mkWorld (net w) (db w) (dblog w) (<[userId := g]> (googleInstances w))
             (said w)).

(** *** The tenant session manager *)

(** [new Google({ clientId, clientSecret, refreshToken, requestsPlaylistName })]
    for a tenant that has a refresh token. *)
Definition google_for (user : User) : Google :=
  new_Google
    {| clientId := GOOGLE_APP_CLIENT_ID;
       clientSecret := GOOGLE_APP_CLIENT_SECRET;
       refreshToken := default "" (googleRefreshToken user);
       redirectUrl := None;
       ytmCookies := None;
       requestsPlaylistName := Some (playlistName user) |}.

Definition getGoogleForUser (userId : string) : M (World S) (option Google) :=
  fun w =>
    match googleInstances w !! userId with
    | Some g => (Ok (Some g), w)
    | None =>
        (let* user := findUnique userId in
         match user with
         | None => ret None
         | Some user =>
             if negb (JS.truthy_opt (googleRefreshToken user)) then ret None
             else
               let google := google_for user in
               let* _ := lift (initialize google) in
               let* _ := cache_set userId google in
               ret (Some google)
         end) w
    end.

(** *** The command dispatcher *)

(** How a block of the handler ends: with [return], or by falling through
    to the next statement. *)
Inductive flow : Type := Return | Next.

Definition dquote : string := String (ascii_of_nat 34) EmptyString.

(** [dbUser.youtubePlaylistId || (await google.ensurePlaylist(...))], then
    the write-back when the tenant had no playlist id. *)
Definition resolve_playlist (dbUser : User) (google : Google)
  : M (World S) string :=
  let* playlistId :=
    if JS.truthy_opt (youtubePlaylistId dbUser)
    then ret (default "" (youtubePlaylistId dbUser))
    else lift (ensurePlaylist google (playlistName dbUser)) in
  let* _ :=
    if negb (JS.truthy_opt (youtubePlaylistId dbUser))
    then updatePlaylistId (u_id dbUser) playlistId
    else ret tt in
  ret playlistId.

Definition handle_sr (dbUser : User) (m : ChatMessage) : M (World S) flow :=
  if JS.startsWith (JS.toLowerCase (text m)) "!sr " then
    let query := JS.trim (JS.slice 4 (text m)) in
    if negb (JS.truthy query) then
      let* _ := say (channel m) "Please provide a song name or YouTube link!" in
      ret Return
    else
      try_catch
        (let* google := getGoogleForUser (u_id dbUser) in
         match google with
         | None =>
             let* _ :=
               say (channel m)
                 "YouTube Music is not connected. Please visit the dashboard to connect!" in
             ret Return
         | Some google =>
             let direct := extractYouTubeVideoId query in
             if JS.truthy_opt direct then
               let direct := default "" direct in
               let* playlistId := resolve_playlist dbUser google in
               let* _ := lift (addToPlaylist google playlistId direct) in
               let* _ :=
                 say (channel m)
                   ("✓ Added to queue: https://youtu.be/" +:+ direct) in
               ret Return
             else
               let* best := lift (searchBestMatch google query) in
               match best with
               | None =>
                   let* _ :=
                     say (channel m)
                       ("No results found for " +:+ dquote +:+ query +:+ dquote) in
                   ret Return
               | Some best =>
                   let* playlistId := resolve_playlist dbUser google in
                   let* _ :=
                     lift (addToPlaylist google playlistId (videoId best)) in
                   let* _ :=
                     say (channel m)
                       ("✓ Added: " +:+ title best +:+ " — "
                        +:+ JS.join ", " (artists best)) in
                   ret Next
               end
         end)
        (fun _ =>
           let* _ :=
             say (channel m) "Sorry, something went wrong with your request!" in
           ret Next)
  else ret Next.

Definition handle_np (dbUser : User) (m : ChatMessage) : M (World S) flow :=
  if String.eqb (JS.toLowerCase (text m)) "!np" then
    try_catch
      (let* google := getGoogleForUser (u_id dbUser) in
       match google with
       | Some google =>
           if JS.truthy_opt (youtubePlaylistId dbUser) then
             let* np :=
               lift (nowPlaying google (default "" (youtubePlaylistId dbUser))) in
             match np with
             | None =>
                 let* _ := say (channel m) "Nothing is playing right now!" in
                 ret Return
             | Some np =>
                 let* _ :=
                   say (channel m)
                     ("♪ Now Playing: " +:+ np_title np +:+ " by "
                      +:+ np_channel np) in
                 ret Next
             end
           else
             let* _ := say (channel m) "No playlist found!" in
             ret Return
       | None =>
           let* _ := say (channel m) "No playlist found!" in
           ret Return
       end)
      (fun _ =>
         let* _ := say (channel m) "Could not fetch currently playing song." in
         ret Next)
  else ret Next.

Definition handle_skip (dbUser : User) (m : ChatMessage) : M (World S) flow :=
  if String.eqb (JS.toLowerCase (text m)) "!skip" then
    if negb (isMod m) && negb (isBroadcaster m) then ret Return
    else
      try_catch
        (let* google := getGoogleForUser (u_id dbUser) in
         match google with
         | Some google =>
             if JS.truthy_opt (youtubePlaylistId dbUser) then
               let* skipped :=
                 lift (skipFirst google (default "" (youtubePlaylistId dbUser))) in
               if skipped : bool then
                 let* _ := say (channel m) "⏭ Skipped!" in
                 ret Next
               else
                 let* _ := say (channel m) "Queue is empty!" in
                 ret Next
             else
               let* _ := say (channel m) "No playlist found!" in
               ret Return
         | None =>
             let* _ := say (channel m) "No playlist found!" in
             ret Return
         end)
        (fun _ =>
           let* _ := say (channel m) "Could not skip song." in
           ret Next)
  else ret Next.

(** The [chatClient.onMessage] handler. *)
Definition onMessage (m : ChatMessage) : M (World S) unit :=
  let channelName := JS.replace_first "#" (channel m) in
  let* dbUser := findFirst channelName in
  match dbUser with
  | None => ret tt
  | Some dbUser =>
      let* f := handle_sr dbUser m in
      match f with
      | Return => ret tt
      | Next =>
          let* f := handle_np dbUser m in
          match f with
          | Return => ret tt
          | Next =>
              let* _ := handle_skip dbUser m in
              ret tt
          end
      end
  end.

End Bot.

(** *** The roster reconciler (the [setInterval] callback) *)

(** The chat side: the auth provider's [addUser] and the chat client's
    [join] and [part], each of which may throw. *)
Class ChatTransport (T : Type) : Type := {
  addUser : string -> string -> string -> T -> result unit * T;
  join : string -> T -> result unit * T;
  part : string -> T -> result unit * T
}.

Inductive RosterCall : Type :=
| RAddUser (twitchUserId : string)
| RJoin (channel : string)
| RPart (channel : string).

(** The state of a tick: the chat side, the [channels] array (the joined-set
    bookkeeping) and the log of the calls made on the chat side. *)
Record Roster (T : Type) : Type := mkRoster {
  transport : T;
  channels : list string;
  rcalls : list RosterCall
}.
Arguments mkRoster {T} transport channels rcalls.
Arguments transport {T} r.
Arguments channels {T} r.
Arguments rcalls {T} r.

Section Reconciler.
Context {T : Type} {chat_api : ChatTransport T}.

Definition chat_call {A} (c : RosterCall) (f : T -> result A * T)
  : M (Roster T) A :=
  fun st =>
    let '(r, t') := f (transport st) in
    (r, mkRoster t' (channels st) (rcalls st ++ [c])).

(** [channels.includes(name)] *)
Definition includes_channel (name : string) (chs : list string) : bool :=
  existsb (String.eqb name) chs.

(** [channels.push(name)] *)
Definition push (name : string) : M (Roster T) unit :=
  fun st =>
    (Ok tt, mkRoster (transport st) (channels st ++ [name]) (rcalls st)).

(** [channels.indexOf(name)] *)
Fixpoint indexOf (name : string) (chs : list string) : option nat :=
  match chs with
  | [] => None
  | c :: rest =>
      if String.eqb c name then Some 0
      else option_map Datatypes.S (indexOf name rest)
  end.

(** [channels.splice(index, 1)] *)
Definition splice1 (index : nat) (chs : list string) : list string :=
  firstn index chs ++ skipn (Datatypes.S index) chs.

(** [const index = channels.indexOf(channel);
     if (index > -1) channels.splice(index, 1)] *)
Definition drop_channel (name : string) : M (Roster T) unit :=
  fun st =>
    match indexOf name (channels st) with
    | Some index =>
        (Ok tt,
         mkRoster (transport st) (splice1 index (channels st)) (rcalls st))
    | None => (Ok tt, st)
    end.

(** The first loop: register and join the tenants not yet joined; a failure
    is caught and logged. *)
Fixpoint join_loop (currentUsers : list User) : M (Roster T) unit :=
  match currentUsers with
  | [] => ret tt
  | user :: rest =>
      let* _ :=
        fun st =>
          if negb (includes_channel (twitchUsername user) (channels st)) then
            try_catch
              (let* _ :=
                 chat_call (RAddUser (twitchUserId user))
                   (addUser (twitchUserId user) (twitchAccessToken user)
                            (twitchRefreshToken user)) in
               let* _ :=
                 chat_call (RJoin (twitchUsername user))
                           (join (twitchUsername user)) in
               push (twitchUsername user))
              (fun _ => ret tt) st
          else (Ok tt, st) in
      join_loop rest
  end.

(** [currentUsers.find((u) => u.twitchUsername === channel)] *)
Definition find_user (name : string) (currentUsers : list User) : option User :=
  List.find (fun u => String.eqb (twitchUsername u) name) currentUsers.

(** The second loop, [for (const channel of channels)]: the array iterator
    reads [channels[i]] from the live array and stops when [i] reaches its
    current length.  [fuel] bounds the number of iterations; the length of
    the array at the start of the loop is enough, since [i] grows at every
    iteration and the array never does. *)
Fixpoint part_loop (fuel : nat) (currentUsers : list User) (i : nat)
  : M (Roster T) unit :=
  fun st =>
    match fuel with
    | O => (Ok tt, st)
    | Datatypes.S fuel' =>
        match nth_error (channels st) i with
        | None => (Ok tt, st)
        | Some channel =>
            (let* _ :=
               match find_user channel currentUsers with
               | Some _ => ret tt
               | None =>
                   let* _ := chat_call (RPart channel) (part channel) in
                   drop_channel channel
               end in
             part_loop fuel' currentUsers (Datatypes.S i)) st
        end
    end.

(** One tick, given the store's rows: [findMany({ where: { isActive: true } })],
    then the two loops. *)
Definition tick (rows : list User) : M (Roster T) unit :=
  let currentUsers := List.filter isActive rows in
  let* _ := join_loop currentUsers in
  fun st => part_loop (length (channels st)) currentUsers 0 st.

End Reconciler.

(** A chat side for the examples: [addUser], [join] and [part] fail exactly on
    the listed user ids and channels, and keep no state. *)
Record Outages : Type := {
  addUser_fails : list string;
  join_fails : list string;
  part_fails : list string
}.

Definition outage (bad : list string) (x : string) : result unit * Outages -> result unit * Outages :=
  fun ok => if existsb (String.eqb x) bad then (Throw ("failed: " +:+ x), snd ok) else ok.

#[export] Instance flaky_transport : ChatTransport Outages := {
  addUser id _ _ o := outage (addUser_fails o) id (Ok tt, o);
  join ch o := outage (join_fails o) ch (Ok tt, o);
  part ch o := outage (part_fails o) ch (Ok tt, o)
}.

Definition no_outage : Outages :=
  {| addUser_fails := []; join_fails := []; part_fails := [] |}.

(** *** Startup ([main], up to the connection) and the query of a tick

    The store is asked for the active tenants; they are registered with the
    auth provider; the chat client is created with their channels and then
    connects.  The registration of the token-refresh callback, which lies in
    between, does nothing at startup and is left out.  Unlike the lookups of
    the message handler, the query for the active tenants is modelled with
    its outcome, since neither [main] nor the [setInterval] callback catches
    its rejection. *)
Class ChatConnect (T : Type) : Type :=
  connect : list string -> T -> result unit * T.

Section Startup.
Context {T : Type} {chat_api : ChatTransport T} {chat_connect : ChatConnect T}.

(** [for (const user of users) { try { await authProvider.addUser(...) }
    catch (error) { ... } }] *)
Fixpoint register_all (users : list User) : M (Roster T) unit :=
  match users with
  | [] => ret tt
  | user :: rest =>
      let* _ :=
        try_catch
          (chat_call (RAddUser (twitchUserId user))
             (addUser (twitchUserId user) (twitchAccessToken user)
                      (twitchRefreshToken user)))
          (fun _ => ret tt) in
      register_all rest
  end.

(** [const channels = users.map(u => u.twitchUsername)] *)
Definition set_channels (chs : list string) : M (Roster T) unit :=
  fun st => (Ok tt, mkRoster (transport st) chs (rcalls st)).

(** [await chatClient.connect()] on a client created with [channels]. *)
Definition connect_client : M (Roster T) unit :=
  fun st =>
    let '(r, t') := connect (channels st) (transport st) in
    (r, mkRoster t' (channels st) (rcalls st)).

(** The body of [main] once the store has answered the query for the
    active tenants, [rows] being the rows of the store, up to the connection
    of the chat client. *)
Definition startup (rows : list User) : M (Roster T) unit :=
  let users := List.filter isActive rows in
  let* _ := register_all users in
  let* _ := set_channels (map twitchUsername users) in
  connect_client.

(** [main], from the query for the active tenants to the connection of the
    chat client: [await prisma.user.findMany({ where: { isActive: true } })]
    resolves to the rows of the store or rejects, and a rejection is a
    rejection of [main].  [answer] is the outcome of that query. *)
Definition main (answer : result (list User)) : M (Roster T) unit :=
  match answer with
  | Ok rows => startup rows
  | Throw e => throw e
  end.

(** The callback of [setInterval] from its first statement on: the same
    query, whose rejection nothing in the callback catches, then the two
    loops of [tick]. *)
Definition reconcile (answer : result (list User)) : M (Roster T) unit :=
  match answer with
  | Ok rows => tick rows
  | Throw e => throw e
  end.

End Startup.

(** On the chat side of the examples the connection always succeeds. *)
#[export] Instance flaky_connect : ChatConnect Outages :=
  fun _ o => (Ok tt, o).

(** ** A remote for the examples

    A music platform with one account: paged playlists, the items of each
    playlist, a catalog that answers every search with the same results.  A
    new playlist gets a numbered id; it is listed first on the first page
    when [ac_newest_first] holds, and last on the last page otherwise. *)
Record Account : Type := {
  ac_access : bool;
  ac_warm : bool;
  ac_newest_first : bool;
  ac_playlists : list (list Playlist);
  ac_items : list (string * list PlaylistItem);
  ac_catalog : list SearchResult
}.

Definition ac_with_playlists (ps : list (list Playlist)) (s : Account) : Account :=
  {| ac_access := ac_access s; ac_warm := ac_warm s;
     ac_newest_first := ac_newest_first s; ac_playlists := ps;
     ac_items := ac_items s; ac_catalog := ac_catalog s |}.

Definition ac_with_items (its : list (string * list PlaylistItem)) (s : Account)
  : Account :=
  {| ac_access := ac_access s; ac_warm := ac_warm s;
     ac_newest_first := ac_newest_first s;
     ac_playlists := ac_playlists s; ac_items := its;
     ac_catalog := ac_catalog s |}.

Definition ac_items_of (pid : string) (s : Account) : list PlaylistItem :=
  match List.find (fun e => String.eqb (fst e) pid) (ac_items s) with
  | Some e => snd e
  | None => []
  end.

Definition ac_add_first (pl : Playlist) (ps : list (list Playlist))
  : list (list Playlist) :=
  match ps with
  | [] => [[pl]]
  | p :: rest => (pl :: p) :: rest
  end.

Fixpoint ac_add_last (pl : Playlist) (ps : list (list Playlist))
  : list (list Playlist) :=
  match ps with
  | [] => [[pl]]
  | [p] => [p ++ [pl]]
  | p :: rest => p :: ac_add_last pl rest
  end.

Definition ac_fresh_id (s : Account) : string :=
  "PL-" +:+ pretty (length (concat (ac_playlists s))).

Definition ac_create (t : string) (s : Account) : Account :=
  let pl := {| pl_id := Some (ac_fresh_id s); pl_title := Some t |} in
  ac_with_playlists
    (if ac_newest_first s then ac_add_first pl (ac_playlists s)
     else ac_add_last pl (ac_playlists s)) s.

Definition item_has_id (id : string) (it : PlaylistItem) : bool :=
  match it_id it with
  | Some i => String.eqb i id
  | None => false
  end.

#[export] Instance account_api : YouTubeApi Account := {
  getAccessToken _ s := if ac_access s then Ok tt else Throw "invalid_grant";
  ytmusic_initialize _ s := if ac_warm s then Ok tt else Throw "network error";
  ytmusic_search _ s := Ok (ac_catalog s);
  playlists_list _ s := map Ok (ac_playlists s);
  playlists_insert _ t _ _ s := (Ok (Some (ac_fresh_id s)), ac_create t s);
  playlistItems_list _ pid n s := Ok (firstn n (ac_items_of pid s));
  playlistItems_insert _ pid vid s :=
    (Ok tt,
     ac_with_items
       (map (fun e =>
               if String.eqb (fst e) pid
               then (fst e,
                     snd e ++ [{| it_id := Some ("item-" +:+ vid);
                                  it_title := None;
                                  it_videoOwnerChannelTitle := None;
                                  it_channelTitle := None;
                                  it_videoId := Some vid |}])
               else e) (ac_items s)) s);
  playlistItems_delete _ id s :=
    (Ok tt,
     ac_with_items
       (map (fun e => (fst e, List.filter (fun it => negb (item_has_id id it)) (snd e)))
            (ac_items s)) s)
}.

(** The account answers the paged listing of a playlist's items with the
    first items that are left, and a token as long as more remain. *)
#[export] Instance account_pages : YouTubeItemPages Account :=
  fun _ pid k _ s =>
    Ok (firstn k (ac_items_of pid s),
        if k <? length (ac_items_of pid s) then Some "more" else None).

(** ** A remote with outages

    The same platform when some of its calls fail: one page of the playlist
    listing, the insertion of tracks, the deletion of some items. *)
Record Faults : Type := {
  fa_account : Account;
  fa_list_down : option nat;
  fa_insert_error : option string;
  fa_delete_down : list string
}.

Definition fa_with_account (a : Account) (s : Faults) : Faults :=
  {| fa_account := a; fa_list_down := fa_list_down s;
     fa_insert_error := fa_insert_error s;
     fa_delete_down := fa_delete_down s |}.

Definition fa_on {A : Type} (f : Account -> A * Account) (s : Faults) : A * Faults :=
  let '(r, a) := f (fa_account s) in (r, fa_with_account a s).

#[export] Instance faulty_api : YouTubeApi Faults := {
  getAccessToken c s := getAccessToken c (fa_account s);
  ytmusic_initialize c s := ytmusic_initialize c (fa_account s);
  ytmusic_search q s := ytmusic_search q (fa_account s);
  playlists_list c s :=
    match fa_list_down s with
    | Some i => <[i := Throw "quotaExceeded"]> (playlists_list c (fa_account s))
    | None => playlists_list c (fa_account s)
    end;
  playlists_insert c t d p s := fa_on (playlists_insert c t d p) s;
  playlistItems_list c pid k s := playlistItems_list c pid k (fa_account s);
  playlistItems_insert c pid vid s :=
    match fa_insert_error s with
    | Some e => (Throw e, s)
    | None => fa_on (playlistItems_insert c pid vid) s
    end;
  playlistItems_delete c id s :=
    if existsb (String.eqb id) (fa_delete_down s)
    then (Throw ("failed: " +:+ id), s)
    else fa_on (playlistItems_delete c id) s
}.

#[export] Instance faulty_pages : YouTubeItemPages Faults :=
  fun c pid k tok s => playlistItems_page c pid k tok (fa_account s).

(** Modelled from the spec: the similarity metric of the string-similarity
    package, which is a dependency and not part of the repository: Dice's
    coefficient over character bigrams.  White space is dropped first,
    bigrams count with their multiplicity, equal strings score 1 and strings
    of fewer than two characters score 0. *)
Module Dice.

Fixpoint bigrams (l : list ascii) : list (ascii * ascii) :=
  match l with
  | a :: (b :: _) as rest => (a, b) :: bigrams rest
  | _ => []
  end.

Definition bigram_eqb (x y : ascii * ascii) : bool :=
  Ascii.eqb (fst x) (fst y) && Ascii.eqb (snd x) (snd y).

(** Takes one occurrence of [x] out of [l], if there is one. *)
Fixpoint take_one (x : ascii * ascii) (l : list (ascii * ascii))
  : option (list (ascii * ascii)) :=
  match l with
  | [] => None
  | y :: l' =>
      if bigram_eqb x y then Some l'
      else option_map (cons y) (take_one x l')
  end.

Fixpoint intersectionSize (first second : list (ascii * ascii)) : nat :=
  match second with
  | [] => 0
  | b :: rest =>
      match take_one b first with
      | Some first' => Datatypes.S (intersectionSize first' rest)
      | None => intersectionSize first rest
      end
  end.

Definition strip (s : string) : list ascii :=
  List.filter (fun c => negb (JS.is_space c)) (JS.chars s).

Definition compare (first second : string) : Q :=
  let a := strip first in
  let b := strip second in
  if String.eqb (JS.str a) (JS.str b) then 1%Q
  else if (length a <? 2) || (length b <? 2) then 0%Q
  else Qmake (Z.of_nat (2 * intersectionSize (bigrams a) (bigrams b)))
             (Pos.of_nat (length a + length b - 2)).

End Dice.

Definition dice : StringSimilarity := Dice.compare.

(** * Specification *)

(** ** URL shapes *)

(** *** What a pattern denotes

    [lang r m rest cap cap']: the pattern [r] can match the text [m] when
    [rest] follows it, taking the capture from [cap] to [cap']. *)
Fixpoint lang (r : regex) (m rest : list ascii) (cap cap' : capture) : Prop :=
  match r with
  | REps => m = [] /\ cap' = cap
  | RChar c => exists x, m = [x] /\ canon c = canon x /\ cap' = cap
  | RSet p => exists x, m = [x] /\ p x = true /\ cap' = cap
  | RStarSet p => forallb p m = true /\ cap' = cap
  | RSeq r1 r2 =>
      exists m1 m2 capm,
        m = m1 ++ m2 /\ lang r1 m1 (m2 ++ rest) cap capm /\ lang r2 m2 rest capm cap'
  | RAlt r1 r2 => lang r1 m rest cap cap' \/ lang r2 m rest cap cap'
  | ROpt r1 => lang r1 m rest cap cap' \/ (m = [] /\ cap' = cap)
  | RRep n r1 =>
      (fix rep (n : nat) (m : list ascii) (cap : capture) : Prop :=
         match n with
         | O => m = [] /\ cap' = cap
         | Datatypes.S n' =>
             exists m1 m2 capm,
               m = m1 ++ m2 /\ lang r1 m1 (m2 ++ rest) cap capm /\ rep n' m2 capm
         end) n m cap
  | RGroup r1 => exists c0, lang r1 m rest cap c0 /\ cap' = Some m
  | REnd => m = [] /\ rest = [] /\ cap' = cap
  end.

(** *** The accepted URL shapes *)

(** Equality up to the case of letters. *)
Definition ci_eq (a b : list ascii) : Prop := map canon a = map canon b.

(** An 11-character video token. *)
Definition video_token (id : list ascii) : Prop :=
  length id = 11 /\ forallb token_char id = true.

(** The query [q] of a watch URL carries the token [id] as its [v]
    parameter: [v=] comes first, or after an [&] that ends a stretch without
    line terminators. *)
Definition has_v_param (q id : list ascii) : Prop :=
  exists mid v post,
    q = mid ++ v ++ id ++ post /\ ci_eq v (JS.chars "v=") /\ video_token id /\
    (mid = [] \/ exists m, mid = m ++ JS.chars "&" /\ forallb dot m = true).

(** The text contains a watch URL on [host] (the host and path up to the
    question mark). *)
Definition contains_watch_url (host : string) (t : list ascii) : Prop :=
  exists pre h q id,
    t = pre ++ h ++ q /\ ci_eq h (JS.chars host) /\ has_v_param q id.

(** The text contains a short link, whatever follows the token. *)
Definition contains_short_link (t : list ascii) : Prop :=
  exists pre h id post,
    t = pre ++ h ++ id ++ post /\ ci_eq h (JS.chars "youtu.be/") /\ video_token id.

(** The text contains a short link whose token ends the text or is followed
    by a question mark. *)
Definition contains_closed_short_link (t : list ascii) : Prop :=
  exists pre h id post,
    t = pre ++ h ++ id ++ post /\ ci_eq h (JS.chars "youtu.be/") /\ video_token id /\
    (post = [] \/ exists post', post = JS.chars "?" ++ post').

(** Each pattern captures a video token whenever it matches. *)
Definition captures_token (re : regex) : Prop :=
  forall t cap, exec re t = Some cap -> exists id, cap = Some id /\ video_token id.

(** *** Artist data *)






(** *** The playlist listing *)

(** The outcome of the paging loop of [ensurePlaylist] on a sequence of
    responses, and the number of pages it requests. *)
Fixpoint scan_outcome (name : string) (pages : list (result (list Playlist)))
  : result (option string) * nat :=
  match pages with
  | [] => (Ok None, 0)
  | Throw e :: _ => (Throw e, 1)
  | Ok items :: rest =>
      if JS.truthy_opt (scan_page name items) then (Ok (scan_page name items), 1)
      else let '(r, k) := scan_outcome name rest in (r, Datatypes.S k)
  end.

(** The description [ensurePlaylist] gives a playlist it creates. *)
Definition description : string := "Auto-created by song request bot".

Definition created (id title : string) : Playlist :=
  {| pl_id := Some id; pl_title := Some title |}.

Section RemoteLaws.
Context {S : Type} {api : YouTubeApi S}.

(** The playlists the account lists in state [s], over all pages. *)
Definition listed (cred : string) (s : S) (pl : Playlist) : Prop :=
  exists p, In (Ok p) (playlists_list cred s) /\ In pl p.

(** Every listed playlist whose title matches [name] carries an id. *)
Definition matches_have_ids (cred name : string) (s : S) : Prop :=
  forall pl, listed cred s pl -> title_matches name pl = true ->
             JS.truthy_opt (pl_id pl) = true.

(** What the remote does with a created playlist: the listing that follows
    answers every page, holds the new playlist under the id and the title of
    the creation, and holds nothing else that was not listed before; the
    access token stays as good as it was. *)
Definition read_your_writes : Prop :=
  forall cred t d p s id s1,
    playlists_insert cred t d p s = (Ok (Some id), s1) ->
    getAccessToken cred s1 = getAccessToken cred s /\
    exists ps1,
      playlists_list cred s1 = map Ok ps1 /\
      In (created id t) (concat ps1) /\
      forall pl, In pl (concat ps1) -> pl = created id t \/ listed cred s pl.

End RemoteLaws.

(** *** Data for the examples *)

Definition requests_bot : Google :=
  {| g_refreshToken := "rt-1"; g_cookies := None;
     g_requestsPlaylistName := "Requests" |}.

Definition item (id : option string) (t : string) : PlaylistItem :=
  {| it_id := id; it_title := Some t; it_videoOwnerChannelTitle := Some "Artist";
     it_channelTitle := None; it_videoId := Some "dQw4w9WgXcQ" |}.

Definition hello_adele : SearchResult :=
  {| sr_type := Some "song"; sr_title := Some "Hello"; sr_name := None;
     sr_artists := Some [ArtistObject (Some "Adele")]; sr_artist := None;
     sr_videoId := "YQHsXMglC9A"; sr_duration := None |}.

Definition hello_video : SearchResult :=
  {| sr_type := Some "video"; sr_title := Some "Hello (unrelated)";
     sr_name := None; sr_artists := None; sr_artist := None;
     sr_videoId := "xxxxxxxxxxx"; sr_duration := None |}.

(** An account with one playlist ("Chill"), a queue of two items, a queue
    whose first item has no id, an empty queue, and a catalog of two
    results. *)
Definition studio : Account :=
  {| ac_access := true; ac_warm := true; ac_newest_first := false;
     ac_playlists := [[{| pl_id := Some "PL-chill"; pl_title := Some "Chill" |}]];
     ac_items := [("PL-queue", [item (Some "it-1") "One"; item (Some "it-2") "Two"]);
                  ("PL-odd", [item None "Ghost"; item (Some "it-3") "Three"]);
                  ("PL-empty", [])];
     ac_catalog := [hello_adele; hello_video] |}.

(** The same account when its listing holds a playlist titled "Requests"
    without an id. *)
Definition studio_stale : Account :=
  ac_with_playlists
    [[{| pl_id := None; pl_title := Some "Requests" |}]] studio.



(** *** Worlds *)

Section Worlds.
Context {S : Type}.

(** The world after one more query to the store. *)
Definition asked_store (q : DbCall) (w : World S) : World S :=
  mkWorld (net w) (db w) (dblog w ++ [q]) (googleInstances w) (said w).

(** The world after a method of the client ran and left [n']. *)
Definition with_net (n' : Net S) (w : World S) : World S :=
  mkWorld n' (db w) (dblog w) (googleInstances w) (said w).

(** The world after a session was cached. *)
Definition with_session (userId : string) (g : Google) (w : World S) : World S :=
  mkWorld (net w) (db w) (dblog w) (<[userId := g]> (googleInstances w)) (said w).

(** The row [findUnique] loads. *)
Definition tenant (userId : string) (w : World S) : option User :=
  List.find (fun u => String.eqb (u_id u) userId) (db w).


End Worlds.

Definition streamer : User :=
  {| u_id := "u1"; twitchUserId := "tw-1"; twitchUsername := "streamer";
     twitchAccessToken := "at"; twitchRefreshToken := "trt";
     googleRefreshToken := Some "rt-1"; playlistName := "Requests";
     youtubePlaylistId := Some "PL-queue"; isActive := true |}.

Definition lurker : User :=
  {| u_id := "u2"; twitchUserId := "tw-2"; twitchUsername := "lurker";
     twitchAccessToken := "at"; twitchRefreshToken := "trt";
     googleRefreshToken := None; playlistName := "Requests";
     youtubePlaylistId := None; isActive := true |}.

(** The catalog client of this account cannot be warmed up. *)
Definition studio_cold : Account :=
  {| ac_access := true; ac_warm := false; ac_newest_first := false;
     ac_playlists := ac_playlists studio; ac_items := ac_items studio;
     ac_catalog := ac_catalog studio |}.

Definition world_of (s : Account) : World Account :=
  mkWorld (mkNet s []) [streamer; lurker] [] ∅ [].

(** *** Replies *)

(** The reply to a request without argument. *)
Definition prompt : string := "Please provide a song name or YouTube link!".

(** The tenant of the channel a message came from. *)
Definition channel_tenant {S : Type} (m : ChatMessage) (w : World S) : option User :=
  List.find
    (fun u => String.eqb (twitchUsername u) (JS.replace_first "#" (channel m)))
    (db w).

(** A computation that never sends the prompt: whatever it replies is
    appended to the replies sent so far, and the prompt is not among it. *)
Definition quiet {S A : Type} (c : M (World S) A) : Prop :=
  forall w r w', c w = (r, w') ->
    exists l, said w' = said w ++ l /\ ~ In prompt (map snd l).

Definition chat (ch txt : string) (mod_ broadcaster : bool) : ChatMessage :=
  {| channel := ch; user := "viewer"; text := txt;
     isMod := mod_; isBroadcaster := broadcaster |}.

(** *** Rosters *)

(** An active tenant whose channel is [name]. *)
Definition row (name : string) : User :=
  {| u_id := "id-" +:+ name; twitchUserId := "tw-" +:+ name;
     twitchUsername := name; twitchAccessToken := "at"; twitchRefreshToken := "rt";
     googleRefreshToken := None; playlistName := "Requests";
     youtubePlaylistId := None; isActive := true |}.

(** A chat side on which parting channel "c" fails. *)
Definition part_c_down : Outages :=
  {| addUser_fails := []; join_fails := []; part_fails := ["c"] |}.

(** A chat side on which joining channel "b" fails. *)
Definition join_b_down : Outages :=
  {| addUser_fails := []; join_fails := ["b"]; part_fails := [] |}.

(** *** Failures of the playlist client *)

(** What every method of the client throws when no access token can be
    obtained. *)
Definition auth_failed : string :=
  "Google authentication failed. Check your GOOGLE_REFRESH_TOKEN.".

(** The message [addToPlaylist] throws for an error with message [e]. *)
Definition add_error (e : string) : string :=
  if includes e "videoNotFound" then "Video not found or unavailable"
  else if includes e "playlistItemsNotAccessible"
       then "Cannot access playlist. Check permissions."
       else e.

(** No playlist of the page yields an id for [name]: no title matches, or the
    first that matches has no id. *)
Definition page_without (name : string) (p : list Playlist) : Prop :=
  JS.truthy_opt (scan_page name p) = false.

(** White space only. *)
Definition blank (l : list ascii) : Prop := forallb JS.is_space l = true.

(** *** Data for the failure examples *)

(** The account when its credential was revoked. *)
Definition studio_locked : Account :=
  {| ac_access := false; ac_warm := true; ac_newest_first := false;
     ac_playlists := ac_playlists studio; ac_items := ac_items studio;
     ac_catalog := ac_catalog studio |}.

Definition no_fault (a : Account) : Faults :=
  {| fa_account := a; fa_list_down := None; fa_insert_error := None;
     fa_delete_down := [] |}.

(** The listing of playlists fails on its first page. *)
Definition studio_list_down : Faults :=
  {| fa_account := studio; fa_list_down := Some 0; fa_insert_error := None;
     fa_delete_down := [] |}.

(** Tracks cannot be inserted: the video does not exist. *)
Definition studio_video_gone : Faults :=
  {| fa_account := studio; fa_list_down := None;
     fa_insert_error := Some "The video cannot be found. (videoNotFound)";
     fa_delete_down := [] |}.

(** The second item of the queue cannot be deleted. *)
Definition studio_delete_down : Faults :=
  {| fa_account := studio; fa_list_down := None; fa_insert_error := None;
     fa_delete_down := ["it-2"] |}.

(** *** Deleting the items of a page *)

Section Deletes.
Context {S : Type} {api : YouTubeApi S}.

(** Every deletion of the run succeeds, each at the state the one before
    left. *)
Fixpoint deletes_succeed (cred : string) (ids : list string) (s : S) : Prop :=
  match ids with
  | [] => True
  | id :: rest =>
      fst (playlistItems_delete cred id s) = Ok tt /\
      deletes_succeed cred rest (snd (playlistItems_delete cred id s))
  end.

(** The remote state after the deletions. *)
Fixpoint after_deletes (cred : string) (ids : list string) (s : S) : S :=
  match ids with
  | [] => s
  | id :: rest => after_deletes cred rest (snd (playlistItems_delete cred id s))
  end.

End Deletes.

(** *** What a computation leaves as it is *)

(** Every run of [c] takes a state to one related to it by [R]. *)
Definition keeps {St A : Type} (R : St -> St -> Prop) (c : M St A) : Prop :=
  forall s r s', c s = (r, s') -> R s s'.

(** Calls that only read from the music platform. *)
Definition is_read (c : Call) : bool :=
  match c with
  | CPlaylistsInsert _ _ _ _ | CItemsInsert _ _ _ | CItemsDelete _ _ => false
  | _ => true
  end.

(** Queries that only read from the tenant store. *)
Definition is_find (q : DbCall) : bool :=
  match q with
  | DbUpdatePlaylistId _ _ => false
  | _ => true
  end.

Definition is_search (c : Call) : bool :=
  match c with CYtmSearch _ => true | _ => false end.

(** The calls that list or create playlists. *)
Definition is_playlists_call (c : Call) : bool :=
  match c with
  | CPlaylistsList _ _ | CPlaylistsInsert _ _ _ _ => true
  | _ => false
  end.

Definition any_call (c : Call) : bool := true.
Definition any_query (q : DbCall) : bool := true.
Definition not_search (c : Call) : bool := negb (is_search c).
Definition not_playlists_call (c : Call) : bool := negb (is_playlists_call c).

Section Frames.
Context {S : Type}.

(** From [n] to [n'] only calls allowed by [P] were made; when all of them
    were reads, the remote state is the same. *)
Definition net_within (P : Call -> bool) (n n' : Net S) : Prop :=
  exists l,
    calls n' = calls n ++ l /\ forallb P l = true /\
    (forallb is_read l = true -> remote n' = remote n).

(** From [w] to [w']: only calls allowed by [P] on the platform and queries
    allowed by [Q] on the store, the store's rows unchanged when all queries
    were reads; every cached session still cached; replies, if any, sent to
    the channel [ch]. *)
Definition within (P : Call -> bool) (Q : DbCall -> bool) (ch : string)
           (w w' : World S) : Prop :=
  net_within P (net w) (net w') /\
  (exists q, dblog w' = dblog w ++ q /\ forallb Q q = true /\
             (forallb is_find q = true -> db w' = db w)) /\
  googleInstances w ⊆ googleInstances w' /\
  (exists l, said w' = said w ++ l /\ Forall (fun x => fst x = ch) l).

(** Nothing changed from [w] to [w'] in the replies. *)
Definition same_said (w w' : World S) : Prop := said w' = said w.

(** A computation that sends no reply. *)
Definition silent {A : Type} (c : M (World S) A) : Prop := keeps same_said c.

(** A computation that sends exactly one reply, to the channel [ch], when it
    returns, and none when it throws. *)
Definition answers {A : Type} (ch : string) (c : M (World S) A) : Prop :=
  forall w r w', c w = (r, w') ->
    match r with
    | Ok _ => exists txt, said w' = said w ++ [(ch, txt)]
    | Throw _ => said w' = said w
    end.

(** A computation that returns, having sent exactly one reply to [ch]. *)
Definition replies {A : Type} (ch : string) (c : M (World S) A) : Prop :=
  forall w r w', c w = (r, w') ->
    exists a txt, r = Ok a /\ said w' = said w ++ [(ch, txt)].

End Frames.

(** *** Commands *)

Section Commands.
Context {S : Type} {api : YouTubeApi S} {sim : StringSimilarity}.
Variables cid csecret : string.

(** The handler once the channel's tenant is loaded. *)
Definition dispatch (dbUser : User) (m : ChatMessage) : M (World S) unit :=
  let* f := handle_sr cid csecret dbUser m in
  match f with
  | Return => ret tt
  | Next =>
      let* f0 := handle_np cid csecret dbUser m in
      match f0 with
      | Return => ret tt
      | Next => let* _ := handle_skip cid csecret dbUser m in ret tt
      end
  end.

End Commands.

(** The text is a song request: the request word and a space, in any case. *)
Definition is_request (m : ChatMessage) : bool :=
  JS.startsWith (JS.toLowerCase (text m)) "!sr ".

Definition is_np (m : ChatMessage) : bool :=
  String.eqb (JS.toLowerCase (text m)) "!np".

Definition is_skip (m : ChatMessage) : bool :=
  String.eqb (JS.toLowerCase (text m)) "!skip".

(** The message is a command the handler acts on: a request, [!np], or
    [!skip] from a moderator or the broadcaster. *)
Definition is_command (m : ChatMessage) : bool :=
  is_request m || is_np m || (is_skip m && (isMod m || isBroadcaster m)).



(** *** More rosters *)

(** A chat side on which the registration of user "tw-b" fails. *)
Definition addUser_b_down : Outages :=
  {| addUser_fails := ["tw-b"]; join_fails := []; part_fails := [] |}.

(** The channel has an active tenant among [rows]. *)
Definition active_channel (rows : list User) (ch : string) : Prop :=
  find_user ch (List.filter isActive rows) <> None.

(** *** Candidates that name their artist in the [artist] field *)

(** A song titled "Hello" whose artist comes in the [artist] field. *)
Definition hello_by_field (a : ArtistField) (vid : string) : SearchResult :=
  {| sr_type := Some "song"; sr_title := Some "Hello"; sr_name := None;
     sr_artists := None; sr_artist := Some a;
     sr_videoId := vid; sr_duration := None |}.

(** The same song with the artist in the [artists] array. *)
Definition hello_by_array (name vid : string) : SearchResult :=
  {| sr_type := Some "song"; sr_title := Some "Hello"; sr_name := None;
     sr_artists := Some [ArtistObject (Some name)]; sr_artist := None;
     sr_videoId := vid; sr_duration := None |}.

Definition ac_with_catalog (c : list SearchResult) (s : Account) : Account :=
  {| ac_access := ac_access s; ac_warm := ac_warm s;
     ac_newest_first := ac_newest_first s; ac_playlists := ac_playlists s;
     ac_items := ac_items s; ac_catalog := c |}.

(** A catalog that answers with two songs titled "Hello", by Lionel Richie
    and by Adele in this order, each naming its artist in the [artist]
    field: as a string and as an object. *)
Definition jukebox : Account :=
  ac_with_catalog
    [hello_by_field (FieldString "Lionel Richie") "vid-lionel";
     hello_by_field (FieldObject (Some "Adele")) "vid-adele"] studio.

(** The same catalog when both songs name their artist in the [artists]
    array. *)
Definition jukebox_arrays : Account :=
  ac_with_catalog
    [hello_by_array "Lionel Richie" "vid-lionel";
     hello_by_array "Adele" "vid-adele"] studio.

(** *** A tenant without playlist id *)

(** A tenant with a linked music account whose row holds no playlist id. *)
Definition newcomer : User :=
  {| u_id := "u3"; twitchUserId := "tw-3"; twitchUsername := "newcomer";
     twitchAccessToken := "at"; twitchRefreshToken := "trt";
     googleRefreshToken := Some "rt-1"; playlistName := "Requests";
     youtubePlaylistId := None; isActive := true |}.

(** A world in which the session of that tenant is cached. *)
Definition world_of_newcomer (s : Account) : World Account :=
  mkWorld (mkNet s []) [streamer; newcomer] [] {["u3" := requests_bot]} [].

(** * Proofs *)

(** ** The matcher against what a pattern denotes *)

Section MatcherFacts.
Context {X : Type}.

Lemma star_sound (p : ascii -> bool) (s : list ascii)
      (k : list ascii -> option X) (x : X) :
  star p s k = Some x ->
  exists m rest, s = m ++ rest /\ forallb p m = true /\ k rest = Some x.
Proof.
  induction s as [|c s IH]; simpl; intros E.
  - exists [], []. auto.
  - destruct (p c) eqn:Pc.
    + destruct (star p s k) as [y|] eqn:Es.
      * inversion E; subst y.
        destruct (IH eq_refl) as (m & rest & -> & Pm & Ek).
        exists (c :: m), rest. simpl. rewrite Pc, Pm. auto.
      * exists [], (c :: s). auto.
    + exists [], (c :: s). auto.
Qed.

Lemma star_complete (p : ascii -> bool) (m rest : list ascii)
      (k : list ascii -> option X) :
  forallb p m = true -> is_Some (k rest) -> is_Some (star p (m ++ rest) k).
Proof.
  induction m as [|c m IH]; simpl; intros Pm Hk.
  - destruct rest as [|c s]; simpl; [assumption|].
    destruct (p c); [|assumption].
    destruct (star p s k); [eauto | assumption].
  - apply andb_true_iff in Pm as [Pc Pm]. rewrite Pc.
    destruct (IH Pm Hk) as [y ->]. eauto.
Qed.

Lemma firstn_consumed (m rest : list ascii) :
  firstn (length (m ++ rest) - length rest) (m ++ rest) = m.
Proof.
  rewrite length_app, Nat.add_sub.
  rewrite firstn_app, Nat.sub_diag, firstn_all. simpl. apply app_nil_r.
Qed.

Lemma rmatch_sound (r : regex) :
  forall (s : list ascii) (cap : capture)
         (k : list ascii -> capture -> option X) (x : X),
    rmatch r s cap k = Some x ->
    exists m rest cap',
      s = m ++ rest /\ lang r m rest cap cap' /\ k rest cap' = Some x.
Proof.
  induction r as [|c|p|p|r1 IH1 r2 IH2|r1 IH1 r2 IH2|r1 IH1|n r1 IH1|r1 IH1|];
    intros s cap k x E; simpl in E.
  - exists [], s, cap. simpl. auto.
  - destruct s as [|y s]; [discriminate|].
    destruct (Ascii.eqb (canon c) (canon y)) eqn:Ec; [|discriminate].
    apply Ascii.eqb_eq in Ec. exists [y], s, cap. simpl. eauto 6.
  - destruct s as [|y s]; [discriminate|].
    destruct (p y) eqn:Py; [|discriminate].
    exists [y], s, cap. simpl. eauto 6.
  - apply star_sound in E as (m & rest & -> & Pm & Ek).
    exists m, rest, cap. simpl. auto.
  - apply IH1 in E as (m1 & rest1 & cap1 & -> & L1 & E).
    apply IH2 in E as (m2 & rest & cap2 & -> & L2 & E).
    exists (m1 ++ m2), rest, cap2. rewrite <- app_assoc.
    split; [reflexivity|]. split; [|assumption].
    simpl. exists m1, m2, cap1. auto.
  - destruct (rmatch r1 s cap k) as [y|] eqn:E1.
    + inversion E; subst y.
      apply IH1 in E1 as (m & rest & cap' & -> & L & Ek).
      exists m, rest, cap'. simpl. auto.
    + apply IH2 in E as (m & rest & cap' & -> & L & Ek).
      exists m, rest, cap'. simpl. auto.
  - destruct (rmatch r1 s cap k) as [y|] eqn:E1.
    + inversion E; subst y.
      apply IH1 in E1 as (m & rest & cap' & -> & L & Ek).
      exists m, rest, cap'. simpl. auto.
    + exists [], s, cap. simpl. auto.
  - revert s cap k E. induction n as [|n IHn]; intros s cap k E.
    + exists [], s, cap. simpl. auto.
    + apply IH1 in E as (m1 & rest1 & cap1 & -> & L1 & E).
      apply IHn in E as (m2 & rest & cap2 & -> & L2 & E).
      exists (m1 ++ m2), rest, cap2. rewrite <- app_assoc.
      split; [reflexivity|]. split; [|assumption].
      simpl. exists m1, m2, cap1. auto.
  - apply IH1 in E as (m & rest & c0 & -> & L & Ek).
    rewrite firstn_consumed in Ek.
    exists m, rest, (Some m). simpl. eauto.
  - destruct s; [|discriminate]. exists [], [], cap. simpl. auto.
Qed.

Lemma rmatch_complete (r : regex) :
  forall (m rest : list ascii) (cap cap' : capture)
         (k : list ascii -> capture -> option X),
    lang r m rest cap cap' -> is_Some (k rest cap') ->
    is_Some (rmatch r (m ++ rest) cap k).
Proof.
  induction r as [|c|p|p|r1 IH1 r2 IH2|r1 IH1 r2 IH2|r1 IH1|n r1 IH1|r1 IH1|];
    intros m rest cap cap' k L Hk; simpl in L.
  - destruct L as [-> ->]. assumption.
  - destruct L as (y & -> & Ec & ->). simpl. rewrite Ec, Ascii.eqb_refl.
    assumption.
  - destruct L as (y & -> & Py & ->). simpl. rewrite Py. assumption.
  - destruct L as [Pm ->]. simpl. now apply star_complete.
  - destruct L as (m1 & m2 & capm & -> & L1 & L2). simpl.
    rewrite <- app_assoc. eapply IH1; [eassumption|]. eapply IH2; eassumption.
  - simpl. destruct L as [L|L].
    + destruct (IH1 _ _ _ _ k L Hk) as [y ->]. eauto.
    + destruct (rmatch r1 (m ++ rest) cap k); [eauto|]. eapply IH2; eassumption.
  - simpl. destruct L as [L|[-> ->]].
    + destruct (IH1 _ _ _ _ k L Hk) as [y ->]. eauto.
    + simpl. destruct (rmatch r1 rest cap k); [eauto | assumption].
  - simpl. revert m cap k L Hk. induction n as [|n IHn]; intros m cap k L Hk.
    + destruct L as [-> ->]. assumption.
    + destruct L as (m1 & m2 & capm & -> & L1 & L2).
      rewrite <- app_assoc. eapply IH1; [eassumption|]. now apply IHn.
  - destruct L as (c0 & L & ->). simpl.
    eapply IH1; [eassumption|]. now rewrite firstn_consumed.
  - destruct L as (-> & -> & ->). assumption.
Qed.

End MatcherFacts.

Lemma exec_sound (r : regex) (t : list ascii) (cap : capture) :
  exec r t = Some cap ->
  exists pre m rest, t = pre ++ m ++ rest /\ lang r m rest None cap.
Proof.
  induction t as [|c t IH]; simpl; intros E.
  - destruct (rmatch r [] None (fun _ cap0 => Some cap0)) as [y|] eqn:Em;
      [|discriminate].
    inversion E; subst y.
    apply rmatch_sound in Em as (m & rest & cap' & Es & L & Ek).
    inversion Ek; subst cap'. exists [], m, rest. auto.
  - destruct (rmatch r (c :: t) None (fun _ cap0 => Some cap0)) as [y|] eqn:Em.
    + inversion E; subst y.
      apply rmatch_sound in Em as (m & rest & cap' & Es & L & Ek).
      inversion Ek; subst cap'. exists [], m, rest. auto.
    + destruct (IH E) as (pre & m & rest & -> & L).
      exists (c :: pre), m, rest. auto.
Qed.

Lemma exec_complete (r : regex) (pre m rest : list ascii) (cap : capture) :
  lang r m rest None cap -> is_Some (exec r (pre ++ m ++ rest)).
Proof.
  intros L.
  assert (Hm : is_Some (rmatch r (m ++ rest) None (fun _ cap0 => Some cap0))).
  { eapply rmatch_complete; [exact L | eauto]. }
  induction pre as [|c pre IH]; simpl.
  - destruct (m ++ rest) as [|c t]; simpl in *.
    + destruct Hm as [y ->]. eauto.
    + destruct Hm as [y ->]. eauto.
  - destruct (rmatch r (c :: pre ++ m ++ rest) None _); [eauto | exact IH].
Qed.

(** ** What the three URL patterns accept *)

Lemma lang_lit (l m rest : list ascii) (cap cap' : capture) :
  lang (lit_chars l) m rest cap cap' <-> ci_eq m l /\ cap' = cap.
Proof.
  unfold ci_eq. revert m cap. induction l as [|c l IH]; intros m cap; simpl.
  - split.
    + intros [-> ->]. auto.
    + intros [E ->]. destruct m; [auto | discriminate].
  - split.
    + intros (m1 & m2 & capm & -> & (x & -> & Ec & ->) & L).
      apply IH in L as [E ->]. simpl. rewrite Ec, E. auto.
    + intros [E ->]. destruct m as [|x m]; [discriminate|].
      simpl in E. inversion E as [[Ec Em]].
      exists [x], m, cap. split; [reflexivity|]. split; [eauto|].
      apply IH. auto.
Qed.

Lemma lang_rep_set (n : nat) (p : ascii -> bool) (m rest : list ascii)
      (cap cap' : capture) :
  lang (RRep n (RSet p)) m rest cap cap' <->
  length m = n /\ forallb p m = true /\ cap' = cap.
Proof.
  simpl. revert m cap. induction n as [|n IH]; intros m cap.
  - split.
    + intros [-> ->]. auto.
    + intros (E & _ & ->). destruct m; [auto | discriminate].
  - split.
    + intros (m1 & m2 & capm & -> & (x & -> & Px & ->) & L).
      apply IH in L as (E & Pm & ->). simpl. rewrite Px, E. auto.
    + intros (E & Pm & ->). destruct m as [|x m]; [discriminate|].
      simpl in E, Pm. apply andb_true_iff in Pm as [Px Pm].
      exists [x], m, cap. split; [reflexivity|]. split; [eauto|].
      apply IH. auto.
Qed.

Lemma lang_token_group (m rest : list ascii) (cap cap' : capture) :
  lang (RGroup (RRep 11 (RSet token_char))) m rest cap cap' <->
  video_token m /\ cap' = Some m.
Proof.
  unfold video_token. split.
  - intros (c0 & L & ->). apply lang_rep_set in L as (E & P & _). auto.
  - intros [[E P] ->]. exists cap. split; [|reflexivity].
    apply lang_rep_set. auto.
Qed.

Lemma lang_opt_skip (r : regex) (rest : list ascii) (cap : capture) :
  lang (ROpt r) [] rest cap cap.
Proof. simpl. right. auto. Qed.

Lemma canon_amp (x : ascii) : canon "&" = canon x -> x = "&"%char.
Proof.
  destruct x as [[] [] [] [] [] [] [] []]; vm_compute; congruence.
Qed.

Lemma lang_v_param (m rest : list ascii) (cap cap' : capture) :
  lang v_param m rest cap cap' <->
  exists mid v id,
    m = mid ++ v ++ id /\ ci_eq v (JS.chars "v=") /\ video_token id /\
    (mid = [] \/ exists d, mid = d ++ JS.chars "&" /\ forallb dot d = true) /\
    cap' = Some id.
Proof.
  unfold v_param. split.
  - intros (m1 & m23 & c1 & -> & L1 & (m2 & m3 & c2 & -> & L2 & L3)).
    apply lang_lit in L2 as [E2 ->]. apply lang_token_group in L3 as [T ->].
    exists m1, m2, m3.
    split; [reflexivity|]. split; [assumption|]. split; [assumption|].
    split; [|reflexivity].
    destruct L1 as [(d & a & c3 & -> & [Pd ->] & (x & -> & Ex & ->))|[-> ->]].
    + right. exists d. apply canon_amp in Ex. subst x. auto.
    + left. reflexivity.
  - intros (mid & v & id & -> & Ev & T & Hmid & ->).
    exists mid, (v ++ id), cap. split; [reflexivity|]. split.
    + destruct Hmid as [->|(d & -> & Pd)].
      * apply lang_opt_skip.
      * simpl. left. exists d, (JS.chars "&"), cap. split; [reflexivity|].
        split; [auto|]. simpl. eauto.
    + exists v, id, cap. split; [reflexivity|]. split.
      * apply lang_lit. auto.
      * apply lang_token_group. auto.
Qed.


Lemma watch_re_lang (m rest : list ascii) (cap' : capture) :
  lang YT_WATCH_RE m rest None cap' ->
  exists pre h mid v id,
    m = pre ++ h ++ mid ++ v ++ id /\ ci_eq h (JS.chars "youtube.com/watch?") /\
    ci_eq v (JS.chars "v=") /\ video_token id /\
    (mid = [] \/ exists d, mid = d ++ JS.chars "&" /\ forallb dot d = true) /\
    cap' = Some id.
Proof.
  intros (m1 & m' & c1 & -> & _ & (m2 & m'' & c2 & -> & _ &
          (m3 & m4 & c3 & -> & L3 & L4))).
  apply lang_lit in L3 as [E3 ->].
  apply lang_v_param in L4 as (mid & v & id & -> & Ev & T & Hmid & ->).
  exists (m1 ++ m2), m3, mid, v, id. rewrite <- !app_assoc. auto 10.
Qed.

Lemma music_re_lang (m rest : list ascii) (cap' : capture) :
  lang YT_MUSIC_RE m rest None cap' ->
  exists pre h mid v id,
    m = pre ++ h ++ mid ++ v ++ id /\
    ci_eq h (JS.chars "music.youtube.com/watch?") /\
    ci_eq v (JS.chars "v=") /\ video_token id /\
    (mid = [] \/ exists d, mid = d ++ JS.chars "&" /\ forallb dot d = true) /\
    cap' = Some id.
Proof.
  intros (m1 & m' & c1 & -> & _ & (m3 & m4 & c3 & -> & L3 & L4)).
  apply lang_lit in L3 as [E3 ->].
  apply lang_v_param in L4 as (mid & v & id & -> & Ev & T & Hmid & ->).
  exists m1, m3, mid, v, id. auto 10.
Qed.

Lemma canon_question (x : ascii) : canon "?" = canon x -> x = "?"%char.
Proof.
  destruct x as [[] [] [] [] [] [] [] []]; vm_compute; congruence.
Qed.

Lemma short_re_lang (m rest : list ascii) (cap' : capture) :
  lang YT_SHORT_RE m rest None cap' ->
  exists pre h id tail,
    m = pre ++ h ++ id ++ tail /\ ci_eq h (JS.chars "youtu.be/") /\
    video_token id /\
    ((tail = [] /\ rest = []) \/ tail = JS.chars "?") /\
    cap' = Some id.
Proof.
  intros (m1 & m' & c1 & -> & _ & (m2 & m'' & c2 & -> & _ &
          (m3 & m4 & c3 & -> & L3 & (m5 & m6 & c5 & -> & L5 & L6)))).
  apply lang_lit in L3 as [E3 ->].
  apply lang_token_group in L5 as [T ->].
  exists (m1 ++ m2), m3, m5, m6. rewrite <- !app_assoc.
  split; [reflexivity|]. split; [assumption|]. split; [assumption|]. split.
  - destruct L6 as [(x & -> & Ex & ->)|(-> & -> & ->)].
    + right. apply canon_question in Ex. now subst x.
    + left. auto.
  - destruct L6 as [(x & -> & Ex & ->)|(-> & -> & ->)]; reflexivity.
Qed.

(** The patterns against the shapes. *)

Lemma watch_re_matches (t : list ascii) :
  is_Some (exec YT_WATCH_RE t) <-> contains_watch_url "youtube.com/watch?" t.
Proof.
  split.
  - intros [cap E]. apply exec_sound in E as (pre & m & rest & -> & L).
    apply watch_re_lang in L as (p & h & mid & v & id & -> & Eh & Ev & T & Hm & _).
    exists (pre ++ p), h, (mid ++ v ++ id ++ rest), id.
    rewrite <- !app_assoc. split; [reflexivity|]. split; [assumption|].
    exists mid, v, rest. auto.
  - intros (pre & h & q & id & -> & Eh & (mid & v & post & -> & Ev & T & Hm)).
    replace (pre ++ h ++ mid ++ v ++ id ++ post)
      with (pre ++ (h ++ mid ++ v ++ id) ++ post)
      by (now rewrite <- !app_assoc).
    apply exec_complete with (cap := Some id).
    exists [], (h ++ mid ++ v ++ id), None.
    split; [reflexivity|]. split; [apply lang_opt_skip|].
    exists [], (h ++ mid ++ v ++ id), None.
    split; [reflexivity|]. split; [apply lang_opt_skip|].
    exists h, (mid ++ v ++ id), None.
    split; [reflexivity|]. split; [apply lang_lit; auto|].
    apply lang_v_param. exists mid, v, id. auto 10.
Qed.

Lemma music_re_matches (t : list ascii) :
  is_Some (exec YT_MUSIC_RE t) <-> contains_watch_url "music.youtube.com/watch?" t.
Proof.
  split.
  - intros [cap E]. apply exec_sound in E as (pre & m & rest & -> & L).
    apply music_re_lang in L as (p & h & mid & v & id & -> & Eh & Ev & T & Hm & _).
    exists (pre ++ p), h, (mid ++ v ++ id ++ rest), id.
    rewrite <- !app_assoc. split; [reflexivity|]. split; [assumption|].
    exists mid, v, rest. auto.
  - intros (pre & h & q & id & -> & Eh & (mid & v & post & -> & Ev & T & Hm)).
    replace (pre ++ h ++ mid ++ v ++ id ++ post)
      with (pre ++ (h ++ mid ++ v ++ id) ++ post)
      by (now rewrite <- !app_assoc).
    apply exec_complete with (cap := Some id).
    exists [], (h ++ mid ++ v ++ id), None.
    split; [reflexivity|]. split; [apply lang_opt_skip|].
    exists h, (mid ++ v ++ id), None.
    split; [reflexivity|]. split; [apply lang_lit; auto|].
    apply lang_v_param. exists mid, v, id. auto 10.
Qed.

Lemma short_re_matches (t : list ascii) :
  is_Some (exec YT_SHORT_RE t) <-> contains_closed_short_link t.
Proof.
  split.
  - intros [cap E]. apply exec_sound in E as (pre & m & rest & -> & L).
    apply short_re_lang in L as (p & h & id & tail & -> & Eh & T & Ht & _).
    exists (pre ++ p), h, id, (tail ++ rest).
    rewrite <- !app_assoc.
    split; [reflexivity|]. split; [assumption|]. split; [assumption|].
    destruct Ht as [[-> ->]| ->]; [left; reflexivity | right; eauto].
  - intros (pre & h & id & post & -> & Eh & T & Hp).
    destruct Hp as [->|(post' & ->)].
    + replace (pre ++ h ++ id ++ []) with (pre ++ (h ++ id) ++ [])
        by (now rewrite <- !app_assoc).
      apply exec_complete with (cap := Some id).
      exists [], (h ++ id), None.
      split; [reflexivity|]. split; [apply lang_opt_skip|].
      exists [], (h ++ id), None.
      split; [reflexivity|]. split; [apply lang_opt_skip|].
      exists h, id, None.
      split; [reflexivity|]. split; [apply lang_lit; auto|].
      exists id, [], (Some id). rewrite app_nil_r.
      split; [reflexivity|]. split; [apply lang_token_group; auto|].
      right. simpl. auto.
    + replace (pre ++ h ++ id ++ JS.chars "?" ++ post')
        with (pre ++ (h ++ id ++ JS.chars "?") ++ post')
        by (now rewrite <- !app_assoc).
      apply exec_complete with (cap := Some id).
      exists [], (h ++ id ++ JS.chars "?"), None.
      split; [reflexivity|]. split; [apply lang_opt_skip|].
      exists [], (h ++ id ++ JS.chars "?"), None.
      split; [reflexivity|]. split; [apply lang_opt_skip|].
      exists h, (id ++ JS.chars "?"), None.
      split; [reflexivity|]. split; [apply lang_lit; auto|].
      exists id, (JS.chars "?"), (Some id).
      split; [reflexivity|]. split; [apply lang_token_group; auto|].
      left. simpl. eauto.
Qed.

(** ** extractYouTubeVideoId *)

Lemma length_str (l : list ascii) : String.length (JS.str l) = length l.
Proof. induction l as [|c l IH]; simpl; [reflexivity | now rewrite IH]. Qed.

Lemma chars_str (l : list ascii) : JS.chars (JS.str l) = l.
Proof. apply list_ascii_of_string_of_list_ascii. Qed.

Lemma truthy_length (s : string) : String.length s <> 0 -> JS.truthy s = true.
Proof. destruct s; simpl; [congruence | reflexivity]. Qed.

Lemma watch_re_captures : captures_token YT_WATCH_RE.
Proof.
  intros t cap E. apply exec_sound in E as (pre & m & rest & _ & L).
  apply watch_re_lang in L as (p & h & mid & v & id & _ & _ & _ & T & _ & ->).
  eauto.
Qed.

Lemma music_re_captures : captures_token YT_MUSIC_RE.
Proof.
  intros t cap E. apply exec_sound in E as (pre & m & rest & _ & L).
  apply music_re_lang in L as (p & h & mid & v & id & _ & _ & _ & T & _ & ->).
  eauto.
Qed.

Lemma short_re_captures : captures_token YT_SHORT_RE.
Proof.
  intros t cap E. apply exec_sound in E as (pre & m & rest & _ & L).
  apply short_re_lang in L as (p & h & id & tail & _ & _ & T & _ & ->).
  eauto.
Qed.

Lemma match_group1_token (re : regex) (text id : string) :
  captures_token re ->
  match_group1 re text = Some id -> video_token (JS.chars id).
Proof.
  intros C E. unfold match_group1 in E.
  destruct (exec re (JS.chars text)) as [[g|]|] eqn:Ex; try discriminate.
  inversion E; subst id. rewrite chars_str.
  destruct (C _ _ Ex) as (id & Eid & T). now inversion Eid; subst.
Qed.

Lemma match_group1_some (re : regex) (text : string) :
  captures_token re ->
  is_Some (match_group1 re text) <-> is_Some (exec re (JS.chars text)).
Proof.
  intros C. unfold match_group1. split.
  - destruct (exec re (JS.chars text)); [eauto | intros [? ?]; discriminate].
  - intros [cap E]. rewrite E. destruct (C _ _ E) as (id & -> & _). eauto.
Qed.

Lemma token_truthy (id : string) :
  video_token (JS.chars id) -> JS.truthy_opt (Some id) = true.
Proof.
  intros [L _]. simpl. apply truthy_length.
  rewrite <- (length_str (JS.chars id)) in L.
  unfold JS.str, JS.chars in L. rewrite string_of_list_ascii_of_string in L.
  lia.
Qed.

Lemma or_else_some (a b : option string) :
  (forall id, a = Some id -> video_token (JS.chars id)) ->
  or_else a b = match a with Some _ => a | None => b end.
Proof.
  intros T. unfold or_else. destruct a as [id|]; [|reflexivity].
  now rewrite (token_truthy id (T id eq_refl)).
Qed.

Lemma extractYouTubeVideoId_unfold (text : string) :
  extractYouTubeVideoId text =
  match match_group1 YT_WATCH_RE text with
  | Some id => Some id
  | None =>
      match match_group1 YT_SHORT_RE text with
      | Some id => Some id
      | None => match_group1 YT_MUSIC_RE text
      end
  end.
Proof.
  unfold extractYouTubeVideoId.
  rewrite (or_else_some (match_group1 YT_MUSIC_RE text))
    by (intros id E; exact (match_group1_token _ _ _ music_re_captures E)).
  rewrite (or_else_some (match_group1 YT_SHORT_RE text))
    by (intros id E; exact (match_group1_token _ _ _ short_re_captures E)).
  rewrite (or_else_some (match_group1 YT_WATCH_RE text))
    by (intros id E; exact (match_group1_token _ _ _ watch_re_captures E)).
  destruct (match_group1 YT_WATCH_RE text); [reflexivity|].
  destruct (match_group1 YT_SHORT_RE text); [reflexivity|].
  destruct (match_group1 YT_MUSIC_RE text); reflexivity.
Qed.

(** C5 (as amended): [extractYouTubeVideoId] returns a token exactly when
    the text contains a watch URL on youtube.com with a [v] parameter, a
    youtu.be short link whose token ends the text or is followed by a
    question mark, or a watch URL on music.youtube.com with a [v] parameter,
    and null otherwise; the value returned is an 11-character token.  It
    returns ["dQw4w9WgXcQ"] for ["https://youtu.be/dQw4w9WgXcQ"] and null for
    the bare token. *)
Theorem extractYouTubeVideoId_shapes (text : string) :
  (is_Some (extractYouTubeVideoId text) <->
     contains_watch_url "youtube.com/watch?" (JS.chars text) \/
     contains_closed_short_link (JS.chars text) \/
     contains_watch_url "music.youtube.com/watch?" (JS.chars text)) /\
  (extractYouTubeVideoId text = None <->
     ~ (contains_watch_url "youtube.com/watch?" (JS.chars text) \/
        contains_closed_short_link (JS.chars text) \/
        contains_watch_url "music.youtube.com/watch?" (JS.chars text))) /\
  (forall id, extractYouTubeVideoId text = Some id -> video_token (JS.chars id)) /\
  extractYouTubeVideoId "https://youtu.be/dQw4w9WgXcQ" = Some "dQw4w9WgXcQ" /\
  extractYouTubeVideoId "dQw4w9WgXcQ" = None.
Proof.
  assert (Iff : is_Some (extractYouTubeVideoId text) <->
     contains_watch_url "youtube.com/watch?" (JS.chars text) \/
     contains_closed_short_link (JS.chars text) \/
     contains_watch_url "music.youtube.com/watch?" (JS.chars text)).
  { rewrite extractYouTubeVideoId_unfold.
    rewrite <- watch_re_matches, <- short_re_matches, <- music_re_matches.
    rewrite <- (match_group1_some _ text watch_re_captures).
    rewrite <- (match_group1_some _ text short_re_captures).
    rewrite <- (match_group1_some _ text music_re_captures).
    destruct (match_group1 YT_WATCH_RE text) as [a|];
      [split; eauto|].
    destruct (match_group1 YT_SHORT_RE text) as [b|];
      [split; eauto|].
    split; [auto|].
    intros [[? ?]|[[? ?]|?]]; try discriminate; assumption. }
  split; [exact Iff|]. split.
  - rewrite <- Iff. destruct (extractYouTubeVideoId text) as [id|].
    + split; [discriminate|]. intros N. exfalso. apply N. eauto.
    + split; [|reflexivity]. intros _ [? ?]. discriminate.
  - split.
    + intros id E. rewrite extractYouTubeVideoId_unfold in E.
      destruct (match_group1 YT_WATCH_RE text) as [a|] eqn:Ea.
      { inversion E; subst a.
        exact (match_group1_token _ _ _ watch_re_captures Ea). }
      destruct (match_group1 YT_SHORT_RE text) as [b|] eqn:Eb.
      { inversion E; subst b.
        exact (match_group1_token _ _ _ short_re_captures Eb). }
      exact (match_group1_token _ _ _ music_re_captures E).
    + split; vm_compute; reflexivity.
Qed.

(** C5 (as stated) fails: a short link followed by more text is in the text,
    and no token is returned. *)
Lemma short_link_with_trailing_text :
  contains_short_link (JS.chars "https://youtu.be/dQw4w9WgXcQ please") /\
  extractYouTubeVideoId "https://youtu.be/dQw4w9WgXcQ please" = None.
Proof.
  split.
  - exists (JS.chars "https://"), (JS.chars "youtu.be/"),
      (JS.chars "dQw4w9WgXcQ"), (JS.chars " please").
    split; [reflexivity|]. split; [reflexivity|]. split; reflexivity.
  - vm_compute. reflexivity.
Qed.

(** ** searchBestMatch *)

Section SearchFacts.
Context {sim : StringSimilarity}.

Lemma ranked_cons (query : string) (s : SearchResult) (songs : list SearchResult) :
  ranked query (s :: songs) =
  insert_by (fun a b => Qminus (snd b) (snd a)) (s, score query s)
            (ranked query songs).
Proof. reflexivity. Qed.

(** The head of the ranking is the first of the best-scoring songs. *)
Lemma ranked_head (query : string) (songs : list SearchResult) :
  songs <> [] ->
  exists pre top post rest,
    songs = pre ++ top :: post /\
    ranked query songs = (top, score query top) :: rest /\
    (forall s, In s pre -> (score query s < score query top)%Q) /\
    (forall s, In s post -> (score query s <= score query top)%Q).
Proof.
  induction songs as [|a songs IH]; [congruence|]. intros _.
  rewrite ranked_cons. destruct songs as [|b songs].
  - exists [], a, [], []. simpl. split; [reflexivity|].
    split; [reflexivity|]. split; intros s [].
  - destruct IH as (pre & top & post & rest & E & R & Hpre & Hpost);
      [congruence|].
    rewrite R. simpl insert_by. cbv beta. simpl snd.
    destruct (Qle_bool (score query top - score query a) 0) eqn:Le.
    + apply Qle_bool_iff in Le.
      exists [], a, (b :: songs), ((top, score query top) :: rest).
      split; [reflexivity|]. split; [reflexivity|].
      split; [intros s []|].
      intros s Hs. rewrite E in Hs. apply in_app_or in Hs.
      destruct Hs as [Hs|[<-|Hs]].
      * apply Hpre in Hs. lra.
      * lra.
      * apply Hpost in Hs. lra.
    + assert (Lt : (score query a < score query top)%Q).
      { apply Qnot_le_lt. intros Hle.
        assert (Qle_bool (score query top - score query a) 0 = true)
          by (apply Qle_bool_iff; lra).
        congruence. }
      exists (a :: pre), top, post,
        (insert_by (fun x y => Qminus (snd y) (snd x)) (a, score query a) rest).
      split; [rewrite E; reflexivity|]. split; [reflexivity|].
      split; [|assumption].
      intros s [<-|Hs]; [assumption | now apply Hpre].
Qed.

(** What [pickBest] returns: null without songs, otherwise the track of the
    first best-scoring song. *)
Lemma pickBest_spec (query : string) (results : list SearchResult) :
  (List.filter is_song results = [] /\ pickBest query results = Ok None) \/
  (exists pre top post,
     List.filter is_song results = pre ++ top :: post /\
     pickBest query results = Ok (Some (toSongPick top)) /\
     (forall s, In s pre -> (score query s < score query top)%Q) /\
     (forall s, In s post -> (score query s <= score query top)%Q)).
Proof.
  unfold pickBest. destruct (List.filter is_song results) as [|a songs] eqn:F.
  - left. auto.
  - right.
    destruct (ranked_head query (a :: songs)) as
      (pre & top & post & rest & E & R & Hpre & Hpost); [congruence|].
    rewrite R. exists pre, top, post. auto.
Qed.

End SearchFacts.

Section SearchCall.
Context {S : Type} {api : YouTubeApi S} {sim : StringSimilarity}.

(** The ranking as the code does it: [searchBestMatch] keeps the results
    whose type is "song"; without any it returns null; otherwise it returns
    the track built from the song with the highest similarity between the
    lower-cased query and the haystack [hay] of the code, the earliest such
    song in catalog order.  The haystack holds the title (or the name) and
    the entries of the [artists] array; it does not read the [artist]
    field. *)
Theorem searchBestMatch_first_best
        (g : Google) (query : string) (n : Net S) (results : list SearchResult) :
  ytmusic_search query (remote n) = Ok results ->
  (List.filter is_song results = [] /\
   searchBestMatch g query n =
     (Ok None, mkNet (remote n) (calls n ++ [CYtmSearch query]))) \/
  (exists pre top post,
     List.filter is_song results = pre ++ top :: post /\
     JS.toLowerCase (default "" (sr_type top)) = "song" /\
     searchBestMatch g query n =
       (Ok (Some (toSongPick top)),
        mkNet (remote n) (calls n ++ [CYtmSearch query])) /\
     (forall s, In s pre ->
        (compareTwoStrings (JS.toLowerCase query) (hay s)
         < compareTwoStrings (JS.toLowerCase query) (hay top))%Q) /\
     (forall s, In s post ->
        (compareTwoStrings (JS.toLowerCase query) (hay s)
         <= compareTwoStrings (JS.toLowerCase query) (hay top))%Q)).
Proof.
  intros E.
  assert (Run : searchBestMatch g query n =
                (pickBest query results,
                 mkNet (remote n) (calls n ++ [CYtmSearch query]))).
  { unfold searchBestMatch, try_catch, bind, call_read, throw. rewrite E.
    destruct (pickBest query results); reflexivity. }
  rewrite Run.
  destruct (pickBest_spec query results) as
    [[F P]|(pre & top & post & F & P & Hpre & Hpost)].
  - left. rewrite P. auto.
  - right. exists pre, top, post. rewrite P.
    split; [assumption|]. split; [|auto].
    assert (Hin : In top (List.filter is_song results)).
    { rewrite F. apply in_or_app. right. left. reflexivity. }
    apply filter_In in Hin as [_ Hs]. unfold is_song in Hs.
    apply String.eqb_eq in Hs.
    destruct (sr_type top) as [t|]; simpl in *; [|discriminate].
    destruct (JS.truthy t); [assumption | discriminate].
Qed.

End SearchCall.

(** ** The artist list of a track *)





Lemma searchBestMatch_first_best_witness :
  searchBestMatch (sim := dice) requests_bot "hello adele" (mkNet studio []) =
  (Ok (Some {| title := "Hello"; artists := ["Adele"];
               videoId := "YQHsXMglC9A"; duration := None |}),
   mkNet studio [CYtmSearch "hello adele"]).
Proof.
  destruct (searchBestMatch_first_best (api := account_api) (sim := dice) requests_bot "hello adele"
              (mkNet studio []) [hello_adele; hello_video] eq_refl)
    as [[F _]|(pre & top & post & F & _ & Run & _)].
  - discriminate F.
  - destruct pre as [|a pre]; [|destruct pre; discriminate F].
    inversion F; subst top post. exact Run.
Defined.

(** Two candidates of equal score stay in catalog order. *)
Lemma tie_goes_to_the_first {A} (score : A -> Q) (x y : A) :
  (score y == score x)%Q ->
  sort_by (fun a b => Qminus (snd b) (snd a)) [(x, score x); (y, score y)]
  = [(x, score x); (y, score y)].
Proof.
  intros E. unfold sort_by. simpl.
  assert (H : Qle_bool (score y - score x) 0 = true)
    by (apply Qle_bool_iff; lra).
  now rewrite H.
Qed.

(** Whatever the similarity metric, the first of the two songs wins. *)
Lemma jukebox_first_wins (sim : StringSimilarity) :
  searchBestMatch (sim := sim) requests_bot "hello adele" (mkNet jukebox []) =
    (Ok (Some {| title := "Hello"; artists := ["Lionel Richie"];
                 videoId := "vid-lionel"; duration := None |}),
     mkNet jukebox [CYtmSearch "hello adele"]).
Proof.
  unfold searchBestMatch, try_catch, bind, call_read. simpl.
  unfold pickBest.
  change (List.filter is_song _) with
    [hello_by_field (FieldString "Lionel Richie") "vid-lionel";
     hello_by_field (FieldObject (Some "Adele")) "vid-adele"].
  unfold ranked. simpl map.
  rewrite (tie_goes_to_the_first (score "hello adele")); [reflexivity|].
  unfold score. reflexivity.
Qed.

(** C4 (the code at the failing input): the catalog answers "hello adele"
    with two songs titled "Hello", by Lionel Richie and by Adele, that name
    their artist in the [artist] field.  The track built from either carries
    its artist, but the haystack of both is "hello " alone: the ranking
    reads the [artists] array only.  The scores tie, whatever the metric,
    and the first song wins: [searchBestMatch] returns Lionel Richie's,
    although the haystack of title and artist names of Adele's song is the
    query itself and scores higher.  With the artists in the [artists] array
    the haystack holds them and the same search returns Adele's song. *)
Theorem searchBestMatch_ranks_without_artist_field :
  (forall sim : StringSimilarity,
     searchBestMatch (sim := sim) requests_bot "hello adele" (mkNet jukebox []) =
     (Ok (Some {| title := "Hello"; artists := ["Lionel Richie"];
                  videoId := "vid-lionel"; duration := None |}),
      mkNet jukebox [CYtmSearch "hello adele"])) /\
  hay (hello_by_field (FieldString "Lionel Richie") "vid-lionel") = "hello " /\
  hay (hello_by_field (FieldObject (Some "Adele")) "vid-adele") = "hello " /\
  artists (toSongPick (hello_by_field (FieldObject (Some "Adele")) "vid-adele"))
    = ["Adele"] /\
  (Dice.compare "hello adele" "hello lionel richie"
   < Dice.compare "hello adele" "hello adele")%Q /\
  hay (hello_by_array "Adele" "vid-adele") = "hello adele" /\
  searchBestMatch (sim := dice) requests_bot "hello adele" (mkNet jukebox_arrays []) =
    (Ok (Some {| title := "Hello"; artists := ["Adele"];
                 videoId := "vid-adele"; duration := None |}),
     mkNet jukebox_arrays [CYtmSearch "hello adele"]).
Proof.
  split; [exact jukebox_first_wins|].
  repeat split; vm_compute; reflexivity.
Qed.


(** ** The playlist client *)

Section ClientFacts.
Context {S : Type} {api : YouTubeApi S}.

Lemma ensureGoogleAccess_run (g : Google) (n : Net S) :
  ensureGoogleAccess g n =
  (match getAccessToken (g_refreshToken g) (remote n) with
   | Ok _ => Ok tt
   | Throw _ =>
       Throw "Google authentication failed. Check your GOOGLE_REFRESH_TOKEN."
   end,
   mkNet (remote n) (calls n ++ [CGetAccessToken (g_refreshToken g)])).
Proof.
  unfold ensureGoogleAccess, try_catch, call_read, throw.
  destruct (getAccessToken (g_refreshToken g) (remote n)) as [[]|e]; reflexivity.
Qed.

Lemma scan_pages_run (cred name : string) (pages : list (result (list Playlist))) :
  forall (i : nat) (n : Net S),
    scan_pages cred name i pages n =
    (fst (scan_outcome name pages),
     mkNet (remote n)
           (calls n ++ map (CPlaylistsList cred)
                           (seq i (snd (scan_outcome name pages))))).
Proof.
  induction pages as [|p pages IH]; intros i n; simpl.
  - unfold ret. rewrite app_nil_r. now destruct n.
  - unfold bind, call_read. destruct p as [items|e]; simpl.
    + destruct (JS.truthy_opt (scan_page name items)) eqn:T; simpl.
      * reflexivity.
      * rewrite IH. simpl. destruct (scan_outcome name pages) as [r k]. simpl.
        now rewrite <- app_assoc.
    + reflexivity.
Qed.

Lemma find_playlist_run (g : Google) (name : string) (n : Net S) :
  find_playlist g name n =
  (fst (scan_outcome name (first_pages (playlists_list (g_refreshToken g) (remote n)))),
   mkNet (remote n)
     (calls n ++
      map (CPlaylistsList (g_refreshToken g))
          (seq 0 (snd (scan_outcome name
                         (first_pages (playlists_list (g_refreshToken g) (remote n)))))))).
Proof.
  unfold find_playlist. apply scan_pages_run.
Qed.

End ClientFacts.

Section EnsurePlaylistFacts.
Context {S : Type} {api : YouTubeApi S}.

(** [ensurePlaylist], call by call. *)
Lemma ensurePlaylist_run (g : Google) (name : string) (n : Net S) :
  let cred := g_refreshToken g in
  ensurePlaylist g name n =
  match getAccessToken cred (remote n) with
  | Throw _ =>
      (Throw "Google authentication failed. Check your GOOGLE_REFRESH_TOKEN.",
       mkNet (remote n) (calls n ++ [CGetAccessToken cred]))
  | Ok _ =>
      let '(r, k) := scan_outcome name (first_pages (playlists_list cred (remote n))) in
      let log1 := calls n ++ CGetAccessToken cred
                          :: map (CPlaylistsList cred) (seq 0 k) in
      match r with
      | Throw e => (Throw e, mkNet (remote n) log1)
      | Ok (Some id) => (Ok id, mkNet (remote n) log1)
      | Ok None =>
          let '(c, s1) :=
            playlists_insert cred name description "unlisted" (remote n) in
          let log2 := log1 ++ [CPlaylistsInsert cred name description "unlisted"] in
          match c with
          | Throw e => (Throw e, mkNet s1 log2)
          | Ok newId =>
              if JS.truthy_opt newId then (Ok (default "" newId), mkNet s1 log2)
              else (Throw "Failed to create playlist", mkNet s1 log2)
          end
      end
  end.
Proof.
  intros cred. unfold ensurePlaylist, try_catch. unfold bind at 1.
  rewrite ensureGoogleAccess_run. fold cred.
  destruct (getAccessToken cred (remote n)) as [[]|e]; [|reflexivity].
  unfold bind at 1. rewrite find_playlist_run. simpl remote. simpl calls.
  fold cred.
  destruct (scan_outcome name (first_pages (playlists_list cred (remote n))))
    as [r k]. simpl fst. simpl snd. rewrite <- app_assoc. simpl app.
  destruct r as [[id|]|e]; try reflexivity.
  unfold bind, call_write, ret, throw. simpl remote. simpl calls.
  fold description.
  destruct (playlists_insert cred name description "unlisted" (remote n))
    as [[newId|e] s1]; [|reflexivity].
  destruct (JS.truthy_opt newId); reflexivity.
Qed.

(** A page scan that finds nothing, on a page whose matches carry ids: no
    title on the page matches. *)
Lemma scan_page_none (name : string) (items : list Playlist) :
  JS.truthy_opt (scan_page name items) = false ->
  (forall pl, In pl items -> title_matches name pl = true ->
              JS.truthy_opt (pl_id pl) = true) ->
  forall pl, In pl items -> title_matches name pl = false.
Proof.
  induction items as [|a items IH]; simpl; intros F Ids pl Hin; [easy|].
  destruct (title_matches name a) eqn:Ma.
  - rewrite (Ids a (or_introl eq_refl) Ma) in F. discriminate.
  - destruct Hin as [<-|Hin]; [assumption|]. apply IH; auto.
Qed.

Lemma scan_outcome_none (name : string) (pages : list (result (list Playlist))) k :
  scan_outcome name pages = (Ok None, k) ->
  (forall p pl, In (Ok p) pages -> In pl p -> title_matches name pl = true ->
                JS.truthy_opt (pl_id pl) = true) ->
  forall p pl, In (Ok p) pages -> In pl p -> title_matches name pl = false.
Proof.
  revert k. induction pages as [|[items|e] pages IH]; simpl; intros k E Ids p pl Hp Hpl.
  - easy.
  - destruct (JS.truthy_opt (scan_page name items)) eqn:T.
    + inversion E as [[E1 E2]]. rewrite E1 in T. discriminate.
    + destruct (scan_outcome name pages) as [r k'] eqn:Er.
      inversion E; subst r k. destruct Hp as [Hp|Hp].
      * inversion Hp; subst p.
        apply (scan_page_none name items T); eauto.
      * eapply IH; eauto.
  - discriminate.
Qed.

(** A page on which every matching playlist is the created one. *)
Lemma scan_page_created (name id : string) (items : list Playlist) :
  (forall pl, In pl items -> pl = created id name \/ title_matches name pl = false) ->
  scan_page name items = if existsb (title_matches name) items then Some id else None.
Proof.
  induction items as [|a items IH]; simpl; intros Hall; [reflexivity|].
  destruct (title_matches name a) eqn:Ma; simpl.
  - destruct (Hall a (or_introl eq_refl)) as [->|N]; [reflexivity | congruence].
  - apply IH. auto.
Qed.

Lemma title_matches_created (name id : string) :
  title_matches name (created id name) = true.
Proof. unfold title_matches. simpl. apply String.eqb_refl. Qed.

Lemma scan_outcome_created (name id : string) (ps : list (list Playlist)) :
  JS.truthy id = true ->
  In (created id name) (concat ps) ->
  (forall pl, In pl (concat ps) ->
              pl = created id name \/ title_matches name pl = false) ->
  fst (scan_outcome name (first_pages (map Ok ps))) = Ok (Some id).
Proof.
  intros Tid Hin Hall.
  assert (E : first_pages (map Ok ps) = map Ok ps).
  { destruct ps; [destruct Hin | reflexivity]. }
  rewrite E. clear E.
  induction ps as [|p ps IH]; [destruct Hin|]. simpl in *.
  rewrite (scan_page_created name id p)
    by (intros pl Hpl; apply Hall, in_or_app; auto).
  destruct (existsb (title_matches name) p) eqn:Ex; simpl.
  - rewrite Tid. reflexivity.
  - destruct (scan_outcome name (map Ok ps)) as [r k] eqn:Er. simpl.
    apply in_app_or in Hin as [Hin|Hin].
    + exfalso. apply Bool.not_true_iff_false in Ex. apply Ex.
      apply existsb_exists. exists (created id name).
      split; [assumption | apply title_matches_created].
    + apply IH; [assumption|]. intros pl Hpl. apply Hall, in_or_app. auto.
Qed.

End EnsurePlaylistFacts.

Section Idempotence.
Context {S : Type} {api : YouTubeApi S}.

Lemma in_first_pages (pages : list (result (list Playlist))) (p : list Playlist)
      (pl : Playlist) :
  In (Ok p) (first_pages pages) -> In pl p -> In (Ok p) pages.
Proof.
  destruct pages as [|q pages]; simpl; [|auto].
  intros [E|[]] Hpl. inversion E; subst p. destruct Hpl.
Qed.

Lemma truthy_opt_some (o : option string) :
  JS.truthy_opt o = true -> o = Some (default "" o) /\ JS.truthy (default "" o) = true.
Proof. destruct o; simpl; [auto | discriminate]. Qed.

(** Idempotence where every match carries an id: on a remote that lists
    what was created, and when every listed playlist whose title matches the
    name carries an id, a second [ensurePlaylist] for the same name returns
    the id of the first and makes no creation call: it asks for the access
    token and pages through the listing, nothing more. *)
Theorem ensurePlaylist_idempotent
        (g : Google) (name : string) (n n1 : Net S) (id1 : string) :
  read_your_writes ->
  matches_have_ids (g_refreshToken g) name (remote n) ->
  ensurePlaylist g name n = (Ok id1, n1) ->
  exists k,
    ensurePlaylist g name n1 =
    (Ok id1,
     mkNet (remote n1)
           (calls n1 ++ CGetAccessToken (g_refreshToken g)
                     :: map (CPlaylistsList (g_refreshToken g)) (seq 0 k))).
Proof.
  intros Law Ids Run1. set (cred := g_refreshToken g) in *.
  rewrite ensurePlaylist_run in Run1. fold cred in Run1. cbv zeta in Run1.
  destruct (getAccessToken cred (remote n)) as [[]|e] eqn:Tok; [|discriminate].
  destruct (scan_outcome name (first_pages (playlists_list cred (remote n))))
    as [r k] eqn:Scan.
  destruct r as [[id|]|e]; [| |discriminate].
  - (* found: the second call reads the same listing *)
    inversion Run1; subst id1 n1. exists k.
    rewrite ensurePlaylist_run. fold cred. simpl remote. simpl calls.
    rewrite Tok, Scan. reflexivity.
  - (* created: the second call finds the new playlist *)
    destruct (playlists_insert cred name description "unlisted" (remote n))
      as [[newId|e] s1] eqn:Ins; [|discriminate].
    destruct (JS.truthy_opt newId) eqn:Tn; [|discriminate].
    inversion Run1; subst id1 n1. clear Run1.
    apply truthy_opt_some in Tn as [En Tid]. rewrite En in Ins.
    destruct (Law _ _ _ _ _ _ _ Ins) as (Tok1 & ps1 & L1 & Hin & Hall).
    assert (Found : fst (scan_outcome name (first_pages (map Ok ps1)))
                    = Ok (Some (default "" newId))).
    { apply scan_outcome_created; [assumption | assumption |].
      intros pl Hpl. destruct (Hall pl Hpl) as [->|(p & Hp & Hplp)]; [auto|].
      right. eapply (scan_outcome_none name _ k Scan).
      - intros p' pl' Hp' Hpl' M. apply Ids; [|assumption].
        exists p'. split; [|assumption]. eapply in_first_pages; eassumption.
      - destruct (playlists_list cred (remote n)); [destruct Hp | exact Hp].
      - exact Hplp. }
    destruct (scan_outcome name (first_pages (map Ok ps1))) as [r1 k1] eqn:Scan1.
    simpl in Found. subst r1. exists k1.
    rewrite ensurePlaylist_run. fold cred. simpl remote. simpl calls.
    rewrite Tok1, Tok, L1, Scan1. reflexivity.
Qed.

End Idempotence.

(** The test account lists what was created, wherever it places it. *)

Lemma concat_add_first (pl : Playlist) (ps : list (list Playlist)) :
  concat (ac_add_first pl ps) = pl :: concat ps.
Proof. destruct ps; reflexivity. Qed.

Lemma concat_add_last (pl : Playlist) (ps : list (list Playlist)) :
  concat (ac_add_last pl ps) = concat ps ++ [pl].
Proof.
  induction ps as [|p ps IH]; [reflexivity|].
  destruct ps as [|q ps].
  - simpl. now rewrite !app_nil_r.
  - change (ac_add_last pl (p :: q :: ps)) with (p :: ac_add_last pl (q :: ps)).
    change (concat (p :: ac_add_last pl (q :: ps)))
      with (p ++ concat (ac_add_last pl (q :: ps))).
    rewrite IH. simpl. now rewrite <- !app_assoc.
Qed.

Lemma account_read_your_writes : read_your_writes (S := Account).
Proof.
  intros cred t d p s id s1 E. simpl in E. inversion E; subst id s1. clear E.
  split; [reflexivity|].
  exists (if ac_newest_first s
          then ac_add_first (created (ac_fresh_id s) t) (ac_playlists s)
          else ac_add_last (created (ac_fresh_id s) t) (ac_playlists s)).
  split; [reflexivity|].
  assert (Old : forall pl, In pl (concat (ac_playlists s)) -> listed cred s pl).
  { intros pl Hpl. apply in_concat in Hpl as (q & Hq & Hpl).
    exists q. split; [|assumption]. simpl. apply in_map_iff. eauto. }
  destruct (ac_newest_first s).
  - rewrite concat_add_first. split; [left; reflexivity|].
    intros pl [<-|Hpl]; auto.
  - rewrite concat_add_last. split; [apply in_or_app; right; left; reflexivity|].
    intros pl Hpl. apply in_app_or in Hpl as [Hpl|[<-|[]]]; auto.
Qed.

Lemma ensurePlaylist_idempotent_witness :
  exists k,
    ensurePlaylist requests_bot "Requests"
      (snd (ensurePlaylist requests_bot "Requests" (mkNet studio []))) =
    (Ok "PL-1",
     mkNet (remote (snd (ensurePlaylist requests_bot "Requests" (mkNet studio []))))
           (calls (snd (ensurePlaylist requests_bot "Requests" (mkNet studio [])))
            ++ CGetAccessToken (g_refreshToken requests_bot)
            :: map (CPlaylistsList (g_refreshToken requests_bot)) (seq 0 k))).
Proof.
  apply (ensurePlaylist_idempotent requests_bot "Requests" (mkNet studio [])).
  - exact account_read_your_writes.
  - intros pl (p & Hp & Hpl) M. simpl in Hp. destruct Hp as [E|[]].
    inversion E; subst p. destruct Hpl as [<-|[]]. vm_compute in M. discriminate.
  - vm_compute. reflexivity.
Defined.

(** C1 (the code at the failing input): the listing of the account holds a
    playlist titled "Requests" without an id, and a new playlist is listed
    after it on the same page.  The first [ensurePlaylist] creates "PL-1",
    which the account then lists under that title.  The second call does not
    find it: the scan of the page stops at the first title match and takes
    its missing id, so the call creates a second playlist and returns
    "PL-2". *)
Lemma ensurePlaylist_recreates :
  read_your_writes (S := Account) /\
  fst (ensurePlaylist requests_bot "Requests" (mkNet studio_stale [])) = Ok "PL-1" /\
  listed "rt-1"
    (remote (snd (ensurePlaylist requests_bot "Requests" (mkNet studio_stale []))))
    (created "PL-1" "Requests") /\
  ensurePlaylist requests_bot "Requests"
    (snd (ensurePlaylist requests_bot "Requests" (mkNet studio_stale []))) =
  (Ok "PL-2",
   mkNet
     (ac_with_playlists
        [[{| pl_id := None; pl_title := Some "Requests" |};
          created "PL-1" "Requests"; created "PL-2" "Requests"]] studio_stale)
     [CGetAccessToken "rt-1"; CPlaylistsList "rt-1" 0;
      CPlaylistsInsert "rt-1" "Requests" description "unlisted";
      CGetAccessToken "rt-1"; CPlaylistsList "rt-1" 0;
      CPlaylistsInsert "rt-1" "Requests" description "unlisted"]).
Proof.
  split; [exact account_read_your_writes|].
  split; [vm_compute; reflexivity|]. split; [|vm_compute; reflexivity].
  exists [{| pl_id := None; pl_title := Some "Requests" |};
          created "PL-1" "Requests"].
  split; [vm_compute; left; reflexivity | right; left; reflexivity].
Qed.

(** ** skipFirst *)

Section SkipFirstFacts.
Context {S : Type} {api : YouTubeApi S}.

(** C6 (as amended): [skipFirst] asks for the first item of the playlist.
    When there is none, or when the first item carries no id, it returns
    false and makes no delete call; otherwise it deletes that item, by its
    playlist-item id, and returns true. *)
Theorem skipFirst_head
        (g : Google) (playlistId : string) (n : Net S) (items : list PlaylistItem) :
  getAccessToken (g_refreshToken g) (remote n) = Ok tt ->
  playlistItems_list (g_refreshToken g) playlistId 1 (remote n) = Ok items ->
  let asked := calls n ++ [CGetAccessToken (g_refreshToken g);
                           CItemsList (g_refreshToken g) playlistId 1] in
  (items = [] -> skipFirst g playlistId n = (Ok false, mkNet (remote n) asked)) /\
  (forall first rest,
     items = first :: rest -> JS.truthy_opt (it_id first) = false ->
     skipFirst g playlistId n = (Ok false, mkNet (remote n) asked)) /\
  (forall first rest id s',
     items = first :: rest -> it_id first = Some id -> JS.truthy id = true ->
     playlistItems_delete (g_refreshToken g) id (remote n) = (Ok tt, s') ->
     skipFirst g playlistId n =
       (Ok true, mkNet s' (asked ++ [CItemsDelete (g_refreshToken g) id]))).
Proof.
  intros Tok Lst asked.
  assert (Run : skipFirst g playlistId n =
    match items with
    | first :: _ =>
        if JS.truthy_opt (it_id first) then
          let '(r, s') :=
            playlistItems_delete (g_refreshToken g) (default "" (it_id first))
                                 (remote n) in
          (match r with Ok _ => Ok true | Throw e => Throw e end,
           mkNet s' (asked ++ [CItemsDelete (g_refreshToken g)
                                            (default "" (it_id first))]))
        else (Ok false, mkNet (remote n) asked)
    | [] => (Ok false, mkNet (remote n) asked)
    end).
  { unfold skipFirst, try_catch. unfold bind at 1.
    rewrite ensureGoogleAccess_run, Tok. unfold bind at 1, call_read at 1.
    simpl remote. simpl calls. rewrite Lst, <- app_assoc. simpl app.
    fold asked. destruct items as [|first rest]; [reflexivity|].
    destruct (JS.truthy_opt (it_id first)); [|reflexivity].
    unfold bind, call_write, ret. simpl remote. simpl calls.
    destruct (playlistItems_delete (g_refreshToken g) (default "" (it_id first))
                                   (remote n)) as [[[]|e] s']; reflexivity. }
  rewrite Run. split; [|split].
  - intros ->. reflexivity.
  - intros first rest -> F. now rewrite F.
  - intros first rest id s' -> Eid Tid Del. rewrite Eid. simpl.
    rewrite Tid, Del. reflexivity.
Qed.

End SkipFirstFacts.

Lemma skipFirst_head_witness :
  skipFirst requests_bot "PL-queue" (mkNet studio []) =
  (Ok true,
   mkNet (ac_with_items
            [("PL-queue", [item (Some "it-2") "Two"]);
             ("PL-odd", [item None "Ghost"; item (Some "it-3") "Three"]);
             ("PL-empty", [])] studio)
         [CGetAccessToken "rt-1"; CItemsList "rt-1" "PL-queue" 1;
          CItemsDelete "rt-1" "it-1"]) /\
  skipFirst requests_bot "PL-empty" (mkNet studio []) =
  (Ok false, mkNet studio [CGetAccessToken "rt-1"; CItemsList "rt-1" "PL-empty" 1]).
Proof.
  split.
  - refine (proj2 (proj2 (skipFirst_head requests_bot "PL-queue" (mkNet studio [])
                            [item (Some "it-1") "One"] eq_refl eq_refl))
                  (item (Some "it-1") "One") [] "it-1" _ eq_refl eq_refl eq_refl eq_refl).
  - exact (proj1 (skipFirst_head requests_bot "PL-empty" (mkNet studio []) []
                    eq_refl eq_refl) eq_refl).
Defined.

(** C6 (as stated) fails: the playlist has items, the first of them carries
    no id, and [skipFirst] returns false without a delete call. *)
Lemma skipFirst_first_without_id :
  playlistItems_list "rt-1" "PL-odd" 1 studio = Ok [item None "Ghost"] /\
  skipFirst requests_bot "PL-odd" (mkNet studio []) =
  (Ok false, mkNet studio [CGetAccessToken "rt-1"; CItemsList "rt-1" "PL-odd" 1]).
Proof. split; vm_compute; reflexivity. Qed.

(** ** The tenant session manager *)

Section SessionFacts.
Context {S : Type} {api : YouTubeApi S}.
Variables cid csecret : string.

Lemma getGoogleForUser_uncached (userId : string) (w : World S) :
  googleInstances w !! userId = None ->
  getGoogleForUser cid csecret userId w =
  match tenant userId w with
  | Some u =>
      if JS.truthy_opt (googleRefreshToken u) then
        match initialize (google_for cid csecret u) (net w) with
        | (Ok _, n') =>
            (Ok (Some (google_for cid csecret u)),
             with_session userId (google_for cid csecret u)
               (with_net n' (asked_store (DbFindUnique userId) w)))
        | (Throw e, n') =>
            (Throw e, with_net n' (asked_store (DbFindUnique userId) w))
        end
      else (Ok None, asked_store (DbFindUnique userId) w)
  | None => (Ok None, asked_store (DbFindUnique userId) w)
  end.
Proof.
  intros Miss. unfold getGoogleForUser. rewrite Miss.
  unfold findUnique, log_db, bind at 1 2. simpl.
  fold (tenant userId w). fold (asked_store (DbFindUnique userId) w).
  destruct (tenant userId w) as [u|]; [|reflexivity].
  destruct (JS.truthy_opt (googleRefreshToken u)); [|reflexivity]. simpl.
  unfold bind, lift, cache_set, ret. simpl.
  destruct (initialize (google_for cid csecret u) (net w)) as [[[]|e] n'];
    reflexivity.
Qed.


End SessionFacts.


(** ** The command dispatcher *)

Section DispatcherFacts.
Context {S : Type} {api : YouTubeApi S} {sim : StringSimilarity}.
Variables cid csecret : string.

(** C7: a skip command from a user who is neither moderator nor broadcaster
    changes nothing but the store's query log, where the lookup of the
    channel's tenant is recorded: no reply is sent, no call is made on the
    music platform, no session is looked up or created. *)
Theorem skip_unprivileged_ignored (m : ChatMessage) (w : World S) :
  JS.toLowerCase (text m) = "!skip" ->
  isMod m = false ->
  isBroadcaster m = false ->
  onMessage cid csecret m w =
    (Ok tt, asked_store (DbFindFirst (JS.replace_first "#" (channel m))) w).
Proof.
  intros Ht Hm Hb.
  unfold onMessage, findFirst, log_db, bind, asked_store; simpl.
  destruct (find _ (db w)) as [u|]; [|reflexivity].
  unfold handle_sr, handle_np, handle_skip, ret.
  rewrite Ht, Hm, Hb. reflexivity.
Qed.

Lemma quiet_stay {A} (f : World S -> result A) : quiet (fun w => (f w, w)).
Proof.
  intros w r w' E. inversion E; subst. exists []. rewrite app_nil_r. auto.
Qed.

Lemma quiet_ret {A} (a : A) : quiet (ret (St := World S) a).
Proof. apply (quiet_stay (fun _ => Ok a)). Qed.

Lemma quiet_throw {A} (e : string) : quiet (throw (St := World S) (A := A) e).
Proof. apply (quiet_stay (fun _ => Throw e)). Qed.

Lemma quiet_bind {A B} (c : M (World S) A) (k : A -> M (World S) B) :
  quiet c -> (forall a, quiet (k a)) -> quiet (bind c k).
Proof.
  intros Hc Hk w r w' E. unfold bind in E.
  destruct (c w) as [[a|e] w1] eqn:Ec.
  - destruct (Hc _ _ _ Ec) as (l1 & E1 & N1).
    destruct (Hk a _ _ _ E) as (l2 & E2 & N2).
    exists (l1 ++ l2). rewrite E2, E1, <- app_assoc. split; [easy|].
    rewrite map_app, in_app_iff. tauto.
  - inversion E; subst. eauto.
Qed.

Lemma quiet_try {A} (c : M (World S) A) (h : string -> M (World S) A) :
  quiet c -> (forall e, quiet (h e)) -> quiet (try_catch c h).
Proof.
  intros Hc Hh w r w' E. unfold try_catch in E.
  destruct (c w) as [[a|e] w1] eqn:Ec.
  - inversion E; subst. eauto.
  - destruct (Hc _ _ _ Ec) as (l1 & E1 & N1).
    destruct (Hh e _ _ _ E) as (l2 & E2 & N2).
    exists (l1 ++ l2). rewrite E2, E1, <- app_assoc. split; [easy|].
    rewrite map_app, in_app_iff. tauto.
Qed.

Lemma quiet_frame {A} (c : M (World S) A) :
  (forall w, said (snd (c w)) = said w) -> quiet c.
Proof.
  intros F w r w' E. exists []. rewrite app_nil_r. split; [|auto].
  specialize (F w). now rewrite E in F.
Qed.

Lemma quiet_lift {A} (c : M (Net S) A) : quiet (lift c).
Proof.
  apply quiet_frame. intros w. unfold lift. now destruct (c (net w)).
Qed.

Lemma quiet_say (ch msg : string) : msg <> prompt -> quiet (say (S := S) ch msg).
Proof.
  intros Hne w r w' E. inversion E; subst. exists [(ch, msg)]. simpl.
  split; [easy|]. intros [E1|[]]. congruence.
Qed.

Lemma quiet_log_db (q : DbCall) : quiet (log_db (S := S) q).
Proof. apply quiet_frame. reflexivity. Qed.

Lemma quiet_cache_set (u : string) (g : Google) : quiet (cache_set (S := S) u g).
Proof. apply quiet_frame. reflexivity. Qed.

Ltac quiet_step :=
  match goal with
  | |- quiet (bind _ _) => apply quiet_bind; [| intros ?]
  | |- quiet (try_catch _ _) => apply quiet_try; [| intros ?]
  | |- quiet (ret _) => apply quiet_ret
  | |- quiet (throw _) => apply quiet_throw
  | |- quiet (lift _) => apply quiet_lift
  | |- quiet (log_db _) => apply quiet_log_db
  | |- quiet (cache_set _ _) => apply quiet_cache_set
  | |- quiet (say _ _) =>
      apply quiet_say;
      let E := fresh in
      intro E; apply (f_equal (String.get 0)) in E; vm_compute in E; discriminate
  | |- quiet (let _ := _ in _) => cbv zeta
  | |- quiet (if ?b then _ else _) => destruct b
  | |- quiet (match ?x with _ => _ end) => destruct x
  end.

Lemma quiet_updatePlaylistId (id pid : string) :
  quiet (updatePlaylistId (S := S) id pid).
Proof.
  unfold updatePlaylistId. quiet_step; [quiet_step|].
  apply quiet_frame. intros w. now destruct (update_row id pid (db w)).
Qed.

Lemma quiet_findUnique (id : string) : quiet (findUnique (S := S) id).
Proof. unfold findUnique. quiet_step; [quiet_step | apply quiet_stay]. Qed.

Lemma quiet_getGoogleForUser (id : string) :
  quiet (getGoogleForUser cid csecret id).
Proof.
  intros w r w' E. unfold getGoogleForUser in E.
  destruct (googleInstances w !! id).
  - inversion E; subst. exists []. rewrite app_nil_r. auto.
  - revert w r w' E.
    change (quiet
      (let* user := findUnique id in
       match user with
       | None => ret None
       | Some user =>
           if negb (JS.truthy_opt (googleRefreshToken user)) then ret None
           else
             let google := google_for cid csecret user in
             let* _ := lift (initialize google) in
             let* _ := cache_set id google in
             ret (Some google)
       end)).
    apply quiet_bind; [apply quiet_findUnique|].
    intros [u|]; repeat quiet_step.
Qed.

Lemma quiet_resolve_playlist (u : User) (g : Google) :
  quiet (resolve_playlist u g).
Proof.
  unfold resolve_playlist.
  repeat first [apply quiet_updatePlaylistId | quiet_step].
Qed.

Lemma quiet_handle_np (u : User) (m : ChatMessage) :
  quiet (handle_np cid csecret u m).
Proof.
  unfold handle_np.
  repeat first [apply quiet_getGoogleForUser | quiet_step].
Qed.

Lemma quiet_handle_skip (u : User) (m : ChatMessage) :
  quiet (handle_skip cid csecret u m).
Proof.
  unfold handle_skip.
  repeat first [apply quiet_getGoogleForUser | quiet_step].
Qed.

Lemma handle_sr_prompt (u : User) (m : ChatMessage) (w : World S) :
  JS.startsWith (JS.toLowerCase (text m)) "!sr " = true ->
  JS.trim (JS.slice 4 (text m)) = "" ->
  handle_sr cid csecret u m w =
    (Ok Return,
     mkWorld (net w) (db w) (dblog w) (googleInstances w)
             (said w ++ [(channel m, prompt)])).
Proof.
  intros Hs Ht. unfold handle_sr. rewrite Hs, Ht. reflexivity.
Qed.

Lemma truthy_false (s : string) : JS.truthy s = false -> s = "".
Proof.
  unfold JS.truthy. intros E. apply negb_false_iff in E.
  now apply String.eqb_eq in E.
Qed.

Lemma quiet_handle_sr (u : User) (m : ChatMessage) :
  ~ (JS.startsWith (JS.toLowerCase (text m)) "!sr " = true /\
     JS.trim (JS.slice 4 (text m)) = "") ->
  quiet (handle_sr cid csecret u m).
Proof.
  intros Hn. unfold handle_sr.
  destruct (JS.startsWith _ _) eqn:Hs; [|apply quiet_ret].
  destruct (JS.truthy (JS.trim (JS.slice 4 (text m)))) eqn:Ht; simpl.
  - repeat first [apply quiet_getGoogleForUser | apply quiet_resolve_playlist
                 | quiet_step].
  - exfalso. apply Hn. split; [reflexivity|]. now apply truthy_false.
Qed.

(** After the request block, what is left of the handler. *)
Lemma quiet_after_sr (u : User) (m : ChatMessage) :
  ~ (JS.startsWith (JS.toLowerCase (text m)) "!sr " = true /\
     JS.trim (JS.slice 4 (text m)) = "") ->
  quiet
    (let* f := handle_sr cid csecret u m in
     match f with
     | Return => ret tt
     | Next =>
         let* f0 := handle_np cid csecret u m in
         match f0 with
         | Return => ret tt
         | Next => let* _ := handle_skip cid csecret u m in ret tt
         end
     end).
Proof.
  intros Hn. apply quiet_bind; [now apply quiet_handle_sr|].
  intros [|]; repeat first
    [apply quiet_handle_np | apply quiet_handle_skip | quiet_step].
Qed.

(** C10: a message whose text is the bare request word gets no reply and
    causes no action beyond the lookup of the channel's tenant; and the
    prompt for a missing argument is among the replies to a message exactly
    when the channel has a tenant, the text starts (in any case) with the
    request word and a space, and nothing but white space follows. *)
Theorem bare_request_word_ignored (m : ChatMessage) (w : World S) :
  (JS.toLowerCase (text m) = "!sr" ->
   onMessage cid csecret m w =
     (Ok tt, asked_store (DbFindFirst (JS.replace_first "#" (channel m))) w)) /\
  (forall r w',
     onMessage cid csecret m w = (r, w') ->
     exists l,
       said w' = said w ++ l /\
       (In prompt (map snd l) <->
        is_Some (channel_tenant m w) /\
        JS.startsWith (JS.toLowerCase (text m)) "!sr " = true /\
        JS.trim (JS.slice 4 (text m)) = "")).
Proof.
  split.
  - intros Ht.
    unfold onMessage, findFirst, log_db, bind, asked_store; simpl.
    destruct (find _ (db w)) as [u|]; [|reflexivity].
    unfold handle_sr, handle_np, handle_skip, ret.
    rewrite Ht. reflexivity.
  - intros r w' E. unfold onMessage, findFirst, log_db in E.
    unfold bind at 1 2 in E. simpl in E. fold (channel_tenant m w) in E.
    destruct (channel_tenant m w) as [u|] eqn:Ef.
    + destruct (JS.startsWith (JS.toLowerCase (text m)) "!sr ") eqn:Hs;
        [destruct (String.eqb (JS.trim (JS.slice 4 (text m))) "") eqn:Ht|].
      * apply String.eqb_eq in Ht.
        unfold bind in E. rewrite handle_sr_prompt in E by assumption.
        inversion E; subst; simpl. exists [(channel m, prompt)]. simpl.
        split; [reflexivity|]. split; [intros _|auto]. eauto.
      * apply String.eqb_neq in Ht.
        destruct (quiet_after_sr u m (fun C => Ht (proj2 C)) _ _ _ E)
          as (l & El & Nl).
        exists l. simpl in El. split; [assumption|]. tauto.
      * assert (Hn : ~ (false = true /\ JS.trim (JS.slice 4 (text m)) = ""))
          by (intros [? _]; discriminate).
        rewrite <- Hs in Hn.
        destruct (quiet_after_sr u m Hn _ _ _ E) as (l & El & Nl).
        exists l. simpl in El. split; [assumption|].
        split; [tauto|]. intros (_ & ? & _). discriminate.
    + inversion E; subst. exists []. simpl. rewrite app_nil_r.
      split; [reflexivity|]. split; [tauto|]. intros ([? ?] & _). discriminate.
Qed.

End DispatcherFacts.

Lemma skip_unprivileged_ignored_witness :
  onMessage (sim := dice) "client" "secret" (chat "#streamer" "!SKIP" false false)
            (world_of studio) =
  (Ok tt, asked_store (DbFindFirst "streamer") (world_of studio)).
Proof.
  exact (skip_unprivileged_ignored (sim := dice) "client" "secret"
           (chat "#streamer" "!SKIP" false false) (world_of studio)
           eq_refl eq_refl eq_refl).
Defined.

Lemma bare_request_word_ignored_witness :
  onMessage (sim := dice) "client" "secret" (chat "#streamer" "!sr" false false)
            (world_of studio) =
  (Ok tt, asked_store (DbFindFirst "streamer") (world_of studio)).
Proof.
  exact (proj1 (bare_request_word_ignored (sim := dice) "client" "secret"
                  (chat "#streamer" "!sr" false false) (world_of studio))
               eq_refl).
Defined.

(** The handler at work on the example account. *)

Example moderator_skips :
  said (snd (onMessage (sim := dice) "client" "secret"
               (chat "#streamer" "!skip" true false) (world_of studio))) =
  [("#streamer", "⏭ Skipped!")].
Proof. vm_compute. reflexivity. Qed.

Example request_by_search :
  let w' := snd (onMessage (sim := dice) "client" "secret"
                   (chat "#streamer" "!sr hello adele" false false)
                   (world_of studio)) in
  said w' = [("#streamer", "✓ Added: Hello — Adele")] /\
  calls (net w') =
    [CYtmInitialize None; CGetAccessToken "rt-1"; CYtmSearch "hello adele";
     CGetAccessToken "rt-1"; CItemsInsert "rt-1" "PL-queue" "YQHsXMglC9A"].
Proof. vm_compute. split; reflexivity. Qed.

Example request_by_link :
  said (snd (onMessage (sim := dice) "client" "secret"
               (chat "#streamer" "!sr https://youtu.be/dQw4w9WgXcQ" false false)
               (world_of studio))) =
  [("#streamer", "✓ Added to queue: https://youtu.be/dQw4w9WgXcQ")].
Proof. vm_compute. reflexivity. Qed.

Example request_without_argument :
  said (snd (onMessage (sim := dice) "client" "secret"
               (chat "#streamer" "!SR   " false false) (world_of studio))) =
  [("#streamer", prompt)].
Proof. vm_compute. reflexivity. Qed.

Example request_when_initialization_fails :
  let w' := snd (onMessage (sim := dice) "client" "secret"
                   (chat "#streamer" "!sr hello" false false)
                   (world_of studio_cold)) in
  said w' = [("#streamer", "Sorry, something went wrong with your request!")] /\
  googleInstances w' !! "u1" = None.
Proof. vm_compute. split; reflexivity. Qed.

(** ** The roster reconciler *)

Section ReconcilerFacts.
Context {T : Type} {chat_api : ChatTransport T}.

Lemma chat_call_ok (c : RosterCall) (f : T -> result unit * T) (st : Roster T)
      (t' : T) :
  f (transport st) = (Ok tt, t') ->
  chat_call c f st = (Ok tt, mkRoster t' (channels st) (rcalls st ++ [c])).
Proof. unfold chat_call. now intros ->. Qed.

(** One turn of the first loop for a tenant that is already joined. *)
Lemma join_loop_joined (u : User) (rest : list User) (st : Roster T) :
  includes_channel (twitchUsername u) (channels st) = true ->
  join_loop (u :: rest) st = join_loop rest st.
Proof. intros E. simpl. unfold bind. now rewrite E. Qed.

(** One turn of the first loop for a new tenant whose calls succeed. *)
Lemma join_loop_new (u : User) (rest : list User) (st : Roster T) (t1 t2 : T) :
  includes_channel (twitchUsername u) (channels st) = false ->
  addUser (twitchUserId u) (twitchAccessToken u) (twitchRefreshToken u)
          (transport st) = (Ok tt, t1) ->
  join (twitchUsername u) t1 = (Ok tt, t2) ->
  join_loop (u :: rest) st =
  join_loop rest
    (mkRoster t2 (channels st ++ [twitchUsername u])
              (rcalls st ++ [RAddUser (twitchUserId u); RJoin (twitchUsername u)])).
Proof.
  intros E Hadd Hjoin. simpl. unfold bind at 1. rewrite E. simpl negb. cbv iota.
  unfold try_catch, bind at 1.
  rewrite (chat_call_ok _ _ _ t1) by exact Hadd. unfold bind at 1.
  rewrite (chat_call_ok _ _ _ t2) by exact Hjoin. unfold push. simpl.
  rewrite <- app_assoc. reflexivity.
Qed.

(** One turn of the second loop on a channel whose tenant is active. *)
Lemma part_loop_active (fuel : nat) (users : list User) (i : nat)
      (st : Roster T) (ch : string) (u : User) :
  nth_error (channels st) i = Some ch ->
  find_user ch users = Some u ->
  part_loop (Datatypes.S fuel) users i st = part_loop fuel users (Datatypes.S i) st.
Proof. intros E F. simpl. rewrite E. unfold bind. rewrite F. reflexivity. Qed.

(** One turn of the second loop on a stale channel whose [part] succeeds. *)
Lemma part_loop_stale (fuel : nat) (users : list User) (i : nat)
      (st : Roster T) (ch : string) (j : nat) (t' : T) :
  nth_error (channels st) i = Some ch ->
  find_user ch users = None ->
  part ch (transport st) = (Ok tt, t') ->
  indexOf ch (channels st) = Some j ->
  part_loop (Datatypes.S fuel) users i st =
  part_loop fuel users (Datatypes.S i)
    (mkRoster t' (splice1 j (channels st)) (rcalls st ++ [RPart ch])).
Proof.
  intros E F P I. simpl. rewrite E. unfold bind at 1. rewrite F.
  unfold bind at 1. rewrite (chat_call_ok _ _ _ t') by assumption.
  unfold drop_channel. simpl. rewrite I. reflexivity.
Qed.

(** One turn of the second loop on a stale channel whose [part] throws: the
    loop ends there, with the error, and the array is left as it was. *)
Lemma part_loop_throws (fuel : nat) (users : list User) (i : nat)
      (st : Roster T) (ch e : string) (t' : T) :
  nth_error (channels st) i = Some ch ->
  find_user ch users = None ->
  part ch (transport st) = (Throw e, t') ->
  part_loop (Datatypes.S fuel) users i st =
  (Throw e, mkRoster t' (channels st) (rcalls st ++ [RPart ch])).
Proof.
  intros E F P. simpl. rewrite E. unfold bind at 1. rewrite F.
  unfold bind at 1, chat_call. now rewrite P.
Qed.

Lemma part_loop_done (fuel : nat) (users : list User) (i : nat) (st : Roster T) :
  nth_error (channels st) i = None ->
  part_loop fuel users i st = (Ok tt, st).
Proof. intros E. destruct fuel; simpl; [reflexivity|]. now rewrite E. Qed.

(** The fuel of the second loop is never what stops it: with as many turns
    as the array has elements left, the loop ends because the iterator ran
    off the array, and more fuel changes nothing. *)
Lemma part_loop_fuel (users : list User) (fuel : nat) :
  forall (i : nat) (st : Roster T) (extra : nat),
    length (channels st) - i <= fuel ->
    part_loop (fuel + extra) users i st = part_loop fuel users i st.
Proof.
  induction fuel as [|fuel IH]; intros i st extra Hle.
  - simpl Nat.add. rewrite !part_loop_done; [reflexivity| |];
      apply nth_error_None; lia.
  - simpl. destruct (nth_error (channels st) i) as [ch|] eqn:E; [|reflexivity].
    assert (Hi : i < length (channels st))
      by (apply nth_error_Some; congruence).
    unfold bind, ret, chat_call, drop_channel.
    destruct (find_user ch users).
    + apply IH. lia.
    + destruct (part ch (transport st)) as [[[]|e] t']; [|reflexivity].
      simpl. destruct (indexOf ch (channels st)) as [j|] eqn:I.
      * apply IH. simpl. unfold splice1.
        rewrite length_app, length_firstn, length_skipn. lia.
      * apply IH. simpl. lia.
Qed.

End ReconcilerFacts.

Section ReconcilerScenario.
Context {T : Type} {chat_api : ChatTransport T}.

Lemma perm_pair {A} (a b : A) (l : list A) :
  Permutation l [a; b] -> l = [a; b] \/ l = [b; a].
Proof. intros P. apply Permutation_sym in P. now apply Permutation_length_2_inv. Qed.

(** C2: with active tenants A and B and joined channels A and C, and when
    the calls that register and join B and part C succeed, one tick leaves
    the joined channels A and B: it registers and joins B, then parts C and
    drops it from the bookkeeping, and makes no call about A. *)
Theorem tick_scenario
        (rows : list User) (uA uB : User) (C : string) (st : Roster T)
        (t1 t2 t3 : T) :
  twitchUsername uA <> twitchUsername uB ->
  twitchUsername uA <> C ->
  twitchUsername uB <> C ->
  Permutation (List.filter isActive rows) [uA; uB] ->
  Permutation (channels st) [twitchUsername uA; C] ->
  addUser (twitchUserId uB) (twitchAccessToken uB) (twitchRefreshToken uB)
          (transport st) = (Ok tt, t1) ->
  join (twitchUsername uB) t1 = (Ok tt, t2) ->
  part C t2 = (Ok tt, t3) ->
  tick rows st =
  (Ok tt,
   mkRoster t3 [twitchUsername uA; twitchUsername uB]
            (rcalls st ++ [RAddUser (twitchUserId uB);
                           RJoin (twitchUsername uB); RPart C])).
Proof.
  intros AB AC BC Pu Pc Hadd Hjoin Hpart.
  set (A := twitchUsername uA) in *. set (B := twitchUsername uB) in *.
  assert (EAA : String.eqb A A = true) by apply String.eqb_refl.
  assert (EBB : String.eqb B B = true) by apply String.eqb_refl.
  assert (ECC : String.eqb C C = true) by apply String.eqb_refl.
  assert (EAB : String.eqb A B = false) by now apply String.eqb_neq.
  assert (EBA : String.eqb B A = false) by (apply String.eqb_neq; congruence).
  assert (EAC : String.eqb A C = false) by now apply String.eqb_neq.
  assert (ECA : String.eqb C A = false) by (apply String.eqb_neq; congruence).
  assert (EBC : String.eqb B C = false) by now apply String.eqb_neq.
  assert (ECB : String.eqb C B = false) by (apply String.eqb_neq; congruence).
  (* the first loop appends B, whatever the orders *)
  assert (Join :
    join_loop (List.filter isActive rows) st =
    (Ok tt, mkRoster t2 (channels st ++ [B])
                     (rcalls st ++ [RAddUser (twitchUserId uB); RJoin B]))).
  { assert (InA : includes_channel A (channels st) = true).
    { destruct (perm_pair _ _ _ Pc) as [-> | ->]; simpl; fold A;
        rewrite ?EAA, ?EAC; reflexivity. }
    assert (InB : includes_channel B (channels st) = false).
    { destruct (perm_pair _ _ _ Pc) as [-> | ->]; simpl; fold A;
        rewrite ?EBA, ?EBC; reflexivity. }
    destruct (perm_pair _ _ _ Pu) as [-> | ->].
    - rewrite join_loop_joined by exact InA.
      now rewrite (join_loop_new uB [] st t1 t2 InB Hadd Hjoin).
    - rewrite (join_loop_new uB [uA] st t1 t2 InB Hadd Hjoin).
      rewrite join_loop_joined; [reflexivity|].
      simpl channels. unfold includes_channel in *. rewrite existsb_app.
      fold A. now rewrite InA. }
  unfold tick, bind. rewrite Join. simpl channels.
  (* the second loop parts C, whatever the orders *)
  assert (FA : find_user A (List.filter isActive rows) <> None).
  { destruct (perm_pair _ _ _ Pu) as [-> | ->]; unfold find_user; simpl;
      fold A; fold B; rewrite ?EAA, ?EBA; discriminate. }
  assert (FB : find_user B (List.filter isActive rows) <> None).
  { destruct (perm_pair _ _ _ Pu) as [-> | ->]; unfold find_user; simpl;
      fold A; fold B; rewrite ?EBB, ?EAB; discriminate. }
  assert (FC : find_user C (List.filter isActive rows) = None).
  { destruct (perm_pair _ _ _ Pu) as [-> | ->]; unfold find_user; simpl;
      fold A; fold B; rewrite ?EAC, ?EBC; reflexivity. }
  destruct (find_user A (List.filter isActive rows)) as [a|] eqn:FA';
    [clear FA | congruence].
  destruct (find_user B (List.filter isActive rows)) as [b|] eqn:FB';
    [clear FB | congruence].
  destruct (perm_pair _ _ _ Pc) as [Ec | Ec]; rewrite Ec; simpl app; simpl length.
  - (* channels: A, C, B *)
    rewrite (part_loop_active _ _ 0 _ A a) by (try reflexivity; assumption).
    rewrite (part_loop_stale _ _ 1 _ C 1 t3);
      [ | reflexivity | assumption | exact Hpart
        | simpl; fold A; rewrite EAC, ECC; reflexivity ].
    rewrite part_loop_done by reflexivity.
    simpl. rewrite <- app_assoc. reflexivity.
  - (* channels: C, A, B *)
    rewrite (part_loop_stale _ _ 0 _ C 0 t3);
      [ | reflexivity | assumption | exact Hpart
        | simpl; rewrite ECC; reflexivity ].
    rewrite (part_loop_active _ _ 1 _ B b) by (try reflexivity; assumption).
    rewrite part_loop_done by reflexivity.
    simpl. rewrite <- app_assoc. reflexivity.
Qed.

(** A failure in the first loop never ends the tick: the loop goes on to the
    next tenant. *)
Lemma join_loop_never_throws (users : list User) :
  forall st : Roster T, fst (join_loop users st) = Ok tt.
Proof.
  induction users as [|u users IH]; intros st; [reflexivity|].
  simpl. unfold bind at 1.
  destruct (negb (includes_channel (twitchUsername u) (channels st))).
  - unfold try_catch.
    destruct (bind _ _ st) as [[[]|e] st']; [apply IH|]. unfold ret. apply IH.
  - apply IH.
Qed.

End ReconcilerScenario.

Lemma tick_scenario_witness :
  tick [row "a"; row "b"] (mkRoster no_outage ["a"; "c"] []) =
  (Ok tt, mkRoster no_outage ["a"; "b"] [RAddUser "tw-b"; RJoin "b"; RPart "c"]).
Proof.
  apply (tick_scenario [row "a"; row "b"] (row "a") (row "b") "c"
                       (mkRoster no_outage ["a"; "c"] [])
                       no_outage no_outage no_outage);
    try discriminate; reflexivity.
Defined.

(** Join failures are isolated: the tenant whose join fails is skipped, the
    next one is joined in the same tick. *)
Example tick_join_failure_isolated :
  tick [row "a"; row "b"; row "e"] (mkRoster join_b_down ["a"] []) =
  (Ok tt,
   mkRoster join_b_down ["a"; "e"]
            [RAddUser "tw-b"; RJoin "b"; RAddUser "tw-e"; RJoin "e"]).
Proof. vm_compute. reflexivity. Qed.

(** The iterator of the second loop reads the array it splices: after a
    removal the next channel moves into the slot just visited and is not
    looked at in this tick. *)
Example tick_skips_after_splice :
  tick [row "a"] (mkRoster no_outage ["a"; "c"; "d"] []) =
  (Ok tt, mkRoster no_outage ["a"; "d"] [RPart "c"]).
Proof. vm_compute. reflexivity. Qed.

(** C3 (the code at the failing input): with tenant "a" active and channels
    "c", "a", "d" joined, a [part] of "c" that throws ends the tick: the
    error leaves the callback and "d" gets no call, although the same tick
    parts "d" when the [part] of "c" succeeds. *)
Theorem tick_part_failure_ends_tick :
  tick [row "a"] (mkRoster part_c_down ["c"; "a"; "d"] []) =
    (Throw "failed: c", mkRoster part_c_down ["c"; "a"; "d"] [RPart "c"]) /\
  tick [row "a"] (mkRoster no_outage ["c"; "a"; "d"] []) =
    (Ok tt, mkRoster no_outage ["a"] [RPart "c"; RPart "d"]).
Proof. split; vm_compute; reflexivity. Qed.

(** * Further properties of the code

    Error and edge behaviour of the playlist client, what the message
    handler leaves as it is, and invariants of the roster reconciler, read
    off the code. *)

(** ** More on the playlist client *)

Section ClientErrors.
Context {S : Type} {api : YouTubeApi S}.

(** X1: when the access token cannot be obtained, [ensurePlaylist],
    [addToPlaylist], [skipFirst] and [nowPlaying] all throw the same
    authentication message, after the token request and no other call, and
    leave the remote state as it was; [addToPlaylist] does not replace the
    message.  [initialize] throws it too, once the catalog client is warmed
    up. *)
Theorem token_failure_stops_the_call
        (g : Google) (n : Net S) (e : string) :
  getAccessToken (g_refreshToken g) (remote n) = Throw e ->
  let n' := mkNet (remote n) (calls n ++ [CGetAccessToken (g_refreshToken g)]) in
  (forall name, ensurePlaylist g name n = (Throw auth_failed, n')) /\
  (forall playlistId videoId,
      addToPlaylist g playlistId videoId n = (Throw auth_failed, n')) /\
  (forall playlistId, skipFirst g playlistId n = (Throw auth_failed, n')) /\
  (forall playlistId, nowPlaying g playlistId n = (Throw auth_failed, n')) /\
  (ytmusic_initialize (g_cookies g) (remote n) = Ok tt ->
   initialize g n =
   (Throw auth_failed,
    mkNet (remote n)
          (calls n ++ [CYtmInitialize (g_cookies g);
                       CGetAccessToken (g_refreshToken g)]))).
Proof.
  intros Tok n'. repeat split; intros.
  - rewrite ensurePlaylist_run. cbv zeta. now rewrite Tok.
  - unfold addToPlaylist, try_catch. unfold bind at 1.
    rewrite ensureGoogleAccess_run, Tok. reflexivity.
  - unfold skipFirst, try_catch. unfold bind at 1.
    rewrite ensureGoogleAccess_run, Tok. reflexivity.
  - unfold nowPlaying, try_catch. unfold bind at 1.
    rewrite ensureGoogleAccess_run, Tok. reflexivity.
  - unfold initialize, try_catch, bind, call_read at 1. rewrite H.
    rewrite ensureGoogleAccess_run. simpl remote. rewrite Tok. simpl calls.
    rewrite <- app_assoc. reflexivity.
Qed.

(** X2: [addToPlaylist] makes one insert call after the token request.  An
    insert error whose message mentions [videoNotFound] is replaced by
    "Video not found or unavailable", one that mentions
    [playlistItemsNotAccessible] (and not [videoNotFound]) by "Cannot access
    playlist. Check permissions."; any other error is rethrown as it is. *)
Theorem addToPlaylist_outcome
        (g : Google) (playlistId videoId : string) (n : Net S)
        (r : result unit) (s1 : S) :
  getAccessToken (g_refreshToken g) (remote n) = Ok tt ->
  playlistItems_insert (g_refreshToken g) playlistId videoId (remote n) = (r, s1) ->
  addToPlaylist g playlistId videoId n =
  (match r with Ok _ => Ok tt | Throw e => Throw (add_error e) end,
   mkNet s1 (calls n ++ [CGetAccessToken (g_refreshToken g);
                         CItemsInsert (g_refreshToken g) playlistId videoId])).
Proof.
  intros Tok Ins. unfold addToPlaylist, try_catch. unfold bind at 1.
  rewrite ensureGoogleAccess_run, Tok. unfold call_write. simpl remote.
  rewrite Ins. simpl calls. rewrite <- app_assoc. simpl app.
  destruct r as [[]|e]; [reflexivity|].
  unfold add_error, throw.
  destruct (includes e "videoNotFound"); [reflexivity|].
  destruct (includes e "playlistItemsNotAccessible"); reflexivity.
Qed.

Lemma scan_outcome_skip (name : string) (before : list (list Playlist))
      (rest : list (result (list Playlist))) :
  Forall (page_without name) before ->
  scan_outcome name (map Ok before ++ rest) =
  (fst (scan_outcome name rest), length before + snd (scan_outcome name rest)).
Proof.
  induction 1 as [|p before Hp _ IH]; simpl.
  - now destruct (scan_outcome name rest).
  - unfold page_without in Hp. rewrite Hp, IH. reflexivity.
Qed.

Lemma scan_page_find (name : string) (p : list Playlist) :
  scan_page name p =
  match List.find (title_matches name) p with
  | Some pl => pl_id pl
  | None => None
  end.
Proof.
  induction p as [|a p IH]; simpl; [reflexivity|].
  destruct (title_matches name a); [reflexivity | exact IH].
Qed.

Lemma first_pages_app (before : list (list Playlist))
      (x : result (list Playlist)) (rest : list (result (list Playlist))) :
  first_pages (map Ok before ++ x :: rest) = map Ok before ++ x :: rest.
Proof. destruct before; reflexivity. Qed.

(** X3: [ensurePlaylist] returns the id of the first playlist, in listing
    order, whose title matches the name, when that playlist has an id.  It
    stops paging at the page that holds it (later pages are not requested),
    creates nothing and leaves the remote state as it was. *)
Theorem ensurePlaylist_returns_first_match
        (g : Google) (name : string) (n : Net S)
        (before : list (list Playlist)) (p : list Playlist)
        (after : list (result (list Playlist))) (pl : Playlist) (id : string) :
  getAccessToken (g_refreshToken g) (remote n) = Ok tt ->
  playlists_list (g_refreshToken g) (remote n) = map Ok before ++ Ok p :: after ->
  Forall (page_without name) before ->
  List.find (title_matches name) p = Some pl ->
  pl_id pl = Some id -> JS.truthy id = true ->
  ensurePlaylist g name n =
  (Ok id,
   mkNet (remote n)
         (calls n ++ CGetAccessToken (g_refreshToken g)
                  :: map (CPlaylistsList (g_refreshToken g))
                         (seq 0 (Datatypes.S (length before))))).
Proof.
  intros Tok L Hb Hf Hid Tid. rewrite ensurePlaylist_run. cbv zeta.
  rewrite Tok, L, first_pages_app, scan_outcome_skip by assumption.
  simpl scan_outcome. rewrite scan_page_find, Hf, Hid. simpl JS.truthy_opt.
  rewrite Tid. simpl fst. simpl snd. rewrite Nat.add_1_r. reflexivity.
Qed.

(** X4: when no page of the listing yields an id for the name,
    [ensurePlaylist] requests every page and then makes exactly one creation
    call, with the name as given for title, the fixed description and
    privacy "unlisted".  It returns the id of the answer; when the answer
    carries no id it throws "Failed to create playlist", the creation call
    having been made. *)
Theorem ensurePlaylist_creates_once
        (g : Google) (name : string) (n : Net S)
        (ps : list (list Playlist)) (newId : option string) (s1 : S) :
  getAccessToken (g_refreshToken g) (remote n) = Ok tt ->
  playlists_list (g_refreshToken g) (remote n) = map Ok ps ->
  Forall (page_without name) ps ->
  playlists_insert (g_refreshToken g) name description "unlisted" (remote n)
  = (Ok newId, s1) ->
  ensurePlaylist g name n =
  (if JS.truthy_opt newId then Ok (default "" newId)
   else Throw "Failed to create playlist",
   mkNet s1
         (calls n ++ CGetAccessToken (g_refreshToken g)
                  :: map (CPlaylistsList (g_refreshToken g))
                         (seq 0 (Nat.max 1 (length ps)))
                  ++ [CPlaylistsInsert (g_refreshToken g) name description
                                       "unlisted"])).
Proof.
  intros Tok L Hps Ins. rewrite ensurePlaylist_run. cbv zeta.
  rewrite Tok, L.
  assert (E : scan_outcome name (first_pages (map Ok ps))
              = (Ok None, Nat.max 1 (length ps))).
  { destruct ps as [|p ps]; [reflexivity|].
    change (first_pages (map Ok (p :: ps))) with (map Ok (p :: ps)).
    rewrite <- (app_nil_r (map Ok (p :: ps))).
    rewrite scan_outcome_skip by assumption. simpl.
    now rewrite Nat.add_0_r. }
  rewrite E, Ins. rewrite <- app_assoc. simpl app.
  destruct (JS.truthy_opt newId); reflexivity.
Qed.

(** X5: when a page of the listing fails before any id was found,
    [ensurePlaylist] throws that error: it requests no further page, makes
    no creation call and leaves the remote state as it was. *)
Theorem ensurePlaylist_listing_failure
        (g : Google) (name : string) (n : Net S)
        (before : list (list Playlist)) (e : string)
        (after : list (result (list Playlist))) :
  getAccessToken (g_refreshToken g) (remote n) = Ok tt ->
  playlists_list (g_refreshToken g) (remote n) = map Ok before ++ Throw e :: after ->
  Forall (page_without name) before ->
  ensurePlaylist g name n =
  (Throw e,
   mkNet (remote n)
         (calls n ++ CGetAccessToken (g_refreshToken g)
                  :: map (CPlaylistsList (g_refreshToken g))
                         (seq 0 (Datatypes.S (length before))))).
Proof.
  intros Tok L Hb. rewrite ensurePlaylist_run. cbv zeta.
  rewrite Tok, L, first_pages_app, scan_outcome_skip by assumption.
  simpl. rewrite Nat.add_1_r. reflexivity.
Qed.

(** X30: [nowPlaying] only reads: it leaves the remote state as it was.  It
    returns null exactly when the listing of the playlist is empty; the
    channel of the answer is never empty (it falls back to "Unknown"), and
    the answer carries a link exactly when the first item names a video. *)
Theorem nowPlaying_answer
        (g : Google) (playlistId : string) (n : Net S)
        (items : list PlaylistItem) :
  getAccessToken (g_refreshToken g) (remote n) = Ok tt ->
  playlistItems_list (g_refreshToken g) playlistId 1 (remote n) = Ok items ->
  exists o,
    nowPlaying g playlistId n =
    (Ok o,
     mkNet (remote n)
           (calls n ++ [CGetAccessToken (g_refreshToken g);
                        CItemsList (g_refreshToken g) playlistId 1])) /\
    (o = None <-> items = []) /\
    forall np, o = Some np ->
      np_channel np <> "" /\
      exists it, head items = Some it /\
                 (is_Some (np_url np) <-> JS.truthy_opt (it_videoId it) = true).
Proof.
  intros Tok L. unfold nowPlaying, try_catch. unfold bind at 1.
  rewrite ensureGoogleAccess_run, Tok. unfold bind, call_read. simpl remote.
  rewrite L. simpl calls. rewrite <- app_assoc. simpl app.
  destruct items as [|it items]; unfold ret.
  - exists None. split; [reflexivity|]. split; [tauto | discriminate].
  - eexists. split; [reflexivity|]. split; [split; discriminate|].
    intros np E. inversion E; subst np. simpl. split.
    + destruct (it_videoOwnerChannelTitle it) as [[|c s]|]; simpl;
        try discriminate;
        destruct (it_channelTitle it) as [[|d t]|]; simpl; discriminate.
    + exists it. split; [reflexivity|].
      destruct (JS.truthy_opt (it_videoId it)); split; eauto;
        first [intros [? ?]; discriminate | discriminate].
Qed.

End ClientErrors.

Lemma token_failure_stops_the_call_witness :
  ensurePlaylist requests_bot "Requests" (mkNet studio_locked [])
  = (Throw auth_failed, mkNet studio_locked [CGetAccessToken "rt-1"]).
Proof.
  apply (token_failure_stops_the_call requests_bot (mkNet studio_locked [])
           "invalid_grant").
  reflexivity.
Defined.

Lemma addToPlaylist_outcome_witness :
  addToPlaylist requests_bot "PL-queue" "dQw4w9WgXcQ" (mkNet studio_video_gone [])
  = (Throw "Video not found or unavailable",
     mkNet studio_video_gone
           [CGetAccessToken "rt-1"; CItemsInsert "rt-1" "PL-queue" "dQw4w9WgXcQ"]).
Proof.
  apply (addToPlaylist_outcome requests_bot "PL-queue" "dQw4w9WgXcQ"
           (mkNet studio_video_gone [])
           (Throw "The video cannot be found. (videoNotFound)")
           studio_video_gone); reflexivity.
Defined.

Lemma ensurePlaylist_returns_first_match_witness :
  ensurePlaylist requests_bot " chill" (mkNet studio [])
  = (Ok "PL-chill",
     mkNet studio [CGetAccessToken "rt-1"; CPlaylistsList "rt-1" 0]).
Proof.
  apply (ensurePlaylist_returns_first_match requests_bot " chill" (mkNet studio [])
           [] [{| pl_id := Some "PL-chill"; pl_title := Some "Chill" |}] []
           {| pl_id := Some "PL-chill"; pl_title := Some "Chill" |} "PL-chill");
    first [reflexivity | constructor].
Defined.

Lemma ensurePlaylist_creates_once_witness :
  ensurePlaylist requests_bot "Requests" (mkNet studio [])
  = (Ok "PL-1",
     mkNet (ac_create "Requests" studio)
           [CGetAccessToken "rt-1"; CPlaylistsList "rt-1" 0;
            CPlaylistsInsert "rt-1" "Requests" description "unlisted"]).
Proof.
  apply (ensurePlaylist_creates_once requests_bot "Requests" (mkNet studio [])
           (ac_playlists studio) (Some "PL-1") (ac_create "Requests" studio));
    first [reflexivity | repeat constructor].
Defined.

Lemma ensurePlaylist_listing_failure_witness :
  ensurePlaylist requests_bot "Requests" (mkNet studio_list_down [])
  = (Throw "quotaExceeded",
     mkNet studio_list_down [CGetAccessToken "rt-1"; CPlaylistsList "rt-1" 0]).
Proof.
  apply (ensurePlaylist_listing_failure requests_bot "Requests"
           (mkNet studio_list_down []) [] "quotaExceeded" []);
    first [reflexivity | constructor].
Defined.

Lemma nowPlaying_answer_witness :
  exists o,
    nowPlaying requests_bot "PL-queue" (mkNet studio []) =
    (Ok o, mkNet studio [CGetAccessToken "rt-1"; CItemsList "rt-1" "PL-queue" 1]) /\
    (o = None <-> [item (Some "it-1") "One"] = []) /\
    forall np, o = Some np ->
      np_channel np <> "" /\
      exists it, head [item (Some "it-1") "One"] = Some it /\
                 (is_Some (np_url np) <-> JS.truthy_opt (it_videoId it) = true).
Proof.
  apply (nowPlaying_answer requests_bot "PL-queue" (mkNet studio [])
           [item (Some "it-1") "One"]); reflexivity.
Defined.

(** ** Names that differ in case or in surrounding white space *)

Lemma trimStart_blank (p l : list ascii) :
  blank p -> JS.trimStart_chars (p ++ l) = JS.trimStart_chars l.
Proof.
  unfold blank. induction p as [|c p IH]; simpl; [reflexivity|].
  intros H. apply andb_true_iff in H as [Hc Hp]. rewrite Hc. auto.
Qed.

Lemma trimStart_app (l q : list ascii) :
  JS.trimStart_chars (l ++ q) =
  match JS.trimStart_chars l with
  | [] => JS.trimStart_chars q
  | c :: l' => (c :: l') ++ q
  end.
Proof.
  induction l as [|c l IH]; simpl.
  - reflexivity.
  - destruct (JS.is_space c); [exact IH | reflexivity].
Qed.

Lemma trimStart_all_blank (q : list ascii) : blank q -> JS.trimStart_chars q = [].
Proof.
  intros H. rewrite <- (app_nil_r q). rewrite trimStart_blank by assumption.
  reflexivity.
Qed.

Lemma blank_rev (q : list ascii) : blank q -> blank (rev q).
Proof.
  unfold blank. rewrite !forallb_forall. intros H x Hx. apply H.
  now apply in_rev.
Qed.

(** [trim] ignores white space around the text. *)
Lemma trim_chars_padding (p1 l p2 : list ascii) :
  blank p1 -> blank p2 -> JS.trim_chars (p1 ++ l ++ p2) = JS.trim_chars l.
Proof.
  intros H1 H2. unfold JS.trim_chars.
  rewrite trimStart_blank by assumption. rewrite trimStart_app.
  destruct (JS.trimStart_chars l) as [|c l'] eqn:E.
  - now rewrite (trimStart_all_blank p2).
  - rewrite rev_app_distr. rewrite trimStart_blank by now apply blank_rev.
    reflexivity.
Qed.

Lemma is_space_lower (c : ascii) : JS.is_space (JS.lower_char c) = JS.is_space c.
Proof. destruct c as [[] [] [] [] [] [] [] []]; vm_compute; reflexivity. Qed.

Lemma lower_char_idem (c : ascii) : JS.lower_char (JS.lower_char c) = JS.lower_char c.
Proof. destruct c as [[] [] [] [] [] [] [] []]; vm_compute; reflexivity. Qed.

Lemma trimStart_lower (l : list ascii) :
  JS.trimStart_chars (map JS.lower_char l) = map JS.lower_char (JS.trimStart_chars l).
Proof.
  induction l as [|c l IH]; simpl; [reflexivity|].
  rewrite is_space_lower. destruct (JS.is_space c); [exact IH | reflexivity].
Qed.

Lemma trim_chars_lower (l : list ascii) :
  JS.trim_chars (map JS.lower_char l) = map JS.lower_char (JS.trim_chars l).
Proof.
  unfold JS.trim_chars.
  now rewrite trimStart_lower, <- map_rev, trimStart_lower, map_rev.
Qed.

Lemma lower_trim_padding (p1 p2 : list ascii) (name : string) :
  blank p1 -> blank p2 ->
  JS.toLowerCase (JS.trim (JS.str (p1 ++ JS.chars name ++ p2)))
  = JS.toLowerCase (JS.trim name).
Proof.
  intros H1 H2. unfold JS.trim. rewrite chars_str.
  now rewrite trim_chars_padding.
Qed.

Lemma lower_trim_lower (name : string) :
  JS.toLowerCase (JS.trim (JS.toLowerCase name)) = JS.toLowerCase (JS.trim name).
Proof.
  unfold JS.toLowerCase, JS.trim. rewrite !chars_str. rewrite trim_chars_lower.
  rewrite map_map. f_equal. apply map_ext. intros c. apply lower_char_idem.
Qed.

Section NameTolerance.
Context {S : Type} {api : YouTubeApi S}.

Lemma scan_pages_same_name (cred a b : string) :
  JS.toLowerCase (JS.trim a) = JS.toLowerCase (JS.trim b) ->
  forall pages i (n : Net S),
    scan_pages cred a i pages n = scan_pages cred b i pages n.
Proof.
  intros E.
  assert (P : forall items, scan_page a items = scan_page b items).
  { induction items as [|pl items IH]; simpl; [reflexivity|].
    unfold title_matches. rewrite E, IH. reflexivity. }
  induction pages as [|p pages IH]; intros i n; simpl; [reflexivity|].
  unfold bind. destruct (call_read (CPlaylistsList cred i) (fun _ => p) n)
    as [[items|e] n1]; [|reflexivity].
  rewrite P. destruct (JS.truthy_opt (scan_page b items)); [reflexivity|].
  apply IH.
Qed.

(** X6: the search of [ensurePlaylist] compares names without regard to
    case or to surrounding white space: for a name padded with white space,
    and for the lower-cased name, it makes the same requests and finds the
    same playlist as for the name itself. *)
Theorem find_playlist_ignores_case_and_padding
        (g : Google) (name : string) (p1 p2 : list ascii) (n : Net S) :
  blank p1 -> blank p2 ->
  find_playlist g (JS.str (p1 ++ JS.chars name ++ p2)) n = find_playlist g name n /\
  find_playlist g (JS.toLowerCase name) n = find_playlist g name n.
Proof.
  intros H1 H2. unfold find_playlist. split.
  - apply scan_pages_same_name. now apply lower_trim_padding.
  - apply scan_pages_same_name. apply lower_trim_lower.
Qed.

End NameTolerance.

Lemma find_playlist_ignores_case_and_padding_witness :
  find_playlist requests_bot "  Chill " (mkNet studio [])
  = find_playlist requests_bot "Chill" (mkNet studio []).
Proof.
  apply (find_playlist_ignores_case_and_padding requests_bot "Chill"
           (JS.chars "  ") (JS.chars " ") (mkNet studio [])); reflexivity.
Defined.

(** ** More on searchBestMatch *)

Section SearchErrors.
Context {S : Type} {api : YouTubeApi S} {sim : StringSimilarity}.

Lemma pickBest_ok (query : string) (results : list SearchResult) :
  exists o, pickBest query results = Ok o /\
            forall p, o = Some p -> exists top, In top results /\ p = toSongPick top.
Proof.
  destruct (pickBest_spec query results) as
    [[F P]|(pre & top & post & F & P & _)].
  - exists None. split; [assumption | discriminate].
  - exists (Some (toSongPick top)). split; [assumption|].
    intros p E. inversion E; subst p. exists top. split; [|reflexivity].
    assert (Hin : In top (List.filter is_song results)).
    { rewrite F. apply in_or_app. right. left. reflexivity. }
    now apply filter_In in Hin.
Qed.

Lemma pick_title_nonempty (top : SearchResult) : pick_title top <> "".
Proof.
  unfold pick_title.
  destruct (sr_title top) as [[|c t]|]; simpl;
    destruct (sr_name top) as [[|d m]|]; simpl; discriminate.
Qed.

(** X7: [searchBestMatch] makes the search call and no other, and leaves
    the remote state as it was, whatever it returns or throws.  An error of
    the catalog search is rethrown as it is.  A track it returns never has
    an empty title: the title falls back to the name and then to
    "Unknown Song". *)
Theorem searchBestMatch_rethrows_search_error
        (g : Google) (query : string) (n : Net S) :
  (forall e, ytmusic_search query (remote n) = Throw e ->
             fst (searchBestMatch g query n) = Throw e) /\
  snd (searchBestMatch g query n) = mkNet (remote n) (calls n ++ [CYtmSearch query]) /\
  (forall p, fst (searchBestMatch g query n) = Ok (Some p) -> title p <> "").
Proof.
  unfold searchBestMatch, try_catch, bind, call_read, throw.
  destruct (ytmusic_search query (remote n)) as [results|e0] eqn:E; simpl.
  - destruct (pickBest_ok query results) as (o & -> & Ho). simpl.
    split; [discriminate|]. split; [reflexivity|].
    intros p Ep. inversion Ep; subst o.
    destruct (Ho p eq_refl) as (top & _ & ->). apply pick_title_nonempty.
  - split; [intros e H; inversion H; reflexivity|].
    split; [reflexivity | discriminate].
Qed.

End SearchErrors.

(** ** clearPlaylist *)

Section ClearPlaylistFacts.
Context {S : Type} {api : YouTubeApi S} {paging : YouTubeItemPages S}.

Lemma delete_each_ok (cred : string) (ids : list string) :
  forall n : Net S,
    deletes_succeed cred ids (remote n) ->
    delete_each cred ids n =
    (Ok tt, mkNet (after_deletes cred ids (remote n))
                  (calls n ++ map (CItemsDelete cred) ids)).
Proof.
  induction ids as [|id ids IH]; intros n H; simpl.
  - unfold ret. rewrite app_nil_r. now destruct n.
  - destruct H as [H1 H2]. unfold bind, call_write.
    destruct (playlistItems_delete cred id (remote n)) as [r s1] eqn:E.
    simpl in H1, H2. subst r. rewrite IH by exact H2. simpl.
    now rewrite <- app_assoc.
Qed.

Lemma delete_each_fails (cred : string) (pre : list string) (id : string)
      (post : list string) (e : string) (s' : S) :
  forall n : Net S,
    deletes_succeed cred pre (remote n) ->
    playlistItems_delete cred id (after_deletes cred pre (remote n)) = (Throw e, s') ->
    delete_each cred (pre ++ id :: post) n =
    (Throw e, mkNet s' (calls n ++ map (CItemsDelete cred) (pre ++ [id]))).
Proof.
  induction pre as [|a pre IH]; intros n H F; simpl in *.
  - unfold bind, call_write. rewrite F. reflexivity.
  - destruct H as [H1 H2]. unfold bind, call_write.
    destruct (playlistItems_delete cred a (remote n)) as [r s1] eqn:E.
    simpl in H1, H2, F. subst r.
    rewrite (IH (mkNet s1 (calls n ++ [CItemsDelete cred a]))) by assumption.
    simpl. now rewrite <- app_assoc.
Qed.

(** X8: when the listing of the items fits on one page, [clearPlaylist]
    deletes every item of the page that has an id, one call each in listing
    order, after the token request and one list request; items without an
    id are passed over.  One turn of the loop is enough. *)
Theorem clearPlaylist_single_page
        (fuel : nat) (g : Google) (playlistId : string) (n : Net S)
        (items : list PlaylistItem) (next : option string) :
  let cred := g_refreshToken g in
  getAccessToken cred (remote n) = Ok tt ->
  playlistItems_page cred playlistId 50 None (remote n) = Ok (items, next) ->
  JS.truthy_opt next = false ->
  deletes_succeed cred (kept_ids items) (remote n) ->
  clearPlaylist (Datatypes.S fuel) g playlistId n =
  (Ok (Some tt),
   mkNet (after_deletes cred (kept_ids items) (remote n))
         (calls n ++ CGetAccessToken cred :: CItemsList cred playlistId 50
                  :: map (CItemsDelete cred) (kept_ids items))).
Proof.
  intros cred Tok Page Last Dels. unfold clearPlaylist, try_catch.
  unfold bind at 1. rewrite ensureGoogleAccess_run. fold cred. rewrite Tok.
  simpl clear_pages. unfold bind, call_read. simpl remote. simpl calls.
  fold cred. rewrite Page. simpl fst. simpl snd.
  rewrite delete_each_ok by exact Dels. cbn [fst snd]. rewrite Last.
  unfold ret. simpl.
  rewrite <- !app_assoc. reflexivity.
Qed.

(** X9: the first deletion that fails ends [clearPlaylist] with that error:
    the items after it on the page get no delete call and no further page
    is requested, whatever the page token. *)
Theorem clearPlaylist_stops_at_failed_delete
        (fuel : nat) (g : Google) (playlistId : string) (n : Net S)
        (items : list PlaylistItem) (next : option string)
        (pre : list string) (id : string) (post : list string)
        (e : string) (s' : S) :
  let cred := g_refreshToken g in
  getAccessToken cred (remote n) = Ok tt ->
  playlistItems_page cred playlistId 50 None (remote n) = Ok (items, next) ->
  kept_ids items = pre ++ id :: post ->
  deletes_succeed cred pre (remote n) ->
  playlistItems_delete cred id (after_deletes cred pre (remote n)) = (Throw e, s') ->
  clearPlaylist (Datatypes.S fuel) g playlistId n =
  (Throw e,
   mkNet s'
         (calls n ++ CGetAccessToken cred :: CItemsList cred playlistId 50
                  :: map (CItemsDelete cred) (pre ++ [id]))).
Proof.
  intros cred Tok Page Ids Dels Fail. unfold clearPlaylist, try_catch.
  unfold bind at 1. rewrite ensureGoogleAccess_run. fold cred. rewrite Tok.
  simpl clear_pages. unfold bind, call_read. simpl remote. simpl calls.
  fold cred. rewrite Page. simpl fst. rewrite Ids.
  rewrite (delete_each_fails cred pre id post e s') by assumption.
  unfold throw. simpl. rewrite <- !app_assoc. reflexivity.
Qed.

End ClearPlaylistFacts.

Lemma clearPlaylist_single_page_witness :
  clearPlaylist 1 requests_bot "PL-odd" (mkNet studio [])
  = (Ok (Some tt),
     mkNet (after_deletes "rt-1" ["it-3"] studio)
           [CGetAccessToken "rt-1"; CItemsList "rt-1" "PL-odd" 50;
            CItemsDelete "rt-1" "it-3"]).
Proof.
  apply (clearPlaylist_single_page 0 requests_bot "PL-odd" (mkNet studio [])
           [item None "Ghost"; item (Some "it-3") "Three"] None);
    first [reflexivity | repeat split].
Defined.

Lemma clearPlaylist_stops_at_failed_delete_witness :
  clearPlaylist 1 requests_bot "PL-queue" (mkNet studio_delete_down [])
  = (Throw "failed: it-2",
     mkNet (snd (playlistItems_delete "rt-1" "it-1" studio_delete_down))
           [CGetAccessToken "rt-1"; CItemsList "rt-1" "PL-queue" 50;
            CItemsDelete "rt-1" "it-1"; CItemsDelete "rt-1" "it-2"]).
Proof.
  apply (clearPlaylist_stops_at_failed_delete 0 requests_bot "PL-queue"
           (mkNet studio_delete_down [])
           [item (Some "it-1") "One"; item (Some "it-2") "Two"] None
           ["it-1"] "it-2" [] "failed: it-2");
    first [reflexivity | repeat split].
Defined.

(** ** More on extractYouTubeVideoId *)

Lemma match_group1_inv (re : regex) (text id : string) :
  match_group1 re text = Some id ->
  exists g, exec re (JS.chars text) = Some (Some g) /\ id = JS.str g.
Proof.
  unfold match_group1.
  destruct (exec re (JS.chars text)) as [[g|]|]; try discriminate.
  intros E. inversion E. eauto.
Qed.

Lemma watch_capture_place (text id : string) :
  match_group1 YT_WATCH_RE text = Some id ->
  exists pre v post,
    JS.chars text = pre ++ v ++ JS.chars id ++ post /\ ci_eq v (JS.chars "v=").
Proof.
  intros E. apply match_group1_inv in E as (g & E & ->).
  apply exec_sound in E as (pre & m & rest & Et & L).
  apply watch_re_lang in L as (p & h & mid & v & i & -> & _ & Ev & _ & _ & Ec).
  inversion Ec; subst g. rewrite chars_str.
  exists (pre ++ p ++ h ++ mid), v, rest. rewrite Et, <- !app_assoc. auto.
Qed.

Lemma music_capture_place (text id : string) :
  match_group1 YT_MUSIC_RE text = Some id ->
  exists pre v post,
    JS.chars text = pre ++ v ++ JS.chars id ++ post /\ ci_eq v (JS.chars "v=").
Proof.
  intros E. apply match_group1_inv in E as (g & E & ->).
  apply exec_sound in E as (pre & m & rest & Et & L).
  apply music_re_lang in L as (p & h & mid & v & i & -> & _ & Ev & _ & _ & Ec).
  inversion Ec; subst g. rewrite chars_str.
  exists (pre ++ p ++ h ++ mid), v, rest. rewrite Et, <- !app_assoc. auto.
Qed.

Lemma short_capture_place (text id : string) :
  match_group1 YT_SHORT_RE text = Some id ->
  exists pre h post,
    JS.chars text = pre ++ h ++ JS.chars id ++ post /\
    ci_eq h (JS.chars "youtu.be/").
Proof.
  intros E. apply match_group1_inv in E as (g & E & ->).
  apply exec_sound in E as (pre & m & rest & Et & L).
  apply short_re_lang in L as (p & h & i & tail & -> & Eh & _ & _ & Ec).
  inversion Ec; subst g. rewrite chars_str.
  exists (pre ++ p), h, (tail ++ rest). rewrite Et, <- !app_assoc. auto.
Qed.

(** X10: the token [extractYouTubeVideoId] returns is read from the text:
    it stands there right after a [v=] or after [youtu.be/], written in any
    case. *)
Theorem extractYouTubeVideoId_token_in_text (text id : string) :
  extractYouTubeVideoId text = Some id ->
  exists pre marker post,
    JS.chars text = pre ++ marker ++ JS.chars id ++ post /\
    (ci_eq marker (JS.chars "v=") \/ ci_eq marker (JS.chars "youtu.be/")).
Proof.
  rewrite extractYouTubeVideoId_unfold.
  destruct (match_group1 YT_WATCH_RE text) as [a|] eqn:Ea.
  { intros E. inversion E; subst a.
    apply watch_capture_place in Ea as (pre & v & post & Et & Ev). eauto 8. }
  destruct (match_group1 YT_SHORT_RE text) as [b|] eqn:Eb.
  { intros E. inversion E; subst b.
    apply short_capture_place in Eb as (pre & h & post & Et & Eh). eauto 8. }
  intros E. apply music_capture_place in E as (pre & v & post & Et & Ev).
  eauto 8.
Qed.

Lemma extractYouTubeVideoId_token_in_text_witness :
  exists pre marker post,
    JS.chars "play https://youtu.be/dQw4w9WgXcQ?t=42"
    = pre ++ marker ++ JS.chars "dQw4w9WgXcQ" ++ post /\
    (ci_eq marker (JS.chars "v=") \/ ci_eq marker (JS.chars "youtu.be/")).
Proof.
  apply (extractYouTubeVideoId_token_in_text
           "play https://youtu.be/dQw4w9WgXcQ?t=42" "dQw4w9WgXcQ").
  vm_compute. reflexivity.
Defined.

Lemma ci_eq_app (a b c d : list ascii) : ci_eq a b -> ci_eq c d -> ci_eq (a ++ c) (b ++ d).
Proof. unfold ci_eq. intros E1 E2. now rewrite !map_app, E1, E2. Qed.

Lemma ci_eq_split (m : list ascii) (a b : list ascii) :
  ci_eq m (a ++ b) -> exists m1 m2, m = m1 ++ m2 /\ ci_eq m1 a /\ ci_eq m2 b.
Proof.
  unfold ci_eq. revert m. induction a as [|x a IH]; intros m E; simpl in *.
  - exists [], m. auto.
  - destruct m as [|y m]; [discriminate|]. simpl in E.
    inversion E as [[Ey Em]]. destruct (IH m Em) as (m1 & m2 & -> & E1 & E2).
    exists (y :: m1), m2. simpl. rewrite Ey, E1. auto.
Qed.

(** A watch URL of the music site is a watch URL: its host ends in
    [youtube.com]. *)
Lemma music_url_is_watch_url (t : list ascii) :
  contains_watch_url "music.youtube.com/watch?" t ->
  contains_watch_url "youtube.com/watch?" t.
Proof.
  intros (pre & h & q & id & -> & Eh & Hq).
  change (JS.chars "music.youtube.com/watch?")
    with (JS.chars "music." ++ JS.chars "youtube.com/watch?") in Eh.
  apply ci_eq_split in Eh as (h1 & h2 & -> & _ & E2).
  exists (pre ++ h1), h2, q, id. rewrite <- !app_assoc. auto.
Qed.

Lemma extract_watch_or_short (text : string) :
  extractYouTubeVideoId text =
  match match_group1 YT_WATCH_RE text with
  | Some id => Some id
  | None => match_group1 YT_SHORT_RE text
  end.
Proof.
  rewrite extractYouTubeVideoId_unfold.
  destruct (match_group1 YT_WATCH_RE text) as [a|] eqn:Ea; [reflexivity|].
  destruct (match_group1 YT_SHORT_RE text) as [b|] eqn:Eb; [reflexivity|].
  destruct (match_group1 YT_MUSIC_RE text) as [c|] eqn:Ec; [|reflexivity].
  exfalso.
  assert (Hm : is_Some (match_group1 YT_MUSIC_RE text)) by (rewrite Ec; eauto).
  apply (match_group1_some _ _ music_re_captures) in Hm.
  apply music_re_matches, music_url_is_watch_url, watch_re_matches in Hm.
  apply (match_group1_some _ _ watch_re_captures) in Hm.
  rewrite Ea in Hm. destruct Hm as [? ?]. discriminate.
Qed.

(** X11: the pattern for the music site never decides the result: a text it
    matches is matched by the watch pattern, which is tried first.  So
    [extractYouTubeVideoId] is the capture of the watch pattern or, when
    that one does not match, of the short-link pattern. *)
Theorem extractYouTubeVideoId_music_pattern_redundant (text : string) :
  (is_Some (match_group1 YT_MUSIC_RE text) ->
   is_Some (match_group1 YT_WATCH_RE text)) /\
  extractYouTubeVideoId text =
  match match_group1 YT_WATCH_RE text with
  | Some id => Some id
  | None => match_group1 YT_SHORT_RE text
  end.
Proof.
  split; [|apply extract_watch_or_short].
  intros Hm.
  apply (match_group1_some _ _ music_re_captures) in Hm.
  apply music_re_matches, music_url_is_watch_url, watch_re_matches in Hm.
  now apply (match_group1_some _ _ watch_re_captures).
Qed.

Lemma lower_upper_char (c : ascii) :
  JS.lower_char (JS.upper_char c) = JS.lower_char c.
Proof. destruct c as [[] [] [] [] [] [] [] []]; vm_compute; reflexivity. Qed.

Lemma ci_eq_lower (a b : list ascii) :
  ci_eq a b -> map JS.lower_char a = map JS.lower_char b.
Proof.
  unfold ci_eq, canon. revert b. induction a as [|x a IH]; intros [|y b] E;
    simpl in *; try discriminate; [reflexivity|].
  inversion E as [[Ex Ea]]. rewrite (IH b Ea). f_equal.
  rewrite <- (lower_upper_char x), <- (lower_upper_char y). now rewrite Ex.
Qed.

Lemma prefix_chars_app (p l : list ascii) : JS.prefix_chars p (p ++ l) = true.
Proof.
  induction p as [|c p IH]; simpl; [reflexivity|].
  now rewrite Ascii.eqb_refl, IH.
Qed.

Lemma includes_chars_middle (sub pre post : list ascii) :
  includes_chars sub (pre ++ sub ++ post) = true.
Proof.
  induction pre as [|c pre IH]; simpl.
  - pose proof (prefix_chars_app sub post) as P.
    destruct (sub ++ post); simpl; now rewrite P.
  - rewrite IH. apply orb_true_r.
Qed.

Lemma includes_host (t pre h post : list ascii) (tail : string) :
  t = pre ++ h ++ post ->
  ci_eq h (JS.chars "youtu" ++ JS.chars tail) ->
  includes_chars (JS.chars "youtu") (map JS.lower_char t) = true.
Proof.
  intros -> Eh. apply ci_eq_lower in Eh. rewrite !map_app, Eh, map_app.
  change (map JS.lower_char (JS.chars "youtu")) with (JS.chars "youtu").
  rewrite <- app_assoc. apply includes_chars_middle.
Qed.

(** X12: a text that does not contain "youtu", in any case, is never
    taken for a link: [extractYouTubeVideoId] returns null. *)
Theorem extractYouTubeVideoId_needs_host (text : string) :
  includes (JS.toLowerCase text) "youtu" = false ->
  extractYouTubeVideoId text = None.
Proof.
  intros N. unfold includes, JS.toLowerCase in N. rewrite chars_str in N.
  rewrite extract_watch_or_short.
  destruct (match_group1 YT_WATCH_RE text) as [a|] eqn:Ea.
  { exfalso.
    assert (Hm : is_Some (match_group1 YT_WATCH_RE text)) by (rewrite Ea; eauto).
    apply (match_group1_some _ _ watch_re_captures), watch_re_matches in Hm.
    destruct Hm as (pre & h & q & id & Et & Eh & _).
    rewrite (includes_host _ pre h q "be.com/watch?" Et Eh) in N.
    discriminate. }
  destruct (match_group1 YT_SHORT_RE text) as [b|] eqn:Eb; [|reflexivity].
  exfalso.
  assert (Hm : is_Some (match_group1 YT_SHORT_RE text)) by (rewrite Eb; eauto).
  apply (match_group1_some _ _ short_re_captures), short_re_matches in Hm.
  destruct Hm as (pre & h & id & post & Et & Eh & _).
  rewrite (includes_host _ pre h (id ++ post) ".be/" Et Eh) in N.
  discriminate.
Qed.

Lemma extractYouTubeVideoId_needs_host_witness :
  extractYouTubeVideoId "never gonna give you up" = None.
Proof.
  apply (extractYouTubeVideoId_needs_host "never gonna give you up").
  vm_compute. reflexivity.
Defined.

(** ** What the message handler leaves as it is *)

Section KeepsFacts.
Context {St : Type} (R : St -> St -> Prop).

Lemma keeps_stay {A} `{!Reflexive R} (f : St -> result A) :
  keeps R (fun s => (f s, s)).
Proof. intros s r s' E. inversion E; subst. reflexivity. Qed.

Lemma keeps_ret {A} `{!Reflexive R} (a : A) : keeps R (ret a).
Proof. apply (keeps_stay (fun _ => Ok a)). Qed.

Lemma keeps_throw {A} `{!Reflexive R} (e : string) : keeps R (throw (A := A) e).
Proof. apply (keeps_stay (fun _ => Throw e)). Qed.

Lemma keeps_bind {A B} `{!Transitive R} (c : M St A) (k : A -> M St B) :
  keeps R c -> (forall a, keeps R (k a)) -> keeps R (bind c k).
Proof.
  intros Hc Hk s r s' E. unfold bind in E.
  destruct (c s) as [[a|e] s1] eqn:Ec.
  - etransitivity; [exact (Hc _ _ _ Ec) | exact (Hk a _ _ _ E)].
  - inversion E; subst. exact (Hc _ _ _ Ec).
Qed.

Lemma keeps_try {A} `{!Transitive R} (c : M St A) (h : string -> M St A) :
  keeps R c -> (forall e, keeps R (h e)) -> keeps R (try_catch c h).
Proof.
  intros Hc Hh s r s' E. unfold try_catch in E.
  destruct (c s) as [[a|e] s1] eqn:Ec.
  - inversion E; subst. exact (Hc _ _ _ Ec).
  - etransitivity; [exact (Hc _ _ _ Ec) | exact (Hh e _ _ _ E)].
Qed.

End KeepsFacts.

Section NetFrames.
Context {S : Type} {api : YouTubeApi S} {sim : StringSimilarity}.
Variable P : Call -> bool.

#[local] Instance net_within_refl : Reflexive (net_within (S := S) P).
Proof. intros n. exists []. rewrite app_nil_r. auto. Qed.

#[local] Instance net_within_trans : Transitive (net_within (S := S) P).
Proof.
  intros n1 n2 n3 (l1 & E1 & P1 & R1) (l2 & E2 & P2 & R2).
  exists (l1 ++ l2). rewrite E2, E1, <- app_assoc, !forallb_app, P1, P2.
  split; [reflexivity|]. split; [reflexivity|].
  intros H. apply andb_true_iff in H as [H1 H2].
  now rewrite (R2 H2), (R1 H1).
Qed.

Lemma keeps_call_read {A} (c : Call) (f : S -> result A) :
  P c = true -> keeps (net_within (S := S) P) (call_read c f).
Proof.
  intros Pc n r n' E. inversion E; subst. exists [c]. simpl.
  rewrite Pc. auto.
Qed.

Lemma keeps_call_write {A} (c : Call) (f : S -> result A * S) :
  P c = true -> is_read c = false -> keeps (net_within (S := S) P) (call_write c f).
Proof.
  intros Pc W n r n' E. unfold call_write in E.
  destruct (f (remote n)) as [r0 s1]. inversion E; subst. exists [c]. simpl.
  rewrite Pc, W. split; [reflexivity|]. split; [reflexivity | discriminate].
Qed.

Lemma keeps_ensureGoogleAccess (g : Google) :
  P (CGetAccessToken (g_refreshToken g)) = true ->
  keeps (net_within (S := S) P) (ensureGoogleAccess g).
Proof.
  intros Pc. unfold ensureGoogleAccess. apply keeps_try; [exact _| |].
  - now apply keeps_call_read.
  - intros e. apply keeps_throw. exact _.
Qed.

Lemma keeps_scan_pages (cred name : string)
      (pages : list (result (list Playlist))) :
  (forall i, P (CPlaylistsList cred i) = true) ->
  forall i, keeps (net_within (S := S) P) (scan_pages cred name i pages).
Proof.
  intros Pc. induction pages as [|p pages IH]; intros i; simpl.
  - apply keeps_ret. exact _.
  - apply keeps_bind; [exact _ | now apply keeps_call_read |].
    intros items. cbv zeta.
    destruct (JS.truthy_opt (scan_page name items)); [|apply IH].
    apply keeps_ret. exact _.
Qed.

Lemma keeps_find_playlist (g : Google) (name : string) :
  (forall i, P (CPlaylistsList (g_refreshToken g) i) = true) ->
  keeps (net_within (S := S) P) (find_playlist g name).
Proof.
  intros Pc n r n' E. unfold find_playlist in E.
  exact (keeps_scan_pages _ _ _ Pc 0 _ _ _ E).
Qed.

End NetFrames.

#[local] Existing Instance net_within_refl.
#[local] Existing Instance net_within_trans.

Section WorldFrames.
Context {S : Type} {api : YouTubeApi S} {sim : StringSimilarity}.
Variables cid csecret : string.
Variable P : Call -> bool.
Variable Q : DbCall -> bool.
Variable ch : string.

#[local] Instance within_refl : Reflexive (within (S := S) P Q ch).
Proof.
  intros w. split; [reflexivity|]. split; [|split].
  - exists []. rewrite app_nil_r. auto.
  - reflexivity.
  - exists []. rewrite app_nil_r. auto.
Qed.

#[local] Instance within_trans : Transitive (within (S := S) P Q ch).
Proof.
  intros w1 w2 w3 (N1 & (q1 & D1 & Q1 & F1) & C1 & (l1 & S1 & A1))
         (N2 & (q2 & D2 & Q2 & F2) & C2 & (l2 & S2 & A2)).
  split; [etransitivity; eassumption|]. split; [|split].
  - exists (q1 ++ q2). rewrite D2, D1, <- app_assoc, !forallb_app, Q1, Q2.
    split; [reflexivity|]. split; [reflexivity|].
    intros H. apply andb_true_iff in H as [H1 H2].
    now rewrite (F2 H2), (F1 H1).
  - etransitivity; eassumption.
  - exists (l1 ++ l2). rewrite S2, S1, <- app_assoc. split; [reflexivity|].
    apply Forall_app. auto.
Qed.

Lemma within_net (w : World S) (n' : Net S) :
  net_within P (net w) n' -> within P Q ch w (with_net n' w).
Proof.
  intros N. split; [exact N|]. split; [|split].
  - exists []. simpl. rewrite app_nil_r. auto.
  - reflexivity.
  - exists []. simpl. rewrite app_nil_r. auto.
Qed.

Lemma within_asked (w : World S) (q : DbCall) :
  Q q = true -> within P Q ch w (asked_store q w).
Proof.
  intros Hq. split; [reflexivity|]. split; [|split].
  - exists [q]. simpl. rewrite Hq. auto.
  - reflexivity.
  - exists []. simpl. rewrite app_nil_r. auto.
Qed.

Lemma keeps_lift {A} (c : M (Net S) A) :
  keeps (net_within (S := S) P) c -> keeps (within (S := S) P Q ch) (lift c).
Proof.
  intros Hc w r w' E. unfold lift in E.
  destruct (c (net w)) as [r0 n'] eqn:Ec. inversion E; subst.
  apply (within_net w n'). exact (Hc _ _ _ Ec).
Qed.

Lemma keeps_log_db (q : DbCall) :
  Q q = true -> keeps (within (S := S) P Q ch) (log_db q).
Proof. intros Hq w r w' E. inversion E; subst. now apply within_asked. Qed.

Lemma keeps_say (msg : string) : keeps (within (S := S) P Q ch) (say ch msg).
Proof.
  intros w r w' E. inversion E; subst. split; [reflexivity|]. split; [|split].
  - exists []. simpl. rewrite app_nil_r. auto.
  - reflexivity.
  - exists [(ch, msg)]. simpl. split; [reflexivity|]. repeat constructor.
Qed.

Lemma keeps_findUnique (id : string) :
  Q (DbFindUnique id) = true -> keeps (within (S := S) P Q ch) (findUnique id).
Proof.
  intros Hq. unfold findUnique. apply keeps_bind; [exact _ | |].
  - now apply keeps_log_db.
  - intros _. apply keeps_stay. exact _.
Qed.

Lemma keeps_findFirst (name : string) :
  Q (DbFindFirst name) = true -> keeps (within (S := S) P Q ch) (findFirst name).
Proof.
  intros Hq. unfold findFirst. apply keeps_bind; [exact _ | |].
  - now apply keeps_log_db.
  - intros _. apply keeps_stay. exact _.
Qed.

Lemma keeps_updatePlaylistId (id pid : string) :
  Q (DbUpdatePlaylistId id pid) = true ->
  keeps (within (S := S) P Q ch) (updatePlaylistId id pid).
Proof.
  intros Hq w r w' E. unfold updatePlaylistId, bind, log_db in E. simpl in E.
  assert (W : within P Q ch w
                (mkWorld (net w) (db w') (dblog w ++ [DbUpdatePlaylistId id pid])
                         (googleInstances w) (said w))).
  { split; [reflexivity|]. split; [|split].
    - exists [DbUpdatePlaylistId id pid]. simpl. rewrite Hq.
      split; [reflexivity|]. split; [reflexivity | discriminate].
    - reflexivity.
    - exists []. simpl. rewrite app_nil_r. auto. }
  destruct (update_row id pid (db w)) as [rows|]; inversion E; subst; exact W.
Qed.

Lemma keeps_initialize (g : Google) :
  P (CYtmInitialize (g_cookies g)) = true ->
  P (CGetAccessToken (g_refreshToken g)) = true ->
  keeps (net_within (S := S) P) (initialize g).
Proof.
  intros P1 P2. unfold initialize. apply keeps_try; [exact _ | |].
  - apply keeps_bind; [exact _ | now apply keeps_call_read |].
    intros _. now apply keeps_ensureGoogleAccess.
  - intros e. apply keeps_throw. exact _.
Qed.

Lemma keeps_getGoogleForUser (id : string) :
  P (CYtmInitialize None) = true ->
  (forall cred, P (CGetAccessToken cred) = true) ->
  Q (DbFindUnique id) = true ->
  keeps (within (S := S) P Q ch) (getGoogleForUser cid csecret id).
Proof.
  intros P1 P2 Q1 w r w' E.
  destruct (googleInstances w !! id) as [g|] eqn:Hit.
  - unfold getGoogleForUser in E. rewrite Hit in E. inversion E; subst.
    reflexivity.
  - rewrite getGoogleForUser_uncached in E by assumption.
    pose proof (within_asked w (DbFindUnique id) Q1) as W1.
    destruct (tenant id w) as [u|]; [|inversion E; subst; exact W1].
    destruct (JS.truthy_opt (googleRefreshToken u));
      [|inversion E; subst; exact W1].
    destruct (initialize (google_for cid csecret u) (net w)) as [[[]|e] n'] eqn:Ei.
    + inversion E; subst. etransitivity; [exact W1|].
      pose proof (within_net (asked_store (DbFindUnique id) w) n'
                    (keeps_initialize (google_for cid csecret u) P1 (P2 _) _ _ _ Ei)) as W2.
      destruct W2 as (N2 & D2 & C2 & S2).
      split; [exact N2|]. split; [exact D2|]. split; [|exact S2].
      simpl. now apply insert_subseteq.
    + inversion E; subst. etransitivity; [exact W1|].
      exact (within_net (asked_store (DbFindUnique id) w) n'
               (keeps_initialize (google_for cid csecret u) P1 (P2 _) _ _ _ Ei)).
Qed.

End WorldFrames.

#[local] Existing Instance within_refl.
#[local] Existing Instance within_trans.

Ltac decide_if b :=
  let v := eval vm_compute in b in
  lazymatch v with
  | true => replace b with true by (vm_compute; reflexivity)
  | false => replace b with false by (vm_compute; reflexivity)
  end.

Ltac net_step :=
  match goal with
  | |- keeps _ (bind _ _) => apply keeps_bind; [exact _ | | intros ?]
  | |- keeps _ (try_catch _ _) => apply keeps_try; [exact _ | | intros ?]
  | |- keeps _ (ret _) => apply keeps_ret; exact _
  | |- keeps _ (throw _) => apply keeps_throw; exact _
  | |- keeps _ (ensureGoogleAccess _) =>
      apply keeps_ensureGoogleAccess; reflexivity
  | |- keeps _ (find_playlist _ _) =>
      apply keeps_find_playlist; intros; reflexivity
  | |- keeps _ (call_read _ _) => apply keeps_call_read; reflexivity
  | |- keeps _ (call_write _ _) => apply keeps_call_write; reflexivity
  | |- keeps _ (fun n => (_, n)) => apply keeps_stay; exact _
  | |- keeps _ (let _ := _ in _) => cbv zeta
  | |- keeps _ (if ?b then _ else _) => first [decide_if b; cbv iota | destruct b]
  | |- keeps _ (match ?x with _ => _ end) => destruct x
  end.

Ltac world_step :=
  match goal with
  | |- keeps _ (lift _) =>
      apply keeps_lift;
      unfold initialize, ensurePlaylist, addToPlaylist, searchBestMatch,
             nowPlaying, skipFirst;
      repeat net_step
  | |- keeps _ (say _ _) => apply keeps_say
  | |- keeps _ (getGoogleForUser _ _ _) =>
      apply keeps_getGoogleForUser;
      [reflexivity | intros; reflexivity | reflexivity]
  | |- keeps _ (updatePlaylistId _ _) => apply keeps_updatePlaylistId; reflexivity
  | |- keeps _ (findFirst _) => apply keeps_findFirst; reflexivity
  | _ => net_step
  end.

Section DispatchFrames.
Context {S : Type} {api : YouTubeApi S} {sim : StringSimilarity}.
Variables cid csecret : string.

Lemma onMessage_dispatch (m : ChatMessage) (w : World S) :
  onMessage cid csecret m w =
  match channel_tenant m w with
  | Some u =>
      dispatch cid csecret u m
        (asked_store (DbFindFirst (JS.replace_first "#" (channel m))) w)
  | None => (Ok tt, asked_store (DbFindFirst (JS.replace_first "#" (channel m))) w)
  end.
Proof.
  unfold onMessage, findFirst, log_db. unfold bind at 1 2. simpl.
  fold (channel_tenant m w). destruct (channel_tenant m w); reflexivity.
Qed.

Lemma keeps_dispatch_any (u : User) (m : ChatMessage) :
  keeps (within (S := S) any_call any_query (channel m)) (dispatch cid csecret u m).
Proof.
  unfold dispatch, handle_sr, handle_np, handle_skip, resolve_playlist.
  repeat world_step.
Qed.

End DispatchFrames.

(** ** Replies *)

Section ReplyFacts.
Context {S : Type} {api : YouTubeApi S} {sim : StringSimilarity}.
Variables cid csecret : string.

#[local] Instance same_said_refl : Reflexive (same_said (S := S)).
Proof. intros w. reflexivity. Qed.

#[local] Instance same_said_trans : Transitive (same_said (S := S)).
Proof. intros w1 w2 w3 E1 E2. unfold same_said in *. congruence. Qed.

Lemma silent_frame {A} (c : M (World S) A) :
  (forall w, said (snd (c w)) = said w) -> silent c.
Proof. intros F w r w' E. specialize (F w). now rewrite E in F. Qed.

Lemma silent_lift {A} (c : M (Net S) A) : silent (lift c).
Proof.
  apply silent_frame. intros w. unfold lift. now destruct (c (net w)).
Qed.

Lemma silent_updatePlaylistId (id pid : string) :
  silent (updatePlaylistId (S := S) id pid).
Proof.
  apply silent_frame. intros w. unfold updatePlaylistId, bind, log_db. simpl.
  now destruct (update_row id pid (db w)).
Qed.

Lemma silent_getGoogleForUser (id : string) :
  silent (getGoogleForUser (S := S) cid csecret id).
Proof.
  intros w r w' E. unfold same_said.
  destruct (googleInstances w !! id) as [g|] eqn:Hit.
  - unfold getGoogleForUser in E. rewrite Hit in E. now inversion E.
  - rewrite getGoogleForUser_uncached in E by assumption.
    destruct (tenant id w) as [u|]; [|now inversion E].
    destruct (JS.truthy_opt (googleRefreshToken u)); [|now inversion E].
    destruct (initialize (google_for cid csecret u) (net w)) as [[[]|e] n'];
      now inversion E.
Qed.

Lemma silent_resolve_playlist (u : User) (g : Google) :
  silent (resolve_playlist (S := S) u g).
Proof.
  unfold resolve_playlist, silent.
  apply keeps_bind; [exact _ | |].
  - destruct (JS.truthy_opt (youtubePlaylistId u));
      [apply keeps_ret; exact _ | apply silent_lift].
  - intros pid. apply keeps_bind; [exact _ | |].
    + destruct (negb (JS.truthy_opt (youtubePlaylistId u)));
        [apply silent_updatePlaylistId | apply keeps_ret; exact _].
    + intros _. apply keeps_ret. exact _.
Qed.

Lemma answers_bind_silent {A B} (ch : string) (c : M (World S) A)
      (k : A -> M (World S) B) :
  silent c -> (forall a, answers ch (k a)) -> answers ch (bind c k).
Proof.
  intros Hc Hk w r w' E. unfold bind in E.
  destruct (c w) as [[a|e] w1] eqn:Ec.
  - rewrite <- (Hc _ _ _ Ec). exact (Hk a _ _ _ E).
  - inversion E; subst. exact (Hc _ _ _ Ec).
Qed.

Lemma answers_say_ret {A} (ch msg : string) (x : A) :
  answers (S := S) ch (let* _ := say ch msg in ret x).
Proof. intros w r w' E. inversion E; subst. simpl. eauto. Qed.

Lemma replies_say_ret {A} (ch msg : string) (x : A) :
  replies (S := S) ch (let* _ := say ch msg in ret x).
Proof. intros w r w' E. inversion E; subst. simpl. eauto. Qed.

Lemma replies_try {A} (ch : string) (c : M (World S) A)
      (h : string -> M (World S) A) :
  answers ch c -> (forall e, replies ch (h e)) -> replies ch (try_catch c h).
Proof.
  intros Hc Hh w r w' E. unfold try_catch in E.
  destruct (c w) as [[a|e] w1] eqn:Ec.
  - inversion E; subst. destruct (Hc _ _ _ Ec) as (txt & Es). eauto.
  - pose proof (Hc _ _ _ Ec) as Es. simpl in Es. rewrite <- Es.
    exact (Hh e _ _ _ E).
Qed.

Ltac answers_step :=
  match goal with
  | |- answers _ (bind (say _ _) _) => apply answers_say_ret
  | |- answers _ (bind _ _) =>
      apply answers_bind_silent;
      [first [apply silent_getGoogleForUser | apply silent_resolve_playlist
             | apply silent_lift] | intros ?]
  | |- answers _ (let _ := _ in _) => cbv zeta
  | |- answers _ (if ?b then _ else _) => destruct b
  | |- answers _ (match ?x with _ => _ end) => destruct x
  end.

Lemma handle_sr_replies (u : User) (m : ChatMessage) :
  is_request m = true -> replies (channel m) (handle_sr cid csecret u m).
Proof.
  unfold is_request, handle_sr. intros ->. cbv zeta.
  destruct (negb (JS.truthy (JS.trim (JS.slice 4 (text m))))).
  - apply replies_say_ret.
  - apply replies_try; [repeat answers_step | intros e; apply replies_say_ret].
Qed.

Lemma handle_np_replies (u : User) (m : ChatMessage) :
  is_np m = true -> replies (channel m) (handle_np cid csecret u m).
Proof.
  unfold is_np, handle_np. intros ->.
  apply replies_try; [repeat answers_step | intros e; apply replies_say_ret].
Qed.

Lemma handle_skip_replies (u : User) (m : ChatMessage) :
  is_skip m = true -> isMod m || isBroadcaster m = true ->
  replies (channel m) (handle_skip cid csecret u m).
Proof.
  unfold is_skip, handle_skip. intros -> Hp.
  replace (negb (isMod m) && negb (isBroadcaster m)) with false
    by (destruct (isMod m), (isBroadcaster m); simpl in *; congruence).
  apply replies_try; [repeat answers_step | intros e; apply replies_say_ret].
Qed.

Lemma request_is_no_other_command (m : ChatMessage) :
  is_request m = true -> is_np m = false /\ is_skip m = false.
Proof.
  unfold is_request, is_np, is_skip. intros H. split.
  - destruct (String.eqb_spec (JS.toLowerCase (text m)) "!np") as [E|]; [|auto].
    rewrite E in H. vm_compute in H. discriminate.
  - destruct (String.eqb_spec (JS.toLowerCase (text m)) "!skip") as [E|]; [|auto].
    rewrite E in H. vm_compute in H. discriminate.
Qed.

Lemma np_is_no_skip (m : ChatMessage) : is_np m = true -> is_skip m = false.
Proof.
  unfold is_np, is_skip. intros H. apply String.eqb_eq in H. now rewrite H.
Qed.

Lemma handle_sr_other (u : User) (m : ChatMessage) :
  is_request m = false -> handle_sr (S := S) cid csecret u m = ret Next.
Proof. unfold is_request, handle_sr. now intros ->. Qed.

Lemma handle_np_other (u : User) (m : ChatMessage) :
  is_np m = false -> handle_np (S := S) cid csecret u m = ret Next.
Proof. unfold is_np, handle_np. now intros ->. Qed.

Lemma handle_skip_other (u : User) (m : ChatMessage) :
  is_skip m = false -> handle_skip (S := S) cid csecret u m = ret Next.
Proof. unfold is_skip, handle_skip. now intros ->. Qed.

Lemma handle_skip_unprivileged (u : User) (m : ChatMessage) :
  is_skip m = true -> isMod m || isBroadcaster m = false ->
  handle_skip (S := S) cid csecret u m = ret Return.
Proof.
  unfold is_skip, handle_skip. intros -> Hp.
  apply orb_false_iff in Hp as [-> ->]. reflexivity.
Qed.

(** The handler, once the tenant is loaded, returns; it has sent one reply
    to the channel when the message is a command, and none otherwise. *)
Lemma dispatch_reply (u : User) (m : ChatMessage) (w : World S)
      (r : result unit) (w' : World S) :
  dispatch cid csecret u m w = (r, w') ->
  r = Ok tt /\
  if is_command m then exists txt, said w' = said w ++ [(channel m, txt)]
  else said w' = said w.
Proof.
  unfold dispatch, is_command.
  destruct (is_request m) eqn:Hr; simpl orb.
  - destruct (request_is_no_other_command m Hr) as [Hn Hs].
    rewrite (handle_np_other u m Hn), (handle_skip_other u m Hs).
    unfold bind at 1.
    destruct (handle_sr cid csecret u m w) as [r1 w1] eqn:E.
    destruct (handle_sr_replies u m Hr _ _ _ E) as (f & txt & -> & Es).
    destruct f; unfold bind, ret; simpl; intros H; inversion H; subst; eauto.
  - rewrite (handle_sr_other u m Hr). unfold bind at 1, ret at 1.
    destruct (is_np m) eqn:Hn; simpl orb.
    + rewrite (handle_skip_other u m (np_is_no_skip m Hn)).
      unfold bind at 1.
      destruct (handle_np cid csecret u m w) as [r1 w1] eqn:E.
      destruct (handle_np_replies u m Hn _ _ _ E) as (f & txt & -> & Es).
      destruct f; unfold bind, ret; simpl; intros H; inversion H; subst; eauto.
    + rewrite (handle_np_other u m Hn). unfold bind at 1, ret at 1.
      destruct (is_skip m) eqn:Hs; simpl andb.
      * destruct (isMod m || isBroadcaster m) eqn:Hp.
        -- unfold bind.
           destruct (handle_skip cid csecret u m w) as [r1 w1] eqn:E.
           destruct (handle_skip_replies u m Hs Hp _ _ _ E) as (f & txt & -> & Es).
           unfold ret. intros H; inversion H; subst. eauto.
        -- rewrite (handle_skip_unprivileged u m Hs Hp).
           unfold bind, ret. intros H; inversion H; subst. auto.
      * rewrite (handle_skip_other u m Hs).
        unfold bind, ret. intros H; inversion H; subst. auto.
Qed.

(** X13: the message handler never throws: whatever the music platform,
    the session manager or the update of the store throw inside a command
    is caught (the lookup of the tenant and [say] are taken to succeed). *)
Theorem onMessage_never_throws (m : ChatMessage) (w : World S) :
  fst (onMessage cid csecret m w) = Ok tt.
Proof.
  rewrite onMessage_dispatch. destruct (channel_tenant m w) as [u|];
    [|reflexivity].
  destruct (dispatch cid csecret u m _) as [r w'] eqn:E.
  now destruct (dispatch_reply _ _ _ _ _ E) as [-> _].
Qed.


End ReplyFacts.

Lemma extract_of_shapes (text : string) :
  contains_watch_url "youtube.com/watch?" (JS.chars text) \/
  contains_watch_url "music.youtube.com/watch?" (JS.chars text) \/
  contains_closed_short_link (JS.chars text) ->
  is_Some (extractYouTubeVideoId text).
Proof.
  intros H. rewrite extractYouTubeVideoId_unfold.
  destruct (match_group1 YT_WATCH_RE text) as [a|] eqn:Ea; [eauto|].
  destruct (match_group1 YT_SHORT_RE text) as [b|] eqn:Eb; [eauto|].
  destruct H as [H|[H|H]].
  - apply watch_re_matches, (match_group1_some _ _ watch_re_captures) in H.
    rewrite Ea in H. destruct H as [? ?]. discriminate.
  - apply music_re_matches in H.
    now apply (match_group1_some _ _ music_re_captures).
  - apply short_re_matches, (match_group1_some _ _ short_re_captures) in H.
    rewrite Eb in H. destruct H as [? ?]. discriminate.
Qed.

Section HandlerFrames.
Context {S : Type} {api : YouTubeApi S} {sim : StringSimilarity}.
Variables cid csecret : string.

(** From the handler after the lookup to the whole handler. *)
Lemma within_onMessage (P : Call -> bool) (Q : DbCall -> bool)
      (m : ChatMessage) (w : World S) :
  Q (DbFindFirst (JS.replace_first "#" (channel m))) = true ->
  (forall u, channel_tenant m w = Some u ->
             keeps (within (S := S) P Q (channel m)) (dispatch cid csecret u m)) ->
  within P Q (channel m) w (snd (onMessage cid csecret m w)).
Proof.
  intros Hq Hk. rewrite onMessage_dispatch.
  destruct (channel_tenant m w) as [u|] eqn:Eu.
  - etransitivity; [apply within_asked; exact Hq|].
    destruct (dispatch cid csecret u m _) as [r w'] eqn:E.
    exact (Hk u eq_refl _ _ _ E).
  - now apply within_asked.
Qed.

Lemma within_reads (P : Call -> bool) (Q : DbCall -> bool) (ch : string)
      (w w' : World S) :
  (forall c, P c = true -> is_read c = true) ->
  (forall q, Q q = true -> is_find q = true) ->
  within P Q ch w w' -> remote (net w') = remote (net w) /\ db w' = db w.
Proof.
  intros HP HQ ((l & _ & Pl & Rl) & (q & _ & Qq & Dq) & _). split.
  - apply Rl. apply forallb_forall. intros c Hc. apply HP.
    now apply (proj1 (forallb_forall _ _) Pl).
  - apply Dq. apply forallb_forall. intros c Hc. apply HQ.
    now apply (proj1 (forallb_forall _ _) Qq).
Qed.

(** X15: no message evicts or replaces a cached session: a session cached
    for a tenant before the handler ran is cached for it, unchanged, after
    it. *)
Theorem onMessage_keeps_sessions
        (m : ChatMessage) (w : World S) (userId : string) (g : Google) :
  googleInstances w !! userId = Some g ->
  googleInstances (snd (onMessage cid csecret m w)) !! userId = Some g.
Proof.
  assert (W : within any_call any_query (channel m) w
                (snd (onMessage cid csecret m w))).
  { apply (within_onMessage any_call any_query m w eq_refl).
    intros u _. apply keeps_dispatch_any. }
  destruct W as (_ & _ & Sub & _).
  apply (proj1 (map_subseteq_spec _ _) Sub).
Qed.

(** X16: the [!np] command reads only: whatever it answers, it leaves the
    remote state of the music platform and the rows of the tenant store as
    they were. *)
Theorem np_reads_only (m : ChatMessage) (w : World S) :
  is_np m = true ->
  remote (net (snd (onMessage cid csecret m w))) = remote (net w) /\
  db (snd (onMessage cid csecret m w)) = db w.
Proof.
  intros Hn. apply (within_reads is_read is_find (channel m)); [auto | auto |].
  apply within_onMessage; [reflexivity|]. intros u _.
  unfold is_np in Hn. apply String.eqb_eq in Hn.
  unfold dispatch, handle_sr, handle_np, handle_skip. rewrite Hn.
  repeat world_step.
Qed.

Lemma direct_link_truthy (query : string) :
  is_Some (extractYouTubeVideoId query) ->
  JS.truthy query = true /\ JS.truthy_opt (extractYouTubeVideoId query) = true.
Proof.
  intros [id E]. split.
  - destruct query; [vm_compute in E; discriminate | reflexivity].
  - rewrite E. apply token_truthy. rewrite extractYouTubeVideoId_unfold in E.
    destruct (match_group1 YT_WATCH_RE query) as [a|] eqn:Ea.
    { inversion E; subst a.
      exact (match_group1_token _ _ _ watch_re_captures Ea). }
    destruct (match_group1 YT_SHORT_RE query) as [b|] eqn:Eb.
    { inversion E; subst b.
      exact (match_group1_token _ _ _ short_re_captures Eb). }
    exact (match_group1_token _ _ _ music_re_captures E).
Qed.

Lemma extracted_link_is_not_searched (m : ChatMessage) (w : World S) :
  is_request m = true ->
  is_Some (extractYouTubeVideoId (JS.trim (JS.slice 4 (text m)))) ->
  within not_search any_query (channel m) w (snd (onMessage cid csecret m w)).
Proof.
  intros Hr Hl. apply direct_link_truthy in Hl as [Tq Td].
  apply within_onMessage; [reflexivity|]. intros u _.
  unfold is_request in Hr.
  unfold dispatch, handle_sr, handle_np, handle_skip, resolve_playlist.
  cbv zeta. rewrite Hr, Tq, Td.
  repeat world_step.
Qed.

(** X17: a request whose argument holds a link the bot accepts is never
    searched for: when the argument (the text after the request word,
    trimmed) contains a watch URL of youtube.com or music.youtube.com with a
    [v] parameter, or a youtu.be short link whose token ends the argument or
    is followed by a question mark, the handler makes no search call on the
    catalog. *)
Theorem request_by_link_never_searches (m : ChatMessage) (w : World S) :
  is_request m = true ->
  contains_watch_url "youtube.com/watch?"
    (JS.chars (JS.trim (JS.slice 4 (text m)))) \/
  contains_watch_url "music.youtube.com/watch?"
    (JS.chars (JS.trim (JS.slice 4 (text m)))) \/
  contains_closed_short_link (JS.chars (JS.trim (JS.slice 4 (text m)))) ->
  exists l,
    calls (net (snd (onMessage cid csecret m w))) = calls (net w) ++ l /\
    forall query, ~ In (CYtmSearch query) l.
Proof.
  intros Hr Hl. apply extract_of_shapes in Hl.
  destruct (extracted_link_is_not_searched m w Hr Hl) as ((l & El & Pl & _) & _).
  exists l. split; [exact El|].
  intros query Hin.
  apply (proj1 (forallb_forall _ _) Pl) in Hin. discriminate.
Qed.

(** X18: for a tenant whose row remembers a playlist id, no message makes
    the handler list or create playlists, and none changes the rows of the
    store: the remembered id is used as it is. *)
Theorem remembered_playlist_is_used (m : ChatMessage) (w : World S) (u : User) :
  channel_tenant m w = Some u ->
  JS.truthy_opt (youtubePlaylistId u) = true ->
  (exists l,
     calls (net (snd (onMessage cid csecret m w))) = calls (net w) ++ l /\
     forall c, In c l -> is_playlists_call c = false) /\
  db (snd (onMessage cid csecret m w)) = db w.
Proof.
  intros Hu Hid.
  assert (W : within not_playlists_call is_find (channel m) w
                (snd (onMessage cid csecret m w))).
  { apply within_onMessage; [reflexivity|]. intros u' Hu'.
    rewrite Hu in Hu'. inversion Hu'; subst u'.
    unfold dispatch, handle_sr, handle_np, handle_skip, resolve_playlist.
    cbv zeta. rewrite Hid.
    repeat world_step. }
  destruct W as ((l & El & Pl & _) & (q & _ & Qq & Dq) & _). split.
  - exists l. split; [exact El|]. intros c Hc.
    apply (proj1 (forallb_forall _ _) Pl) in Hc. unfold not_playlists_call in Hc.
    now apply negb_true_iff in Hc.
  - apply Dq. exact Qq.
Qed.

End HandlerFrames.

Lemma onMessage_keeps_sessions_witness :
  let w1 := snd (onMessage (sim := dice) "client" "secret"
                   (chat "#streamer" "!np" false false) (world_of studio)) in
  googleInstances
    (snd (onMessage (sim := dice) "client" "secret"
            (chat "#streamer" "!sr hello adele" false false) w1)) !! "u1"
  = Some (google_for "client" "secret" streamer).
Proof.
  apply (onMessage_keeps_sessions (sim := dice) "client" "secret").
  vm_compute. reflexivity.
Defined.

Lemma np_reads_only_witness :
  remote (net (snd (onMessage (sim := dice) "client" "secret"
                      (chat "#streamer" "!NP" false false) (world_of studio))))
  = studio /\
  db (snd (onMessage (sim := dice) "client" "secret"
             (chat "#streamer" "!NP" false false) (world_of studio)))
  = [streamer; lurker].
Proof.
  apply (np_reads_only (sim := dice) "client" "secret"
           (chat "#streamer" "!NP" false false) (world_of studio)).
  reflexivity.
Defined.

Lemma request_by_link_never_searches_witness :
  exists l,
    calls (net (snd (onMessage (sim := dice) "client" "secret"
                       (chat "#streamer" "!sr https://youtu.be/dQw4w9WgXcQ?t=42"
                             false false)
                       (world_of studio))))
    = [] ++ l /\
    forall query, ~ In (CYtmSearch query) l.
Proof.
  apply (request_by_link_never_searches (sim := dice) "client" "secret"
           (chat "#streamer" "!sr https://youtu.be/dQw4w9WgXcQ?t=42" false false)
           (world_of studio)).
  - reflexivity.
  - right. right.
    exists (JS.chars "https://"), (JS.chars "youtu.be/"),
      (JS.chars "dQw4w9WgXcQ"), (JS.chars "?t=42").
    split; [reflexivity|]. split; [reflexivity|]. split; [split; reflexivity|].
    right. exists (JS.chars "t=42"). reflexivity.
Defined.

(** A short link followed by other text is not among the accepted shapes:
    the request is searched for. *)
Example request_with_text_after_short_link_is_searched :
  calls (net (snd (onMessage (sim := dice) "client" "secret"
                     (chat "#streamer" "!sr https://youtu.be/dQw4w9WgXcQ please"
                           false false)
                     (world_of studio)))) =
  [CYtmInitialize None; CGetAccessToken "rt-1";
   CYtmSearch "https://youtu.be/dQw4w9WgXcQ please";
   CGetAccessToken "rt-1"; CItemsInsert "rt-1" "PL-queue" "YQHsXMglC9A"].
Proof. vm_compute. reflexivity. Qed.

Lemma remembered_playlist_is_used_witness :
  (exists l,
     calls (net (snd (onMessage (sim := dice) "client" "secret"
                        (chat "#streamer" "!sr hello adele" false false)
                        (world_of studio))))
     = [] ++ l /\
     forall c, In c l -> is_playlists_call c = false) /\
  db (snd (onMessage (sim := dice) "client" "secret"
             (chat "#streamer" "!sr hello adele" false false)
             (world_of studio)))
  = [streamer; lurker].
Proof.
  apply (remembered_playlist_is_used (sim := dice) "client" "secret"
           (chat "#streamer" "!sr hello adele" false false)
           (world_of studio) streamer); reflexivity.
Defined.

(** ** Tenants without a linked music account *)

Section UnlinkedFacts.
Context {S : Type} {api : YouTubeApi S} {sim : StringSimilarity}.
Variables cid csecret : string.




End UnlinkedFacts.


(** ** More on the session manager *)

Section SessionReuse.
Context {S : Type} {api : YouTubeApi S}.
Variables cid csecret : string.

(** X20: a session [getGoogleForUser] returned is returned again by the
    next call for the same tenant, which changes nothing: the store is not
    queried and the client is not initialized a second time. *)
Theorem getGoogleForUser_reuses_session
        (userId : string) (w w1 : World S) (g : Google) :
  getGoogleForUser cid csecret userId w = (Ok (Some g), w1) ->
  getGoogleForUser cid csecret userId w1 = (Ok (Some g), w1).
Proof.
  intros E. destruct (googleInstances w !! userId) as [g0|] eqn:Hit.
  - unfold getGoogleForUser in E. rewrite Hit in E. inversion E; subst.
    unfold getGoogleForUser. now rewrite Hit.
  - rewrite getGoogleForUser_uncached in E by assumption.
    destruct (tenant userId w) as [u|]; [|discriminate].
    destruct (JS.truthy_opt (googleRefreshToken u)); [|discriminate].
    destruct (initialize (google_for cid csecret u) (net w)) as [[[]|e] n'];
      [|discriminate].
    inversion E; subst. unfold getGoogleForUser. simpl.
    now rewrite lookup_insert_eq.
Qed.

End SessionReuse.

Lemma getGoogleForUser_reuses_session_witness :
  let w1 := snd (getGoogleForUser "client" "secret" "u1" (world_of studio)) in
  getGoogleForUser "client" "secret" "u1" w1
  = (Ok (Some (google_for "client" "secret" streamer)), w1).
Proof.
  apply (getGoogleForUser_reuses_session "client" "secret" "u1" (world_of studio)).
  vm_compute. reflexivity.
Defined.

(** ** The playlist id of a tenant *)

Lemma bind_ok {St A B} (c : M St A) (k : A -> M St B) (s : St) (a : A) (s' : St) :
  c s = (Ok a, s') -> bind c k s = k a s'.
Proof. unfold bind. now intros ->. Qed.

Lemma bind_throw {St A B} (c : M St A) (k : A -> M St B) (s : St)
      (e : string) (s' : St) :
  c s = (Throw e, s') -> bind c k s = (Throw e, s').
Proof. unfold bind. now intros ->. Qed.

Section WriteBack.
Context {S : Type} {api : YouTubeApi S} {sim : StringSimilarity}.
Variables cid csecret : string.

(** X21: when the tenant's row holds no playlist id, a request by link asks
    the store exactly once to update the row, with the tenant's id and the
    playlist id [ensurePlaylist] returned for the tenant's playlist name;
    and the only insertion the handler may then make puts the requested
    video into that playlist. *)
Theorem new_playlist_id_is_written_back
        (m : ChatMessage) (w : World S) (u : User) (g : Google)
        (direct playlistId : string) (n1 : Net S) :
  channel_tenant m w = Some u ->
  JS.truthy_opt (youtubePlaylistId u) = false ->
  googleInstances w !! u_id u = Some g ->
  is_request m = true ->
  extractYouTubeVideoId (JS.trim (JS.slice 4 (text m))) = Some direct ->
  ensurePlaylist g (playlistName u) (net w) = (Ok playlistId, n1) ->
  let w' := snd (onMessage cid csecret m w) in
  dblog w' = dblog w ++ [DbFindFirst (JS.replace_first "#" (channel m));
                         DbUpdatePlaylistId (u_id u) playlistId] /\
  exists l,
    calls (net w') = calls n1 ++ l /\
    forall c, In c l ->
      c = CGetAccessToken (g_refreshToken g) \/
      c = CItemsInsert (g_refreshToken g) playlistId direct.
Proof.
  intros Hu Hid Hit Hr Hx Hens. cbv zeta.
  destruct (direct_link_truthy _ (ex_intro _ direct Hx)) as [Tq Td].
  destruct (onMessage cid csecret m w) as [r0 w'] eqn:E. simpl snd.
  rewrite onMessage_dispatch, Hu in E. unfold dispatch in E.
  destruct (request_is_no_other_command m Hr) as [Hn Hs].
  rewrite (handle_np_other cid csecret u m Hn),
          (handle_skip_other cid csecret u m Hs) in E.
  set (w0 := asked_store (DbFindFirst (JS.replace_first "#" (channel m))) w) in E.
  assert (G : getGoogleForUser cid csecret (u_id u) w0 = (Ok (Some g), w0)).
  { unfold getGoogleForUser. simpl. now rewrite Hit. }
  assert (R : resolve_playlist u g w0 =
              match update_row (u_id u) playlistId (db w) with
              | Some rows =>
                  (Ok playlistId,
                   mkWorld n1 rows
                     (dblog w0 ++ [DbUpdatePlaylistId (u_id u) playlistId])
                     (googleInstances w) (said w))
              | None =>
                  (Throw "Record to update not found.",
                   mkWorld n1 (db w)
                     (dblog w0 ++ [DbUpdatePlaylistId (u_id u) playlistId])
                     (googleInstances w) (said w))
              end).
  { unfold resolve_playlist, updatePlaylistId, lift, log_db, bind, ret.
    rewrite Hid. simpl. rewrite Hens. simpl.
    destruct (update_row (u_id u) playlistId (db w)); reflexivity. }
  assert (D0 : dblog w0 ++ [DbUpdatePlaylistId (u_id u) playlistId] =
               dblog w ++ [DbFindFirst (JS.replace_first "#" (channel m));
                           DbUpdatePlaylistId (u_id u) playlistId]).
  { unfold w0. simpl. now rewrite <- app_assoc. }
  unfold handle_sr in E. unfold is_request in Hr. rewrite Hr in E.
  cbv zeta in E. rewrite Tq, Td, Hx in E. simpl negb in E. cbv iota in E.
  simpl default in E.
  unfold bind at 1 in E. unfold try_catch in E.
  rewrite (bind_ok (getGoogleForUser cid csecret (u_id u)) _ w0 _ _ G) in E.
  destruct (update_row (u_id u) playlistId (db w)) as [rows|].
  - rewrite (bind_ok (resolve_playlist u g) _ w0 _ _ R) in E.
    unfold bind, lift, say, ret in E. simpl net in E.
    destruct (addToPlaylist g playlistId direct n1) as [r n2] eqn:Ea.
    assert (Hn2 : exists l, calls n2 = calls n1 ++ l /\
              forall c, In c l ->
                c = CGetAccessToken (g_refreshToken g) \/
                c = CItemsInsert (g_refreshToken g) playlistId direct).
    { unfold addToPlaylist, try_catch in Ea. unfold bind at 1 in Ea.
      rewrite ensureGoogleAccess_run in Ea.
      destruct (getAccessToken (g_refreshToken g) (remote n1)) as [[]|e].
      - unfold call_write in Ea. simpl remote in Ea. simpl calls in Ea.
        destruct (playlistItems_insert (g_refreshToken g) playlistId direct
                    (remote n1)) as [r1 s1].
        assert (En2 : calls n2 = calls n1 ++
                      [CGetAccessToken (g_refreshToken g);
                       CItemsInsert (g_refreshToken g) playlistId direct]).
        { destruct r1 as [[]|e]; [inversion Ea; subst; simpl;
                                  now rewrite <- app_assoc|].
          destruct (includes e "videoNotFound");
            [|destruct (includes e "playlistItemsNotAccessible")];
            inversion Ea; subst; simpl; now rewrite <- app_assoc. }
        eexists. split; [exact En2|]. simpl. intuition.
      - inversion Ea; subst. simpl. eexists. split; [reflexivity|].
        simpl. intuition. }
    destruct r as [[]|e]; simpl in E; inversion E; subst; simpl;
      (split; [exact D0 | exact Hn2]).
  - rewrite (bind_throw (resolve_playlist u g) _ w0 _ _ R) in E.
    unfold bind, say, ret in E. simpl in E. inversion E; subst. simpl.
    split; [exact D0|]. exists []. rewrite app_nil_r.
    split; [reflexivity|]. intros c [].
Qed.

End WriteBack.

Lemma new_playlist_id_is_written_back_witness :
  let w' := snd (onMessage (sim := dice) "client" "secret"
                   (chat "#newcomer" "!sr https://youtu.be/dQw4w9WgXcQ"
                         false false)
                   (world_of_newcomer studio)) in
  dblog w' = [] ++ [DbFindFirst "newcomer"; DbUpdatePlaylistId "u3" "PL-1"] /\
  exists l,
    calls (net w') =
    calls (snd (ensurePlaylist requests_bot "Requests" (mkNet studio []))) ++ l /\
    forall c, In c l ->
      c = CGetAccessToken "rt-1" \/
      c = CItemsInsert "rt-1" "PL-1" "dQw4w9WgXcQ".
Proof.
  apply (new_playlist_id_is_written_back (sim := dice) "client" "secret"
           (chat "#newcomer" "!sr https://youtu.be/dQw4w9WgXcQ" false false)
           (world_of_newcomer studio) newcomer requests_bot
           "dQw4w9WgXcQ" "PL-1"
           (snd (ensurePlaylist requests_bot "Requests" (mkNet studio []))));
    vm_compute; reflexivity.
Defined.

(** ** More on the roster reconciler *)

Section ReconcilerInvariants.
Context {T : Type} {chat_api : ChatTransport T}.

Lemma includes_channel_In (name : string) (chs : list string) :
  includes_channel name chs = true <-> In name chs.
Proof.
  unfold includes_channel. rewrite existsb_exists. split.
  - intros (x & Hx & E). apply String.eqb_eq in E. now subst.
  - intros H. exists name. split; [assumption | apply String.eqb_refl].
Qed.

Lemma includes_channel_not_In (name : string) (chs : list string) :
  includes_channel name chs = false <-> ~ In name chs.
Proof.
  rewrite <- includes_channel_In. destruct (includes_channel name chs); split;
    congruence.
Qed.

(** What the first loop does: it always returns; it appends to the array
    channels that were not in it, each once; its calls are about tenants
    whose channel was not in the array; every tenant of the list is in the
    array afterwards, or a registration call was made for it. *)
Lemma join_loop_effects (users : list User) :
  forall st : Roster T,
  exists t' added l,
    join_loop users st = (Ok tt, mkRoster t' (channels st ++ added) (rcalls st ++ l)) /\
    List.NoDup added /\
    (forall name, In name added -> ~ In name (channels st)) /\
    (forall c, In c l ->
       exists u, In u users /\ ~ In (twitchUsername u) (channels st) /\
                 (c = RAddUser (twitchUserId u) \/ c = RJoin (twitchUsername u))) /\
    (forall u, In u users ->
       In (twitchUsername u) (channels st ++ added) \/
       In (RAddUser (twitchUserId u)) l).
Proof.
  induction users as [|u users IH]; intros st.
  - exists (transport st), [], []. simpl. unfold ret. rewrite !app_nil_r.
    split; [now destruct st|]. split; [constructor|].
    split; [intros ? []|]. split; [intros ? []|intros ? []].
  - simpl join_loop. unfold bind at 1.
    destruct (includes_channel (twitchUsername u) (channels st)) eqn:Inc;
      simpl negb; cbv iota.
    + destruct (IH st) as (t' & added & l & E & ND & Fresh & Calls & All).
      exists t', added, l. split; [exact E|]. split; [exact ND|].
      split; [exact Fresh|]. split.
      * intros c Hc. destruct (Calls c Hc) as (v & Hv & Hn & Hk).
        exists v. split; [now right | auto].
      * intros v [<-|Hv]; [|auto]. left. apply in_or_app. left.
        now apply includes_channel_In.
    + apply includes_channel_not_In in Inc.
      unfold try_catch, bind at 1, chat_call at 1.
      destruct (addUser (twitchUserId u) (twitchAccessToken u)
                        (twitchRefreshToken u) (transport st)) as [[[]|e1] t1].
      * unfold bind at 1, chat_call at 1. simpl transport. simpl channels.
        simpl rcalls.
        destruct (join (twitchUsername u) t1) as [[[]|e2] t2].
        -- unfold push. simpl.
           destruct (IH (mkRoster t2 (channels st ++ [twitchUsername u])
                          ((rcalls st ++ [RAddUser (twitchUserId u)])
                             ++ [RJoin (twitchUsername u)])))
             as (t' & added & l & E & ND & Fresh & Calls & All).
           simpl in E, Fresh, Calls, All.
           exists t', (twitchUsername u :: added),
             (RAddUser (twitchUserId u) :: RJoin (twitchUsername u) :: l).
           split.
           { rewrite E. f_equal. f_equal; rewrite <- !app_assoc; reflexivity. }
           split.
           { constructor; [|exact ND]. intros Hin.
             apply (Fresh _ Hin). apply in_or_app. right. now left. }
           split.
           { intros name [<-|Hin]; [exact Inc|]. intros Hc.
             apply (Fresh _ Hin). apply in_or_app. now left. }
           split.
           { intros c [<-|[<-|Hc]].
             - exists u. split; [now left | auto].
             - exists u. split; [now left | auto].
             - destruct (Calls c Hc) as (v & Hv & Hn & Hk). exists v.
               split; [now right|]. split; [|exact Hk].
               intros Hc'. apply Hn. apply in_or_app. now left. }
           { intros v [<-|Hv].
             - left. apply in_or_app. right. now left.
             - destruct (All v Hv) as [H|H].
               + left. rewrite <- app_assoc in H. exact H.
               + right. right. right. exact H. }
        -- unfold ret. simpl.
           destruct (IH (mkRoster t2 (channels st)
                          ((rcalls st ++ [RAddUser (twitchUserId u)])
                             ++ [RJoin (twitchUsername u)])))
             as (t' & added & l & E & ND & Fresh & Calls & All).
           simpl in E, Fresh, Calls, All.
           exists t', added,
             (RAddUser (twitchUserId u) :: RJoin (twitchUsername u) :: l).
           split.
           { rewrite E. f_equal. f_equal. rewrite <- !app_assoc. reflexivity. }
           split; [exact ND|]. split; [exact Fresh|]. split.
           { intros c [<-|[<-|Hc]].
             - exists u. split; [now left | auto].
             - exists u. split; [now left | auto].
             - destruct (Calls c Hc) as (v & Hv & Hn & Hk). exists v.
               split; [now right | auto]. }
           { intros v [<-|Hv].
             - right. now left.
             - destruct (All v Hv) as [H|H]; [now left|]. right. right. right.
               exact H. }
      * unfold ret. simpl.
        destruct (IH (mkRoster t1 (channels st)
                       (rcalls st ++ [RAddUser (twitchUserId u)])))
          as (t' & added & l & E & ND & Fresh & Calls & All).
        simpl in E, Fresh, Calls, All.
        exists t', added, (RAddUser (twitchUserId u) :: l).
        split.
        { rewrite E. f_equal. f_equal. rewrite <- !app_assoc. reflexivity. }
        split; [exact ND|]. split; [exact Fresh|]. split.
        { intros c [<-|Hc].
          - exists u. split; [now left | auto].
          - destruct (Calls c Hc) as (v & Hv & Hn & Hk). exists v.
            split; [now right | auto]. }
        { intros v [<-|Hv].
          - right. now left.
          - destruct (All v Hv) as [H|H]; [now left|]. right. right. exact H. }
Qed.

End ReconcilerInvariants.

Section PartLoopInvariants.
Context {T : Type} {chat_api : ChatTransport T}.

Lemma splice1_delete (j : nat) (chs : list string) : splice1 j chs = delete j chs.
Proof. unfold splice1. symmetry. apply delete_take_drop. Qed.

Lemma splice1_keeps_others (ch x : string) (chs : list string) (j : nat) :
  indexOf ch chs = Some j -> x <> ch -> In x chs -> In x (splice1 j chs).
Proof.
  revert j. induction chs as [|c chs IH]; intros j; simpl; [discriminate|].
  destruct (String.eqb_spec c ch) as [->|Hne].
  - intros E Hx [->|Hin]; [congruence|]. inversion E; subst j. exact Hin.
  - destruct (indexOf ch chs) as [k|]; [|discriminate]. simpl.
    intros E Hx Hin. inversion E; subst j. unfold splice1. simpl.
    destruct Hin as [->|Hin]; [now left|]. right. now apply (IH k).
Qed.

(** What the second loop does: the array it leaves is the array it found
    with some elements taken out; it makes [part] calls only, each for a
    channel of the array that has no tenant in the list; channels that have
    one stay in the array; when it throws, its last call was a [part]. *)
Lemma part_loop_effects (users : list User) (fuel : nat) :
  forall (i : nat) (st : Roster T),
  exists r t' chs' l,
    part_loop fuel users i st = (r, mkRoster t' chs' (rcalls st ++ l)) /\
    chs' `sublist_of` channels st /\
    (forall c, In c l ->
       exists ch, c = RPart ch /\ find_user ch users = None /\ In ch (channels st)) /\
    (forall ch, In ch (channels st) -> find_user ch users <> None -> In ch chs') /\
    (forall e, r = Throw e -> exists ch l0, l = l0 ++ [RPart ch]).
Proof.
  assert (Stay : forall st : Roster T,
    exists r t' chs' l,
      (Ok tt, st) = (r, mkRoster t' chs' (rcalls st ++ l)) /\
      chs' `sublist_of` channels st /\
      (forall c, In c l ->
         exists ch, c = RPart ch /\ find_user ch users = None /\ In ch (channels st)) /\
      (forall ch, In ch (channels st) -> find_user ch users <> None -> In ch chs') /\
      (forall e, r = Throw e -> exists ch l0, l = l0 ++ [RPart ch])).
  { intros st. exists (Ok tt), (transport st), (channels st), [].
    rewrite app_nil_r. split; [now destruct st|]. split; [reflexivity|].
    split; [intros ? []|]. split; [auto | discriminate]. }
  induction fuel as [|fuel IH]; intros i st; [apply Stay|].
  simpl part_loop.
  destruct (nth_error (channels st) i) as [ch|] eqn:Ei; [|apply Stay].
  assert (Hch : In ch (channels st)) by (eapply nth_error_In; eassumption).
  unfold bind at 1.
  destruct (find_user ch users) as [u|] eqn:Fu.
  - unfold ret at 1. apply IH.
  - unfold bind at 1, chat_call.
    destruct (part ch (transport st)) as [[[]|e] t1].
    + set (chs1 := match indexOf ch (channels st) with
                   | Some j => splice1 j (channels st)
                   | None => channels st
                   end).
      assert (Sub : chs1 `sublist_of` channels st).
      { unfold chs1. destruct (indexOf ch (channels st)); [|reflexivity].
        rewrite splice1_delete. apply sublist_delete. }
      assert (Keep : forall x, In x (channels st) -> x <> ch -> In x chs1).
      { unfold chs1. intros x Hx Hne.
        destruct (indexOf ch (channels st)) as [j|] eqn:Ej; [|exact Hx].
        now apply (splice1_keeps_others ch). }
      assert (E1 : drop_channel ch
                     (mkRoster t1 (channels st) (rcalls st ++ [RPart ch]))
                   = (Ok tt, mkRoster t1 chs1 (rcalls st ++ [RPart ch]))).
      { unfold drop_channel, chs1. simpl.
        destruct (indexOf ch (channels st)); reflexivity. }
      rewrite E1.
      destruct (IH (Datatypes.S i) (mkRoster t1 chs1 (rcalls st ++ [RPart ch])))
        as (r & t' & chs' & l & E & S' & Calls & Act & Thr).
      simpl in E, S', Calls, Act.
      exists r, t', chs', (RPart ch :: l). split.
      { rewrite E. now rewrite <- app_assoc. }
      split; [etransitivity; eassumption|]. split.
      { intros c [<-|Hc]; [eauto|].
        destruct (Calls c Hc) as (ch' & -> & F' & Hin'). exists ch'.
        split; [reflexivity|]. split; [assumption|].
        apply list_elem_of_In. eapply elem_of_sublist; [|exact Sub].
        now apply list_elem_of_In. }
      split.
      { intros x Hx Fx. apply Act; [|assumption]. apply Keep; [assumption|].
        intros ->; congruence. }
      { intros e He. destruct (Thr e He) as (ch' & l0 & ->).
        exists ch', (RPart ch :: l0). reflexivity. }
    + exists (Throw e), t1, (channels st), [RPart ch].
      split; [reflexivity|]. split; [reflexivity|]. split.
      { intros c [<-|[]]. eauto. }
      split; [auto|]. intros e' _. exists ch, []. reflexivity.
Qed.

Lemma join_loop_all_joined (users : list User) (st : Roster T) :
  (forall u, In u users -> In (twitchUsername u) (channels st)) ->
  join_loop users st = (Ok tt, st).
Proof.
  induction users as [|u users IH]; intros H; [reflexivity|].
  rewrite join_loop_joined.
  - apply IH. intros v Hv. apply H. now right.
  - apply includes_channel_In, H. now left.
Qed.

Lemma part_loop_all_active (users : list User) (fuel : nat) :
  forall (i : nat) (st : Roster T),
    (forall ch, In ch (channels st) -> find_user ch users <> None) ->
    part_loop fuel users i st = (Ok tt, st).
Proof.
  induction fuel as [|fuel IH]; intros i st H; [reflexivity|].
  simpl. destruct (nth_error (channels st) i) as [ch|] eqn:Ei; [|reflexivity].
  unfold bind at 1.
  destruct (find_user ch users) as [u|] eqn:Fu.
  - unfold ret at 1. now apply IH.
  - exfalso. apply (H ch); [|assumption]. eapply nth_error_In; eassumption.
Qed.

(** The two loops of a tick, with what each of them did. *)
Lemma tick_effects (rows : list User) (st : Roster T) :
  exists r t' added chs' l1 l2,
    tick rows st = (r, mkRoster t' chs' (rcalls st ++ l1 ++ l2)) /\
    List.NoDup added /\
    (forall name, In name added -> ~ In name (channels st)) /\
    (forall c, In c l1 ->
       exists u, In u (List.filter isActive rows) /\
                 ~ In (twitchUsername u) (channels st) /\
                 (c = RAddUser (twitchUserId u) \/ c = RJoin (twitchUsername u))) /\
    (forall u, In u (List.filter isActive rows) ->
       In (twitchUsername u) (channels st ++ added) \/
       In (RAddUser (twitchUserId u)) l1) /\
    chs' `sublist_of` (channels st ++ added) /\
    (forall c, In c l2 ->
       exists ch, c = RPart ch /\ ~ active_channel rows ch /\
                  In ch (channels st ++ added)) /\
    (forall ch, In ch (channels st ++ added) -> active_channel rows ch ->
                In ch chs') /\
    (forall e, r = Throw e -> exists ch l0, l2 = l0 ++ [RPart ch]).
Proof.
  unfold tick. cbv zeta. unfold bind.
  destruct (join_loop_effects (List.filter isActive rows) st)
    as (t1 & added & l1 & E1 & ND & Fresh & Calls1 & All).
  rewrite E1.
  destruct (part_loop_effects (List.filter isActive rows)
              (length (channels st ++ added)) 0
              (mkRoster t1 (channels st ++ added) (rcalls st ++ l1)))
    as (r & t' & chs' & l2 & E2 & Sub & Calls2 & Act & Thr).
  simpl in E2, Sub, Calls2, Act. simpl channels.
  exists r, t', added, chs', l1, l2. rewrite E2, <- app_assoc.
  split; [reflexivity|]. split; [exact ND|]. split; [exact Fresh|].
  split; [exact Calls1|]. split; [exact All|]. split; [exact Sub|].
  split.
  { intros c Hc. destruct (Calls2 c Hc) as (ch & -> & F & Hin).
    exists ch. split; [reflexivity|]. split; [|exact Hin].
    unfold active_channel. now rewrite F. }
  split; [exact Act | exact Thr].
Qed.

Lemma tick_in_line (rows : list User) (st : Roster T) :
  (forall u, In u (List.filter isActive rows) ->
             In (twitchUsername u) (channels st)) ->
  (forall ch, In ch (channels st) -> active_channel rows ch) ->
  tick rows st = (Ok tt, st).
Proof.
  intros Hj Ha. unfold tick. cbv zeta. unfold bind.
  rewrite join_loop_all_joined by exact Hj.
  now apply part_loop_all_active.
Qed.

(** X22: a tick on a roster that is in line with the store does nothing:
    when every active tenant is joined and every joined channel has an
    active tenant, it makes no call, changes nothing and returns. *)
Theorem tick_idle (rows : list User) (st : Roster T) :
  (forall u, In u rows -> isActive u = true ->
             In (twitchUsername u) (channels st)) ->
  (forall ch, In ch (channels st) -> active_channel rows ch) ->
  tick rows st = (Ok tt, st).
Proof.
  intros Hj Ha. apply tick_in_line; [|exact Ha].
  intros u Hu. apply filter_In in Hu as [Hu Hact]. auto.
Qed.

(** X23: a tick ends with an error in two cases only.  Either the store's
    query for the active tenants failed: then the tick made no call and
    left the roster as it was.  Or a [part] failed: then the last call the
    tick made was the [part] of a channel without active tenant. *)
Theorem tick_fails_only_at_query_or_part
        (answer : result (list User)) (st st' : Roster T) (e : string) :
  reconcile answer st = (Throw e, st') ->
  (answer = Throw e /\ st' = st) \/
  (exists rows ch l,
     answer = Ok rows /\ rcalls st' = rcalls st ++ l ++ [RPart ch] /\
     ~ active_channel rows ch).
Proof.
  destruct answer as [rows|e0]; simpl; intros E.
  - right.
    destruct (tick_effects rows st)
      as (r & t' & added & chs' & l1 & l2 & E' & _ & _ & _ & _ & _ & C2 & _ & Thr).
    rewrite E in E'. inversion E'; subst.
    destruct (Thr e eq_refl) as (ch & l0 & ->).
    exists rows, ch, (l1 ++ l0). split; [reflexivity|]. simpl.
    rewrite <- !app_assoc. split; [reflexivity|].
    destruct (C2 (RPart ch)) as (ch' & Ec & Hn & _).
    { apply in_or_app. right. now left. }
    now inversion Ec; subst.
  - left. inversion E. auto.
Qed.

(** X24: a tick keeps the joined channels distinct: when no channel is
    twice in the array before, none is twice in it after, whether the tick
    returns or throws. *)
Theorem tick_keeps_channels_distinct (rows : list User) (st : Roster T) :
  List.NoDup (channels st) ->
  List.NoDup (channels (snd (tick rows st))).
Proof.
  intros ND.
  destruct (tick_effects rows st)
    as (r & t' & added & chs' & l1 & l2 & -> & NDa & Fresh & _ & _ & Sub & _).
  simpl. apply NoDup_ListNoDup.
  eapply sublist_NoDup; [|exact Sub].
  apply NoDup_ListNoDup. apply List.NoDup_app; [assumption | assumption |].
  intros x Hx Ha. exact (Fresh x Ha Hx).
Qed.

(** X25: a channel that is joined and has an active tenant is left alone
    by a tick: it stays in the array, and the tick makes no [join] and no
    [part] call for it. *)
Theorem tick_leaves_active_channel_alone
        (rows : list User) (st : Roster T) (ch : string) :
  In ch (channels st) -> active_channel rows ch ->
  In ch (channels (snd (tick rows st))) /\
  exists l, rcalls (snd (tick rows st)) = rcalls st ++ l /\
            ~ In (RJoin ch) l /\ ~ In (RPart ch) l.
Proof.
  intros Hin Hact.
  destruct (tick_effects rows st)
    as (r & t' & added & chs' & l1 & l2 & -> & _ & _ & C1 & _ & _ & C2 & Act & _).
  simpl. split.
  - apply Act; [apply in_or_app; now left | assumption].
  - exists (l1 ++ l2). split; [reflexivity|]. split.
    + intros H. apply in_app_or in H as [H|H].
      * destruct (C1 _ H) as (u & _ & Hn & [Ec|Ec]); [discriminate|].
        inversion Ec; subst. contradiction.
      * destruct (C2 _ H) as (ch' & Ec & _). discriminate.
    + intros H. apply in_app_or in H as [H|H].
      * destruct (C1 _ H) as (u & _ & _ & [Ec|Ec]); discriminate.
      * destruct (C2 _ H) as (ch' & Ec & Hn & _). inversion Ec; subst.
        contradiction.
Qed.


(** X27: the second loop ends by running off the array, although it
    removes elements from the array it iterates over: as many turns as the
    array has elements when the loop starts are enough, more change
    nothing. *)
Theorem part_loop_runs_off_the_array
        (users : list User) (st : Roster T) (extra : nat) :
  part_loop (length (channels st) + extra) users 0 st
  = part_loop (length (channels st)) users 0 st.
Proof. apply part_loop_fuel. lia. Qed.

End PartLoopInvariants.

Lemma tick_idle_witness :
  tick [row "a"; row "b"] (mkRoster no_outage ["b"; "a"] [])
  = (Ok tt, mkRoster no_outage ["b"; "a"] []).
Proof.
  apply (tick_idle [row "a"; row "b"] (mkRoster no_outage ["b"; "a"] [])).
  - intros u [<-|[<-|[]]] _; simpl; auto.
  - intros ch [<-|[<-|[]]]; discriminate.
Defined.

Lemma tick_fails_only_at_query_or_part_witness :
  exists ch l,
    [RAddUser "tw-b"; RJoin "b"; RPart "c"] = [] ++ l ++ [RPart ch] /\
    ~ active_channel [row "a"; row "b"] ch.
Proof.
  destruct (tick_fails_only_at_query_or_part (Ok [row "a"; row "b"])
              (mkRoster part_c_down ["a"; "c"; "d"] [])
              (mkRoster part_c_down ["a"; "c"; "d"; "b"]
                        [RAddUser "tw-b"; RJoin "b"; RPart "c"])
              "failed: c")
    as [[E _]|(rows & ch & l & E & El & Hn)].
  - vm_compute. reflexivity.
  - discriminate E.
  - inversion E; subst rows. exists ch, l. auto.
Defined.

(** The store's query fails: the tick ends there, with no call made. *)
Example tick_when_the_store_is_down :
  reconcile (Throw "P1001: cannot reach the database")
            (mkRoster no_outage ["a"; "c"] [])
  = (Throw "P1001: cannot reach the database", mkRoster no_outage ["a"; "c"] []).
Proof. reflexivity. Qed.

Lemma tick_keeps_channels_distinct_witness :
  List.NoDup
    (channels (snd (tick [row "a"; row "b"] (mkRoster no_outage ["a"; "c"] [])))).
Proof.
  apply (tick_keeps_channels_distinct [row "a"; row "b"]
           (mkRoster no_outage ["a"; "c"] [])).
  simpl. repeat constructor; simpl; intuition discriminate.
Defined.

Lemma tick_leaves_active_channel_alone_witness :
  In "a" (channels (snd (tick [row "a"; row "b"]
                           (mkRoster no_outage ["a"; "c"] [])))) /\
  exists l,
    rcalls (snd (tick [row "a"; row "b"] (mkRoster no_outage ["a"; "c"] [])))
    = [] ++ l /\ ~ In (RJoin "a") l /\ ~ In (RPart "a") l.
Proof.
  apply (tick_leaves_active_channel_alone [row "a"; row "b"]
           (mkRoster no_outage ["a"; "c"] []) "a").
  - simpl. auto.
  - discriminate.
Defined.

(** ** Startup *)

Section StartupFacts.
Context {T : Type} {chat_api : ChatTransport T} {chat_connect : ChatConnect T}.

Lemma register_all_effects (users : list User) :
  forall st : Roster T,
  exists t',
    register_all users st =
    (Ok tt, mkRoster t' (channels st)
                     (rcalls st ++ map (fun u => RAddUser (twitchUserId u)) users)).
Proof.
  induction users as [|u users IH]; intros st; simpl.
  - exists (transport st). unfold ret. rewrite app_nil_r. now destruct st.
  - unfold bind, try_catch, chat_call.
    destruct (addUser (twitchUserId u) (twitchAccessToken u)
                      (twitchRefreshToken u) (transport st)) as [[[]|e] t1].
    + destruct (IH (mkRoster t1 (channels st)
                             (rcalls st ++ [RAddUser (twitchUserId u)])))
        as (t' & ->). simpl. exists t'. now rewrite <- app_assoc.
    + unfold ret.
      destruct (IH (mkRoster t1 (channels st)
                             (rcalls st ++ [RAddUser (twitchUserId u)])))
        as (t' & ->). simpl. exists t'. now rewrite <- app_assoc.
Qed.

Lemma find_user_listed (users : list User) (ch : string) :
  In ch (map twitchUsername users) -> find_user ch users <> None.
Proof.
  intros Hin. apply in_map_iff in Hin as (u & <- & Hu). unfold find_user.
  destruct (List.find _ users) eqn:F; [discriminate|]. exfalso.
  apply (find_none _ _ F) in Hu. simpl in Hu. now rewrite String.eqb_refl in Hu.
Qed.

(** X28: [main] fails only when the store's query for the active tenants
    fails, and then before any call is made, or when the connection fails.
    Otherwise one registration call is made for each active tenant, and the
    chat client gets the channels of all of them, whether their registration
    succeeded or not.  A tick on the roster the startup leaves, with the
    same rows in the store, does nothing: a tenant whose registration failed
    at startup is not registered again. *)
Theorem main_joins_every_active_tenant
        (answer : result (list User)) (st : Roster T) :
  match answer with
  | Throw e => main answer st = (Throw e, st)
  | Ok rows =>
      let users := List.filter isActive rows in
      exists t1 t2,
        register_all users st =
          (Ok tt, mkRoster t1 (channels st)
                    (rcalls st ++ map (fun u => RAddUser (twitchUserId u)) users)) /\
        let st' := mkRoster t2 (map twitchUsername users)
                     (rcalls st ++ map (fun u => RAddUser (twitchUserId u)) users) in
        main answer st = (fst (connect (map twitchUsername users) t1), st') /\
        reconcile (Ok rows) st' = (Ok tt, st')
  end.
Proof.
  destruct answer as [rows|e]; [|reflexivity].
  intros users. destruct (register_all_effects users st) as (t1 & E1).
  exists t1, (snd (connect (map twitchUsername users) t1)).
  split; [exact E1|]. cbv zeta. split.
  - simpl main. unfold startup. fold users. unfold bind. rewrite E1.
    unfold set_channels, connect_client. simpl.
    now destruct (connect (map twitchUsername users) t1).
  - simpl reconcile. apply tick_in_line; fold users; simpl.
    + intros u Hu. now apply in_map.
    + intros ch Hch. now apply find_user_listed.
Qed.

(** A run of the second loop that returns having made no call found a
    tenant for every channel from position [i] on, and changed nothing. *)
Lemma part_loop_quiet (users : list User) (fuel : nat) :
  forall (i : nat) (st st' : Roster T),
    length (channels st) - i <= fuel ->
    part_loop fuel users i st = (Ok tt, st') ->
    rcalls st' = rcalls st ->
    st' = st /\
    forall j ch, i <= j -> nth_error (channels st) j = Some ch ->
                 find_user ch users <> None.
Proof.
  induction fuel as [|fuel IH]; intros i st st' Hle E Hc.
  - simpl in E. inversion E; subst. split; [reflexivity|].
    intros j ch Hj Hn. assert (j < length (channels st'))
      by (apply nth_error_Some; congruence). lia.
  - simpl in E. destruct (nth_error (channels st) i) as [ch|] eqn:Ei.
    + unfold bind at 1 in E.
      destruct (find_user ch users) as [u|] eqn:Fu.
      * unfold ret at 1 in E.
        destruct (IH (Datatypes.S i) st st') as [-> Hall]; [lia | exact E | exact Hc |].
        split; [reflexivity|]. intros j ch' Hj Hn.
        destruct (Nat.eq_dec j i) as [->|Hne].
        -- rewrite Ei in Hn. inversion Hn; subst. congruence.
        -- apply (Hall j); [lia | exact Hn].
      * exfalso. unfold bind at 1, chat_call in E.
        destruct (part ch (transport st)) as [[[]|e] t1]; [|discriminate].
        destruct (drop_channel ch
                    (mkRoster t1 (channels st) (rcalls st ++ [RPart ch])))
          as [r2 st2] eqn:E2.
        assert (R2 : r2 = Ok tt /\ rcalls st2 = rcalls st ++ [RPart ch]).
        { unfold drop_channel in E2. simpl in E2.
          destruct (indexOf ch (channels st)); inversion E2; subst; auto. }
        destruct R2 as [-> R2].
        destruct (part_loop_effects users fuel (Datatypes.S i) st2)
          as (r & t' & chs' & l & E' & _).
        rewrite E in E'. inversion E'; subst st'. simpl in Hc.
        rewrite R2, <- app_assoc in Hc.
        apply (f_equal (@length _)) in Hc. rewrite !length_app in Hc.
        simpl in Hc. lia.
    + inversion E; subst. split; [reflexivity|].
      intros j ch Hj Hn. assert (j < length (channels st'))
        by (apply nth_error_Some; congruence).
      apply nth_error_None in Ei. lia.
Qed.

(** X29: a tick that returns without having made a [part] call leaves a
    settled roster: every channel of the array has an active tenant.  (A
    tick that parts a channel may pass over the channel that follows it in
    the array.) *)
Theorem tick_without_part_is_settled
        (rows : list User) (st st' : Roster T) (l : list RosterCall) :
  tick rows st = (Ok tt, st') ->
  rcalls st' = rcalls st ++ l ->
  (forall ch, ~ In (RPart ch) l) ->
  forall ch, In ch (channels st') -> active_channel rows ch.
Proof.
  intros E Hl Hn ch Hch. unfold tick in E. cbv zeta in E. unfold bind in E.
  destruct (join_loop_effects (List.filter isActive rows) st)
    as (t1 & added & l1 & E1 & _).
  rewrite E1 in E. simpl channels in E.
  destruct (part_loop_effects (List.filter isActive rows)
              (length (channels st ++ added)) 0
              (mkRoster t1 (channels st ++ added) (rcalls st ++ l1)))
    as (r & t' & chs' & l2 & E2 & _ & C2 & _).
  simpl in E2, C2.
  assert (L2 : l2 = []).
  { rewrite E in E2. inversion E2; subst st'. simpl in Hl.
    rewrite <- app_assoc in Hl. apply app_inv_head in Hl. subst l.
    destruct l2 as [|c l2]; [reflexivity|]. exfalso.
    destruct (C2 c (or_introl eq_refl)) as (ch' & -> & _).
    apply (Hn ch'). apply in_or_app. right. now left. }
  subst l2. rewrite app_nil_r in E2.
  destruct (part_loop_quiet (List.filter isActive rows)
              (length (channels st ++ added)) 0
              (mkRoster t1 (channels st ++ added) (rcalls st ++ l1)) st')
    as [-> Hall].
  - simpl. lia.
  - exact E.
  - rewrite E in E2. now inversion E2.
  - simpl in Hch. apply In_nth_error in Hch as (j & Hj).
    apply (Hall j ch); [lia | exact Hj].
Qed.

End StartupFacts.

Lemma tick_without_part_is_settled_witness :
  tick [row "a"; row "b"] (mkRoster no_outage ["a"] [])
  = (Ok tt, mkRoster no_outage ["a"; "b"] [RAddUser "tw-b"; RJoin "b"]) /\
  active_channel [row "a"; row "b"] "b".
Proof.
  split; [vm_compute; reflexivity|].
  apply (tick_without_part_is_settled [row "a"; row "b"]
           (mkRoster no_outage ["a"] [])
           (mkRoster no_outage ["a"; "b"] [RAddUser "tw-b"; RJoin "b"])
           [RAddUser "tw-b"; RJoin "b"]).
  - vm_compute. reflexivity.
  - reflexivity.
  - intros ch [H|[H|[]]]; discriminate.
  - simpl. auto.
Defined.
